(** * StandardMessageCodec (plugin/standard-message-codec.go)

    A shallow embedding of the Flutter standard message codec of go-flutter
    and the properties of its two entry points, [EncodeMessage] and
    [DecodeMessage].

    Modelling conventions.
    - A Go [int] is a [Z]; conversions to fixed widths ([byte(v)], [int16(v)],
      [int32(v)]) are written out as wrap-arounds.
    - A [bytes.Buffer] that is only written to is the [list byte] of its
      contents; a buffer that is only read from is the [list byte] of its
      unread part, so [buf.Len()] is the length of the list in both cases.
    - A Go function returning [(T, error)] returns an [outcome]: a result, an
      error value, or a run-time panic.
    - A [float64] is its IEEE-754 bit pattern ([math.Float64bits]), the only
      view of it the codec uses.
    - A slice is the list of its elements (a nil slice and an empty slice are
      the same list).
    - A [map[interface{}]interface{}] is an association list; its order
      stands for the order in which [range] visits the entries when the map
      is written, and for insertion order when the map is read;
      [mapassign] is Go's [m[key] = value].
    - Memory is unbounded: [make] and buffer growth fail only where the
      language makes them panic (a negative length or capacity). The text
      carried by [Panic] names the run-time error and is not meant to be its
      exact wording. *)

From Stdlib Require Import ZArith List String Ascii Bool Lia.
From Stdlib Require Import Strings.Byte.
Import ListNotations.
Open Scope Z_scope.

(** ** Bytes *)

Definition b2z (b : byte) : Z := Z.of_N (Byte.to_N b).

(** [byte(v)] : the low eight bits of an integer. *)
Definition z2b (z : Z) : byte :=
  match Byte.of_N (Z.to_N (z mod 256)) with
  | Some b => b
  | None => x00
  end.

Definition len {A} (l : list A) : Z := Z.of_nat (List.length l).

(** ** Errors and outcomes *)

(** The error values the codec builds: [errors.New], [errors.Wrap] (package
    github.com/pkg/errors), the codec's own [MessageTypeError], and the two
    sentinels [io.EOF] and [io.ErrUnexpectedEOF] that [bytes.Buffer.ReadByte]
    and [binary.Read] return. *)
Inductive error : Type :=
| ErrorsNew (msg : string)
| ErrorsWrap (cause : error) (msg : string)
| MessageTypeError (msg : string)
| EOF
| ErrUnexpectedEOF.

(** [errors.Cause]: the innermost error of a chain of wraps. *)
Fixpoint Cause (e : error) : error :=
  match e with
  | ErrorsWrap c _ => Cause c
  | _ => e
  end.

Definition isMessageTypeError (e : error) : bool :=
  match Cause e with
  | MessageTypeError _ => true
  | _ => false
  end.

(** What a call does: return a value, return a non-nil error, panic, or (for
    the fuel-indexed reader only) exhaust its fuel. *)
Inductive outcome (A : Type) : Type :=
| Ok (a : A)
| Err (e : error)
| Panic (msg : string)
| OutOfFuel.

Arguments Ok {A} a.
Arguments Err {A} e.
Arguments Panic {A} msg.
Arguments OutOfFuel {A}.

Definition bind {A B} (m : outcome A) (k : A -> outcome B) : outcome B :=
  match m with
  | Ok a => k a
  | Err e => Err e
  | Panic s => Panic s
  | OutOfFuel => OutOfFuel
  end.

Notation "x <- m ;; k" := (bind m (fun x => k))
  (at level 61, m at next level, right associativity).
Notation "' p <- m ;; k" := (bind m (fun x => let p := x in k))
  (at level 61, p pattern, m at next level, right associativity).

(** [errors.Wrap(err, msg)] applied to the error of an outcome. *)
Definition wrapErr {A} (m : outcome A) (msg : string) : outcome A :=
  match m with
  | Err e => Err (ErrorsWrap e msg)
  | _ => m
  end.

(** ** Fixed-width integers (encoding/binary) *)

Inductive ByteOrder : Type := LittleEndian | BigEndian.

(** [PutUintN] of [binary.LittleEndian]: [b[i] = byte(v >> (8*i))]. *)
Fixpoint put_le (n : nat) (v : Z) : list byte :=
  match n with
  | O => []
  | S n' => z2b v :: put_le n' (Z.shiftr v 8)
  end.

(** [UintN] of [binary.LittleEndian]: the sum of [b[i] << (8*i)]. *)
Fixpoint get_le (bs : list byte) : Z :=
  match bs with
  | [] => 0
  | b :: bs' => b2z b + 256 * get_le bs'
  end.

Definition put_uint (o : ByteOrder) (n : nat) (v : Z) : list byte :=
  match o with
  | LittleEndian => put_le n v
  | BigEndian => rev (put_le n v)
  end.

Definition get_uint (o : ByteOrder) (bs : list byte) : Z :=
  match o with
  | LittleEndian => get_le bs
  | BigEndian => get_le (rev bs)
  end.

(** Reinterpreting an unsigned [bits]-bit pattern as a signed integer, and
    the conversions [int16(v)], [int32(v)]. *)
Definition to_signed (bits : Z) (u : Z) : Z :=
  if u <? 2 ^ (bits - 1) then u else u - 2 ^ bits.

Definition wrap_signed (bits : Z) (v : Z) : Z := to_signed bits (v mod 2 ^ bits).

Definition int16 (v : Z) : Z := wrap_signed 16 v.
Definition int32 (v : Z) : Z := wrap_signed 32 v.

Definition in_int32 (v : Z) : bool := (- 2 ^ 31 <=? v) && (v <? 2 ^ 31).
Definition in_int64 (v : Z) : bool := (- 2 ^ 63 <=? v) && (v <? 2 ^ 63).
Definition in_uint64 (v : Z) : bool := (0 <=? v) && (v <? 2 ^ 64).

(** ** bytes.Buffer, reading side *)

(** [buf.ReadByte()]. *)
Definition ReadByte (buf : list byte) : outcome (byte * list byte) :=
  match buf with
  | [] => Err EOF
  | b :: buf' => Ok (b, buf')
  end.

(** [io.ReadFull(buf, p)] with [len(p) = n], as [binary.Read] calls it:
    nothing to read succeeds; an empty buffer gives [io.EOF]; a buffer that
    runs dry part-way gives [io.ErrUnexpectedEOF]. *)
Definition ReadFull (n : Z) (buf : list byte) : outcome (list byte * list byte) :=
  if n <=? 0 then Ok ([], buf)
  else if n <=? len buf then Ok (firstn (Z.to_nat n) buf, skipn (Z.to_nat n) buf)
  else match buf with
       | [] => Err EOF
       | _ => Err ErrUnexpectedEOF
       end.

(** [buf.Next(n)]: the next [n] bytes, or fewer when the buffer is shorter; a
    negative [n] makes the slice expression [b.buf[b.off : b.off+n]] panic. *)
Definition Next (n : Z) (buf : list byte) : outcome (list byte * list byte) :=
  if n <? 0 then Panic "runtime error: slice bounds out of range"
  else
    let m := Z.min n (len buf) in
    Ok (firstn (Z.to_nat m) buf, skipn (Z.to_nat m) buf).

(** ** math/big: base-16 text of an integer *)

(** The digit characters of [strconv]/[math/big]: "0123456789abcdef". *)
Definition hexdigit (d : Z) : ascii :=
  if d <? 10 then ascii_of_nat (Z.to_nat (48 + d))
  else ascii_of_nat (Z.to_nat (87 + d)).

Fixpoint nat_text16 (fuel : nat) (n : Z) (acc : string) : string :=
  match fuel with
  | O => acc
  | S fuel' =>
      let acc' := String (hexdigit (n mod 16)) acc in
      if n / 16 =? 0 then acc' else nat_text16 fuel' (n / 16) acc'
  end.

Definition abs_text16 (n : Z) : string :=
  nat_text16 (S (Z.to_nat (Z.log2 n))) n EmptyString.

(** [x.Text(16)] for a non-nil [x]: a minus sign for negative values, then
    the lower-case hexadecimal digits of the magnitude. *)
Definition Text16 (x : Z) : string :=
  if x <? 0 then String "-" (abs_text16 (- x)) else abs_text16 x.

(** The value of a digit character as [math/big] scans it. *)
Definition digitval (c : ascii) : option Z :=
  let n := Z.of_nat (nat_of_ascii c) in
  if (48 <=? n) && (n <=? 57) then Some (n - 48)
  else if (97 <=? n) && (n <=? 122) then Some (n - 97 + 10)
  else if (65 <=? n) && (n <=? 90) then Some (n - 65 + 10)
  else None.

Fixpoint scan_digits (s : string) (acc : Z) : option Z :=
  match s with
  | EmptyString => Some acc
  | String c s' =>
      match digitval c with
      | Some d => if d <? 16 then scan_digits s' (16 * acc + d) else None
      | None => None
      end
  end.

Definition scan_mantissa (s : string) : option Z :=
  match s with
  | EmptyString => None
  | _ => scan_digits s 0
  end.

(** [new(big.Int).SetString(s, 16)]: an optional sign, then at least one
    hexadecimal digit, and nothing else. *)
Definition SetString16 (s : string) : option Z :=
  match s with
  | EmptyString => None
  | String c s' =>
      if Ascii.eqb c "-" then option_map Z.opp (scan_mantissa s')
      else if Ascii.eqb c "+" then scan_mantissa s'
      else scan_mantissa s
  end.

(** ** Values *)

#[local] Set Warnings "-register-all".


(** The dynamic values handed to the codec. The first thirteen constructors
    are the supported forms; [VOther T] stands for a value of any other
    dynamic type, [T] being what [fmt]'s [%T] prints for it. A [*big.Int] is
    the integer a non-nil pointer points to. *)
Inductive Value : Type :=
| VNil
| VBool (b : bool)
| VInt32 (n : Z)
| VInt64 (n : Z)
| VBigInt (n : Z)
| VFloat64 (bits : Z)
| VString (s : string)
| VBytes (bs : list byte)
| VInt32Slice (l : list Z)
| VInt64Slice (l : list Z)
| VFloat64Slice (l : list Z)
| VList (l : list Value)
| VMap (m : list (Value * Value))
| VOther (T : string).

(** Induction over values that reaches the elements of lists and the keys
    and values of maps. *)
Section ValueInd.
Variable P : Value -> Prop.
Hypothesis HNil : P VNil.
Hypothesis HBool : forall b, P (VBool b).
Hypothesis HInt32 : forall n, P (VInt32 n).
Hypothesis HInt64 : forall n, P (VInt64 n).
Hypothesis HBigInt : forall n, P (VBigInt n).
Hypothesis HFloat64 : forall x, P (VFloat64 x).
Hypothesis HString : forall s, P (VString s).
Hypothesis HBytes : forall bs, P (VBytes bs).
Hypothesis HInt32Slice : forall l, P (VInt32Slice l).
Hypothesis HInt64Slice : forall l, P (VInt64Slice l).
Hypothesis HFloat64Slice : forall l, P (VFloat64Slice l).
Hypothesis HList : forall l, Forall P l -> P (VList l).
Hypothesis HMap :
  forall m, Forall (fun kv => P (fst kv) /\ P (snd kv)) m -> P (VMap m).
Hypothesis HOther : forall T, P (VOther T).

Fixpoint Value_nested_ind (v : Value) : P v :=
  match v with
  | VNil => HNil
  | VBool b => HBool b
  | VInt32 n => HInt32 n
  | VInt64 n => HInt64 n
  | VBigInt n => HBigInt n
  | VFloat64 x => HFloat64 x
  | VString s => HString s
  | VBytes bs => HBytes bs
  | VInt32Slice l => HInt32Slice l
  | VInt64Slice l => HInt64Slice l
  | VFloat64Slice l => HFloat64Slice l
  | VList l =>
      HList l
        ((fix go (l : list Value) : Forall P l :=
            match l with
            | [] => Forall_nil _
            | x :: l' => Forall_cons _ (Value_nested_ind x) (go l')
            end) l)
  | VMap m =>
      HMap m
        ((fix go (m : list (Value * Value))
            : Forall (fun kv => P (fst kv) /\ P (snd kv)) m :=
            match m with
            | [] => Forall_nil _
            | (k, x) :: m' =>
                Forall_cons (k, x)
                  (conj (Value_nested_ind k) (Value_nested_ind x)) (go m')
            end) m)
  | VOther T => HOther T
  end.
End ValueInd.

(** ** Go maps keyed by interface values *)

(** Slices and maps cannot be hashed: using one as a key of a
    [map[interface{}]interface{}] panics at run time. *)
Definition hashable (k : Value) : bool :=
  match k with
  | VBytes _ | VInt32Slice _ | VInt64Slice _ | VFloat64Slice _
  | VList _ | VMap _ => false
  | _ => true
  end.

(** IEEE-754 comparison of two doubles given by their bit patterns: a NaN
    equals nothing, the two zeros are equal, anything else compares by
    pattern. *)
Definition float_isNaN (bits : Z) : bool :=
  (Z.land (Z.shiftr bits 52) 2047 =? 2047) && negb (Z.land bits (2 ^ 52 - 1) =? 0).

Definition float_isZero (bits : Z) : bool :=
  Z.land bits (2 ^ 63 - 1) =? 0.

Definition float_eq (x y : Z) : bool :=
  negb (float_isNaN x) && negb (float_isNaN y)
  && ((x =? y) || (float_isZero x && float_isZero y)).

(** Go's [==] on two interface values holding hashable keys, as the map
    implementation applies it to a key being stored and a key already
    present: same dynamic type and equal contents. A [*big.Int] key is a
    pointer and equals only itself; every [*big.Int] the decoder stores comes
    from its own [new(big.Int)], so two of them are never equal. *)
Definition go_eq (a b : Value) : bool :=
  match a, b with
  | VNil, VNil => true
  | VBool x, VBool y => Bool.eqb x y
  | VInt32 x, VInt32 y => x =? y
  | VInt64 x, VInt64 y => x =? y
  | VFloat64 x, VFloat64 y => float_eq x y
  | VString x, VString y => String.eqb x y
  | _, _ => false
  end.

Definition gomap : Type := list (Value * Value).

(** Overwrite the entry whose key equals [k], or add one at the end. *)
Fixpoint mapstore (m : gomap) (k v : Value) : gomap :=
  match m with
  | [] => [(k, v)]
  | (k', v') :: m' =>
      if go_eq k' k then (k, v) :: m' else (k', v') :: mapstore m' k v
  end.

(** [m[k] = v]. *)
Definition mapassign (m : gomap) (k v : Value) : outcome gomap :=
  if hashable k then Ok (mapstore m k v)
  else Panic "runtime error: hash of unhashable type".

(** [m[k]] : the value stored under a key equal to [k], if any. *)
Fixpoint mapaccess (m : gomap) (k : Value) : option Value :=
  match m with
  | [] => None
  | (k', v') :: m' => if go_eq k' k then Some v' else mapaccess m' k
  end.

(** ** The codec *)

Section Codec.

(** The byte order shared by all fixed-width fields. The package-level
    [endian] is declared outside this file, so the codec is taken over
    either order. *)
Variable endian : ByteOrder.

(** *** bytes.Buffer and encoding/binary, writing side *)

Definition WriteByte (buf : list byte) (c : Z) : outcome (list byte) :=
  Ok (buf ++ [z2b c]).

Definition Write (buf : list byte) (p : list byte) : outcome (list byte) :=
  Ok (buf ++ p).

Definition writeInt16 (buf : list byte) (value : Z) : outcome (list byte) :=
  Write buf (put_uint endian 2 value).

Definition writeInt32 (buf : list byte) (value : Z) : outcome (list byte) :=
  Write buf (put_uint endian 4 value).

Definition writeInt64 (buf : list byte) (value : Z) : outcome (list byte) :=
  Write buf (put_uint endian 8 value).

(** The value is the bit pattern [math.Float64bits] gives. *)
Definition writeFloat64 (buf : list byte) (bits : Z) : outcome (list byte) :=
  Write buf (put_uint endian 8 bits).

(** [binary.Write] of a slice of [w]-byte elements. *)
Definition binaryWriteSlice (buf : list byte) (w : nat) (l : list Z)
  : outcome (list byte) :=
  Write buf (List.concat (map (put_uint endian w) l)).

Definition writeSize (buf : list byte) (value : Z) : outcome (list byte) :=
  if value <? 0 then Err (ErrorsNew "invalid size: negative")
  else if value <? 254 then
    WriteByte buf value
  else if value <=? 65535 then
    buf <- WriteByte buf 254 ;;
    writeInt16 buf (int16 value)
  else
    buf <- WriteByte buf 255 ;;
    writeInt32 buf (int32 value).

Definition writeBytes (buf : list byte) (value : list byte) : outcome (list byte) :=
  buf <- writeSize buf (len value) ;;
  Write buf value.

Definition writeString (buf : list byte) (value : string) : outcome (list byte) :=
  buf <- writeSize buf (len (list_byte_of_string value)) ;;
  Write buf (list_byte_of_string value).

Definition writeAlignment (buf : list byte) (alignment : Z) : outcome (list byte) :=
  let mod_ := Z.rem (len buf) alignment in
  if negb (mod_ =? 0) then Write buf (repeat x00 (Z.to_nat (alignment - mod_)))
  else Ok buf.

Definition typeErrorMessage (T : string) : string :=
  ("type " ++ T ++ " is not supported by StandardMessageCodec")%string.

Fixpoint writeValue (buf : list byte) (value : Value) {struct value}
  : outcome (list byte) :=
  match value with
  | VNil => WriteByte buf 0
  | VBool typedValue =>
      if typedValue then WriteByte buf 1 else WriteByte buf 2
  | VInt32 typedValue =>
      buf <- WriteByte buf 3 ;;
      writeInt32 buf typedValue
  | VInt64 typedValue =>
      buf <- WriteByte buf 4 ;;
      writeInt64 buf typedValue
  | VFloat64 typedValue =>
      buf <- WriteByte buf 6 ;;
      buf <- writeAlignment buf 8 ;;
      writeFloat64 buf typedValue
  | VBigInt typedValue =>
      buf <- WriteByte buf 5 ;;
      writeString buf (Text16 typedValue)
  | VString typedValue =>
      buf <- WriteByte buf 7 ;;
      writeString buf typedValue
  | VBytes typedValue =>
      buf <- WriteByte buf 8 ;;
      writeBytes buf typedValue
  | VInt32Slice typedValue =>
      buf <- WriteByte buf 9 ;;
      buf <- writeSize buf (len typedValue) ;;
      buf <- writeAlignment buf 4 ;;
      binaryWriteSlice buf 4 typedValue
  | VInt64Slice typedValue =>
      buf <- WriteByte buf 10 ;;
      buf <- writeSize buf (len typedValue) ;;
      buf <- writeAlignment buf 8 ;;
      binaryWriteSlice buf 8 typedValue
  | VFloat64Slice typedValue =>
      buf <- WriteByte buf 11 ;;
      buf <- writeSize buf (len typedValue) ;;
      buf <- writeAlignment buf 8 ;;
      binaryWriteSlice buf 8 typedValue
  | VList typedValue =>
      buf <- WriteByte buf 12 ;;
      buf <- writeSize buf (len typedValue) ;;
      (fix range (l : list Value) (buf : list byte) : outcome (list byte) :=
         match l with
         | [] => Ok buf
         | v :: l' =>
             buf <- writeValue buf v ;;
             range l' buf
         end) typedValue buf
  | VMap typedValue =>
      buf <- WriteByte buf 13 ;;
      buf <- writeSize buf (len typedValue) ;;
      (fix range (m : list (Value * Value)) (buf : list byte)
         : outcome (list byte) :=
         match m with
         | [] => Ok buf
         | (k, v) :: m' =>
             buf <- writeValue buf k ;;
             buf <- writeValue buf v ;;
             range m' buf
         end) typedValue buf
  | VOther T => Err (MessageTypeError (typeErrorMessage T))
  end.

Definition EncodeMessage (message : Value) : outcome (list byte) :=
  wrapErr (writeValue [] message) "failed to encode message".

(** *** Reading *)

Definition readInt16 (buf : list byte) : outcome (Z * list byte) :=
  '(bs, buf) <- ReadFull 2 buf ;;
  Ok (to_signed 16 (get_uint endian bs), buf).

Definition readInt32 (buf : list byte) : outcome (Z * list byte) :=
  '(bs, buf) <- ReadFull 4 buf ;;
  Ok (to_signed 32 (get_uint endian bs), buf).

Definition readInt64 (buf : list byte) : outcome (Z * list byte) :=
  '(bs, buf) <- ReadFull 8 buf ;;
  Ok (to_signed 64 (get_uint endian bs), buf).

Definition readFloat64 (buf : list byte) : outcome (Z * list byte) :=
  '(bs, buf) <- ReadFull 8 buf ;;
  Ok (get_uint endian bs, buf).

Definition readSize (buf : list byte) : outcome (Z * list byte) :=
  '(b, buf) <- ReadByte buf ;;
  if b2z b <? 254 then Ok (b2z b, buf)
  else if b2z b =? 254 then readInt16 buf
  else readInt32 buf.

Definition readBytes (buf : list byte) : outcome (list byte * list byte) :=
  '(length, buf) <- wrapErr (readSize buf) "reading size" ;;
  '(value, buf) <- Next length buf ;;
  if negb (len value =? length) then
    Err (ErrorsNew "message corrupted: not enough bytes in buffer")
  else Ok (value, buf).

Definition readAlignment (buf : list byte) (originalSize alignment : Z)
  : list byte :=
  let position := originalSize - len buf in
  let mod_ := Z.rem position alignment in
  if negb (mod_ =? 0) then
    skipn (Z.to_nat (Z.min (alignment - mod_) (len buf))) buf
  else buf.

(** The elements of a slice read by [binary.Read] from [w * n] bytes. *)
Fixpoint slice_elems (dec : list byte -> Z) (w : nat) (n : nat)
  (bs : list byte) : list Z :=
  match n with
  | O => []
  | S n' => dec (firstn w bs) :: slice_elems dec w n' (skipn w bs)
  end.

(** [value := make([]T, length); binary.Read(buf, endian, value)] for a
    [w]-byte element type [T]. *)
Definition readSlice (dec : list byte -> Z) (w : nat) (length : Z)
  (buf : list byte) : outcome (list Z * list byte) :=
  if length <? 0 then Panic "runtime error: makeslice: len out of range"
  else
    '(bs, buf) <- ReadFull (Z.of_nat w * length) buf ;;
    Ok (slice_elems dec w (Z.to_nat length) bs, buf).

(** [for i := 0; i < length; i++ { value, err := read(buf); ...;
    list = append(list, value) }], the list being [elems]. Every turn that does not fail takes at
    least one byte, so [fuel] bounds the turns. *)
Fixpoint readListLoop (read : list byte -> outcome (Value * list byte))
  (fuel : nat) (i length : Z) (buf : list byte) (elems : list Value)
  : outcome (list Value * list byte) :=
  if i <? length then
    match fuel with
    | O => OutOfFuel
    | S fuel' =>
        '(value, buf) <- read buf ;;
        readListLoop read fuel' (i + 1) length buf (elems ++ [value])
    end
  else Ok (elems, buf).

(** The same loop for maps: a key, a value, then [m[key] = value]. *)
Fixpoint readMapLoop (read : list byte -> outcome (Value * list byte))
  (fuel : nat) (i length : Z) (buf : list byte) (m : gomap)
  : outcome (gomap * list byte) :=
  if i <? length then
    match fuel with
    | O => OutOfFuel
    | S fuel' =>
        '(key, buf) <- read buf ;;
        '(value, buf) <- read buf ;;
        m <- mapassign m key value ;;
        readMapLoop read fuel' (i + 1) length buf m
    end
  else Ok (m, buf).

Fixpoint readValueAligned (fuel : nat) (buf : list byte) (originalSize : Z)
  {struct fuel} : outcome (Value * list byte) :=
  match fuel with
  | O => OutOfFuel
  | S fuel' =>
      '(valueType, buf) <- wrapErr (ReadByte buf) "reading value type" ;;
      match b2z valueType with
      | 0 => Ok (VNil, buf)
      | 1 => Ok (VBool true, buf)
      | 2 => Ok (VBool false, buf)
      | 3 =>
          '(v, buf) <- readInt32 buf ;;
          Ok (VInt32 v, buf)
      | 4 =>
          '(v, buf) <- readInt64 buf ;;
          Ok (VInt64 v, buf)
      | 6 =>
          let buf := readAlignment buf originalSize 8 in
          '(v, buf) <- readFloat64 buf ;;
          Ok (VFloat64 v, buf)
      | 5 =>
          '(bs, buf) <- wrapErr (readBytes buf) "reading byte slice for bigint" ;;
          match SetString16 (string_of_list_byte bs) with
          | None => Err (ErrorsNew "invalid binary encoding for bigint")
          | Some bigint => Ok (VBigInt bigint, buf)
          end
      | 7 =>
          '(bs, buf) <- wrapErr (readBytes buf) "reading byte slice for string" ;;
          Ok (VString (string_of_list_byte bs), buf)
      | 8 =>
          '(bs, buf) <- wrapErr (readBytes buf) "reading byte slice" ;;
          Ok (VBytes bs, buf)
      | 9 =>
          '(length, buf) <- readSize buf ;;
          let buf := readAlignment buf originalSize 4 in
          '(value, buf) <-
            readSlice (fun bs => to_signed 32 (get_uint endian bs)) 4 length buf ;;
          Ok (VInt32Slice value, buf)
      | 10 =>
          '(length, buf) <- readSize buf ;;
          let buf := readAlignment buf originalSize 8 in
          '(value, buf) <-
            readSlice (fun bs => to_signed 64 (get_uint endian bs)) 8 length buf ;;
          Ok (VInt64Slice value, buf)
      | 11 =>
          '(length, buf) <- readSize buf ;;
          let buf := readAlignment buf originalSize 8 in
          '(value, buf) <- readSlice (get_uint endian) 8 length buf ;;
          Ok (VFloat64Slice value, buf)
      | 12 =>
          '(length, buf) <- readSize buf ;;
          if length <? 0 then Panic "runtime error: makeslice: cap out of range"
          else
            '(elems, buf) <-
              readListLoop (fun b => readValueAligned fuel' b originalSize)
                fuel' 0 length buf [] ;;
            Ok (VList elems, buf)
      | 13 =>
          '(length, buf) <- readSize buf ;;
          '(m, buf) <-
            readMapLoop (fun b => readValueAligned fuel' b originalSize)
              fuel' 0 length buf [] ;;
          Ok (VMap m, buf)
      | _ => Err (ErrorsNew "invalid message value type")
      end
  end.

(** [originalSize := len(buf.Bytes())], taken once. A value takes at least
    one byte, so one unit of fuel per byte and one more is enough
    ([readValueAligned_total]). *)
Definition readValue (buf : list byte) : outcome (Value * list byte) :=
  let originalSize := len buf in
  readValueAligned (S (List.length buf)) buf originalSize.

Definition DecodeMessage (data : list byte) : outcome Value :=
  '(message, _) <- wrapErr (readValue data) "failed to decode data to message" ;;
  Ok message.

End Codec.

(** ** Auxiliary definitions for the statements *)

(** The sizes whose encoding [readSize] reads back unchanged: those below
    2^15 and those from 2^16 up to 2^31 - 1. *)
Definition size_ok (n : Z) : bool :=
  ((0 <=? n) && (n <? 32768)) || ((65536 <=? n) && (n <? 2 ^ 31)).

(** The bytes [writeSize] appends for [n]. *)
Definition size_enc (endian : ByteOrder) (n : Z) : list byte :=
  match writeSize endian [] n with
  | Ok out => out
  | _ => []
  end.

(** What [readSize] makes of the bytes [writeSize] wrote for [n]. *)
Definition size_read_back (n : Z) : Z :=
  if n <? 254 then n else if n <=? 65535 then int16 n else int32 n.

(** A value of one of the thirteen supported forms, all the way down, with
    payloads inside the range of their Go type. *)
Fixpoint supported (v : Value) : bool :=
  match v with
  | VNil | VBool _ | VBigInt _ | VString _ | VBytes _ => true
  | VInt32 n => in_int32 n
  | VInt64 n => in_int64 n
  | VFloat64 x => in_uint64 x
  | VInt32Slice l => forallb in_int32 l
  | VInt64Slice l => forallb in_int64 l
  | VFloat64Slice l => forallb in_uint64 l
  | VList l => forallb supported l
  | VMap m => forallb (fun kv => let '(k, x) := kv in supported k && supported x) m
  | VOther _ => false
  end.

(** No key equals a later one. *)
Fixpoint distinct_keys (ks : list Value) : bool :=
  match ks with
  | [] => true
  | k :: ks' => forallb (fun k' => negb (go_eq k k')) ks' && distinct_keys ks'
  end.

(** What Go guarantees of every [map[interface{}]interface{}] in a value:
    its keys are hashable and no two of them are equal. *)
Fixpoint valid_maps (v : Value) : bool :=
  match v with
  | VList l => forallb valid_maps l
  | VMap m =>
      forallb (fun kv => let '(k, x) := kv in
                         hashable k && valid_maps k && valid_maps x) m
      && distinct_keys (map fst m)
  | _ => true
  end.

(** Every length the encoder writes for the value is one [readSize] reads
    back: byte lengths of strings, byte buffers and big-integer texts,
    element counts of slices, lists and maps. *)
Fixpoint sizes_ok (v : Value) : bool :=
  match v with
  | VBigInt n => size_ok (len (list_byte_of_string (Text16 n)))
  | VString s => size_ok (len (list_byte_of_string s))
  | VBytes bs => size_ok (len bs)
  | VInt32Slice l | VInt64Slice l | VFloat64Slice l => size_ok (len l)
  | VList l => size_ok (len l) && forallb sizes_ok l
  | VMap m =>
      size_ok (len m)
      && forallb (fun kv => let '(k, x) := kv in sizes_ok k && sizes_ok x) m
  | _ => true
  end.

(** The two [range] loops of [writeValue], named. *)
Fixpoint writeElems (endian : ByteOrder) (l : list Value) (buf : list byte)
  : outcome (list byte) :=
  match l with
  | [] => Ok buf
  | v :: l' =>
      buf <- writeValue endian buf v ;;
      writeElems endian l' buf
  end.

Fixpoint writePairs (endian : ByteOrder) (m : list (Value * Value))
  (buf : list byte) : outcome (list byte) :=
  match m with
  | [] => Ok buf
  | (k, v) :: m' =>
      buf <- writeValue endian buf k ;;
      buf <- writeValue endian buf v ;;
      writePairs endian m' buf
  end.

(** [out], written for [v] after the bytes [pre], is read back as [v] by a
    reader that stands [len pre] bytes into a message of [orig] bytes,
    whatever follows; one unit of fuel per byte of [out] is enough. *)
Definition reads_back (endian : ByteOrder) (pre : list byte) (v : Value)
  (out : list byte) : Prop :=
  (1 <= List.length out)%nat /\
  forall fuel rest orig,
    orig = len pre + len out + len rest ->
    (List.length out <= fuel)%nat ->
    readValueAligned endian fuel (out ++ rest) orig = Ok (v, rest).

Definition roundtrip_at (endian : ByteOrder) (v : Value) : Prop :=
  forall pre, exists out,
    writeValue endian pre v = Ok (pre ++ out) /\ reads_back endian pre v out.

(** A read from [buf] does not run out of fuel; when it returns a result the
    result satisfies [P] and the buffer has not grown; when it returns an
    error the error is not a [MessageTypeError]. *)
Definition post {A} (r : outcome (A * list byte)) (buf : list byte)
  (P : A -> Prop) : Prop :=
  match r with
  | Ok (x, buf') => P x /\ (List.length buf' <= List.length buf)%nat
  | Err e => isMessageTypeError e = false
  | Panic _ => True
  | OutOfFuel => False
  end.

(** The same for a read that takes at least one byte. *)
Definition consumes {A} (r : outcome (A * list byte)) (buf : list byte)
  (P : A -> Prop) : Prop :=
  match r with
  | Ok (x, buf') => P x /\ (List.length buf' < List.length buf)%nat
  | Err e => isMessageTypeError e = false
  | Panic _ => True
  | OutOfFuel => False
  end.

Definition supported_entries (m : gomap) : bool :=
  forallb (fun kv => let '(k, x) := kv in supported k && supported x) m.

(** The map a decoder builds from the pairs of a stream, taken in stream
    order, on top of the entries [acc] it already holds. *)
Definition mapstore_all (acc : gomap) (ps : list (Value * Value)) : gomap :=
  fold_left (fun a kv => mapstore a (fst kv) (snd kv)) ps acc.

(** The value of the last pair of [ps] whose key equals [k]. *)
Fixpoint last_write (ps : list (Value * Value)) (k : Value) : option Value :=
  match ps with
  | [] => None
  | (k', v) :: ps' =>
      match last_write ps' k with
      | Some v' => Some v'
      | None => if go_eq k' k then Some v else None
      end
  end.

(** A message holding a map of the pairs [ps] in this order: the map tag,
    the count, then each key followed by its value. *)
Definition writeMapStream (endian : ByteOrder) (ps : list (Value * Value))
  : outcome (list byte) :=
  buf <- WriteByte [] 13 ;;
  buf <- writeSize endian buf (len ps) ;;
  writePairs endian ps buf.

(** A value the round trip applies to. *)
Definition encodable (v : Value) : bool :=
  supported v && valid_maps v && sizes_ok v.

(** [v] wrapped in one list per entry of [shape], outermost first; an entry
    [true] puts a nil in front of the wrapped value inside that list. *)
Fixpoint nest (shape : list bool) (v : Value) : Value :=
  match shape with
  | [] => v
  | b :: shape' => VList ((if b then [VNil] else []) ++ [nest shape' v])
  end.

(** The type discriminator of a supported value (the constants
    [standardMessageType_null] to [standardMessageType_map]). *)
Definition typeTag (v : Value) : option Z :=
  match v with
  | VNil => Some 0
  | VBool true => Some 1
  | VBool false => Some 2
  | VInt32 _ => Some 3
  | VInt64 _ => Some 4
  | VBigInt _ => Some 5
  | VFloat64 _ => Some 6
  | VString _ => Some 7
  | VBytes _ => Some 8
  | VInt32Slice _ => Some 9
  | VInt64Slice _ => Some 10
  | VFloat64Slice _ => Some 11
  | VList _ => Some 12
  | VMap _ => Some 13
  | VOther _ => None
  end.

(** The type of the first value of an unsupported type in the order in which
    [writeValue] visits a value: list elements from first to last, and for
    each map entry the key before the value. *)
Fixpoint first_unsupported (v : Value) : option string :=
  match v with
  | VOther T => Some T
  | VList l =>
      (fix range (l : list Value) : option string :=
         match l with
         | [] => None
         | x :: l' =>
             match first_unsupported x with
             | Some T => Some T
             | None => range l'
             end
         end) l
  | VMap m =>
      (fix range (m : list (Value * Value)) : option string :=
         match m with
         | [] => None
         | (k, x) :: m' =>
             match first_unsupported k with
             | Some T => Some T
             | None =>
                 match first_unsupported x with
                 | Some T => Some T
                 | None => range m'
                 end
             end
         end) m
  | _ => None
  end.

(** The writer fails only on a value of an unsupported type, with the
    [MessageTypeError] of the first one it meets; otherwise it appends the
    tag of the value and the rest of its encoding to what was written. *)
Definition writes (endian : ByteOrder) (v : Value) : Prop :=
  forall pre,
    match first_unsupported v with
    | Some T =>
        writeValue endian pre v = Err (MessageTypeError (typeErrorMessage T))
    | None =>
        exists t out,
          typeTag v = Some t /\
          writeValue endian pre v = Ok (pre ++ z2b t :: out)
    end.

(** The padding [writeAlignment] appends to a buffer of [n] bytes. *)
Definition align_pad (n alignment : Z) : list byte :=
  if negb (Z.rem n alignment =? 0)
  then repeat x00 (Z.to_nat (alignment - Z.rem n alignment))
  else [].

(** No numeric slice inside the value is empty. *)
Fixpoint no_empty_slices (v : Value) : bool :=
  match v with
  | VInt32Slice l | VInt64Slice l | VFloat64Slice l =>
      match l with [] => false | _ => true end
  | VList l => forallb no_empty_slices l
  | VMap m =>
      forallb (fun kv => let '(k, x) := kv in
                         no_empty_slices k && no_empty_slices x) m
  | _ => true
  end.

(** Every proper beginning of [out], standing after the bytes [pre] at the
    end of a message, makes the reader return an error. *)
Definition truncated (endian : ByteOrder) (pre out : list byte) : Prop :=
  forall k fuel,
    (k < List.length out)%nat -> (k < fuel)%nat ->
    exists e,
      readValueAligned endian fuel (firstn k out) (len pre + Z.of_nat k) = Err e.

(** What is shown of a value written at any place of a message: it is
    written, read back in full, and refused when cut short. *)
Definition cut_safe (endian : ByteOrder) (v : Value) : Prop :=
  forall pre, exists out,
    writeValue endian pre v = Ok (pre ++ out) /\
    reads_back endian pre v out /\
    truncated endian pre out.

(** The entries of a valid Go map: hashable keys, no two of them equal,
    and valid maps inside keys and values. *)
Definition valid_entries (m : gomap) : bool :=
  forallb (fun kv => let '(k, x) := kv in
                     hashable k && valid_maps k && valid_maps x) m
  && distinct_keys (map fst m).

(** The bytes written for [v] are the same after any two beginnings whose
    lengths agree modulo 8. *)
Definition relocatable (endian : ByteOrder) (v : Value) : Prop :=
  forall pre1 pre2 out,
    len pre1 mod 8 = len pre2 mod 8 ->
    writeValue endian pre1 v = Ok (pre1 ++ out) ->
    writeValue endian pre2 v = Ok (pre2 ++ out).

(** One level of nesting around a value: a list holding it, after a nil or
    alone, or a map holding it as the value under the key nil, after an
    entry from true to nil or alone. *)
Inductive layer : Type :=
| InList (nil_before : bool)
| InMap (entry_before : bool).

(** [v] enclosed in the given levels, outermost first. *)
Fixpoint enclose (layers : list layer) (v : Value) : Value :=
  match layers with
  | [] => v
  | InList b :: layers' =>
      VList ((if b then [VNil] else []) ++ [enclose layers' v])
  | InMap b :: layers' =>
      VMap ((if b then [(VBool true, VNil)] else [])
            ++ [(VNil, enclose layers' v)])
  end.

(** * Properties *)

(** ** Bytes and fixed-width integers *)

Lemma b2z_range (b : byte) : 0 <= b2z b < 256.
Proof.
  unfold b2z. pose proof (Byte.to_N_bounded b). lia.
Qed.

Lemma z2b_b2z (b : byte) : z2b (b2z b) = b.
Proof.
  unfold z2b. rewrite Z.mod_small by apply b2z_range.
  unfold b2z. rewrite N2Z.id, Byte.of_to_N. reflexivity.
Qed.

Lemma b2z_z2b (z : Z) : b2z (z2b z) = z mod 256.
Proof.
  unfold z2b, b2z.
  assert (Hr : 0 <= z mod 256 < 256) by (apply Z.mod_pos_bound; lia).
  destruct (Byte.of_N (Z.to_N (z mod 256))) as [b|] eqn:E.
  - apply Byte.to_of_N in E. rewrite E. lia.
  - apply Byte.of_N_None_iff in E. lia.
Qed.

Lemma b2z_z2b_small (z : Z) : 0 <= z < 256 -> b2z (z2b z) = z.
Proof.
  intros H. rewrite b2z_z2b. apply Z.mod_small; exact H.
Qed.

Lemma len_app {A} (l1 l2 : list A) : len (l1 ++ l2) = len l1 + len l2.
Proof.
  unfold len. rewrite length_app. lia.
Qed.

Lemma len_nonneg {A} (l : list A) : 0 <= len l.
Proof.
  unfold len. lia.
Qed.

Lemma len_cons {A} (a : A) (l : list A) : len (a :: l) = 1 + len l.
Proof.
  unfold len. simpl List.length. lia.
Qed.

Lemma len_nil {A} : len (@nil A) = 0.
Proof.
  reflexivity.
Qed.

Ltac lens :=
  repeat (rewrite len_app || rewrite len_cons || rewrite len_nil).

Lemma length_put_le (n : nat) (v : Z) : List.length (put_le n v) = n.
Proof.
  revert v. induction n as [|n IH]; intros v; simpl; [reflexivity|].
  now rewrite IH.
Qed.

Lemma length_put_uint (o : ByteOrder) (n : nat) (v : Z) :
  List.length (put_uint o n v) = n.
Proof.
  destruct o; simpl; [|rewrite length_rev]; apply length_put_le.
Qed.

Lemma get_le_put_le (n : nat) (v : Z) :
  get_le (put_le n v) = v mod 2 ^ (8 * Z.of_nat n).
Proof.
  revert v. induction n as [|n IH]; intros v.
  - simpl. now rewrite Z.mod_1_r.
  - cbn [put_le get_le]. rewrite IH, b2z_z2b, Z.shiftr_div_pow2 by lia.
    replace (8 * Z.of_nat (S n)) with (8 + 8 * Z.of_nat n) by lia.
    rewrite Z.pow_add_r by lia. change (2 ^ 8) with 256.
    rewrite Z.rem_mul_r by lia. reflexivity.
Qed.

Lemma get_put_uint (o : ByteOrder) (n : nat) (v : Z) :
  get_uint o (put_uint o n v) = v mod 2 ^ (8 * Z.of_nat n).
Proof.
  destruct o; simpl; [|rewrite rev_involutive]; apply get_le_put_le.
Qed.

Lemma get_le_range (bs : list byte) :
  0 <= get_le bs < 2 ^ (8 * len bs).
Proof.
  induction bs as [|b bs IH].
  - simpl. unfold len. simpl. lia.
  - cbn [get_le]. rewrite len_cons.
    replace (8 * (1 + len bs)) with (8 + 8 * len bs) by lia.
    rewrite Z.pow_add_r by (pose proof (len_nonneg bs); lia).
    change (2 ^ 8) with 256. pose proof (b2z_range b). nia.
Qed.

Lemma get_uint_range (o : ByteOrder) (bs : list byte) :
  0 <= get_uint o bs < 2 ^ (8 * len bs).
Proof.
  destruct o; simpl.
  - apply get_le_range.
  - replace (len bs) with (len (rev bs)) by (unfold len; now rewrite length_rev).
    apply get_le_range.
Qed.

Lemma wrap_signed_id (bits v : Z) :
  0 < bits -> - 2 ^ (bits - 1) <= v < 2 ^ (bits - 1) -> wrap_signed bits v = v.
Proof.
  intros Hb Hv. unfold wrap_signed, to_signed.
  assert (E : 2 ^ bits = 2 * 2 ^ (bits - 1)).
  { replace bits with (Z.succ (bits - 1)) at 1 by lia.
    rewrite Z.pow_succ_r by lia. reflexivity. }
  assert (Hp : 0 < 2 ^ (bits - 1)) by (apply Z.pow_pos_nonneg; lia).
  destruct (Z_lt_le_dec v 0) as [Hneg|Hpos].
  - assert (Em : v mod 2 ^ bits = v + 2 ^ bits).
    { symmetry. apply Z.mod_unique with (q := -1); lia. }
    rewrite Em. destruct (Z.ltb_spec (v + 2 ^ bits) (2 ^ (bits - 1))); lia.
  - rewrite Z.mod_small by lia.
    destruct (Z.ltb_spec v (2 ^ (bits - 1))); lia.
Qed.

Lemma to_signed_range (bits u : Z) :
  0 < bits -> 0 <= u < 2 ^ bits ->
  - 2 ^ (bits - 1) <= to_signed bits u < 2 ^ (bits - 1).
Proof.
  intros Hb Hu. unfold to_signed.
  assert (E : 2 ^ bits = 2 * 2 ^ (bits - 1)).
  { replace bits with (Z.succ (bits - 1)) at 1 by lia.
    rewrite Z.pow_succ_r by lia. reflexivity. }
  destruct (Z.ltb_spec u (2 ^ (bits - 1))); lia.
Qed.

(** ** Buffer reads *)

Lemma ReadFull_app (n : Z) (bs rest : list byte) :
  n = len bs -> ReadFull n (bs ++ rest) = Ok (bs, rest).
Proof.
  intros ->. unfold ReadFull.
  destruct (Z.leb_spec (len bs) 0) as [H0|H0].
  - destruct bs; [reflexivity|]. rewrite len_cons in H0.
    pose proof (len_nonneg bs). lia.
  - rewrite len_app.
    destruct (Z.leb_spec (len bs) (len bs + len rest)) as [_|H1];
      [|pose proof (len_nonneg rest); lia].
    unfold len. rewrite Nat2Z.id, firstn_app, skipn_app, Nat.sub_diag.
    rewrite firstn_all, skipn_all. simpl. now rewrite app_nil_r.
Qed.

Lemma Next_app (n : Z) (bs rest : list byte) :
  n = len bs -> Next n (bs ++ rest) = Ok (bs, rest).
Proof.
  intros ->. unfold Next.
  destruct (Z.ltb_spec (len bs) 0) as [H|_]; [pose proof (len_nonneg bs); lia|].
  rewrite len_app, Z.min_l by (pose proof (len_nonneg rest); lia).
  unfold len. rewrite Nat2Z.id, firstn_app, skipn_app, Nat.sub_diag.
  rewrite firstn_all, skipn_all. simpl. now rewrite app_nil_r.
Qed.

(** ** The size codec *)

Section SizeCodec.
Variable endian : ByteOrder.

Lemma writeSize_app (buf : list byte) (n : Z) :
  0 <= n -> writeSize endian buf n = Ok (buf ++ size_enc endian n).
Proof.
  intros Hn. unfold size_enc, writeSize.
  destruct (Z.ltb_spec n 0); [lia|].
  destruct (n <? 254); [reflexivity|].
  destruct (n <=? 65535); cbn [bind WriteByte]; unfold writeInt16, writeInt32, Write;
    now rewrite <- app_assoc.
Qed.

Lemma size_enc_cases (n : Z) :
  0 <= n ->
  size_enc endian n =
    if n <? 254 then [z2b n]
    else if n <=? 65535 then z2b 254 :: put_uint endian 2 (int16 n)
    else z2b 255 :: put_uint endian 4 (int32 n).
Proof.
  intros Hn. unfold size_enc, writeSize.
  destruct (Z.ltb_spec n 0); [lia|].
  destruct (n <? 254); [reflexivity|].
  destruct (n <=? 65535); reflexivity.
Qed.

Lemma size_enc_length (n : Z) :
  0 <= n ->
  len (size_enc endian n) =
    if n <? 254 then 1 else if n <=? 65535 then 3 else 5.
Proof.
  intros Hn. rewrite size_enc_cases by exact Hn.
  destruct (n <? 254); [reflexivity|].
  destruct (n <=? 65535); rewrite len_cons; unfold len;
    rewrite length_put_uint; reflexivity.
Qed.

Lemma size_enc_nonempty (n : Z) : 0 <= n -> 1 <= len (size_enc endian n).
Proof.
  intros Hn. rewrite size_enc_length by exact Hn.
  destruct (n <? 254); [|destruct (n <=? 65535)]; lia.
Qed.

Lemma int16_range (v : Z) : - 2 ^ 15 <= int16 v < 2 ^ 15.
Proof.
  unfold int16, wrap_signed.
  apply (to_signed_range 16); [lia|]. apply Z.mod_pos_bound. lia.
Qed.

Lemma int32_range (v : Z) : - 2 ^ 31 <= int32 v < 2 ^ 31.
Proof.
  unfold int32, wrap_signed.
  apply (to_signed_range 32); [lia|]. apply Z.mod_pos_bound. lia.
Qed.

Lemma readInt16_put (v : Z) (rest : list byte) :
  - 2 ^ 15 <= v < 2 ^ 15 ->
  readInt16 endian (put_uint endian 2 v ++ rest) = Ok (v, rest).
Proof.
  intros Hv. unfold readInt16.
  rewrite ReadFull_app by (unfold len; now rewrite length_put_uint).
  cbn [bind]. rewrite get_put_uint.
  change (2 ^ (8 * Z.of_nat 2)) with (2 ^ 16).
  fold (wrap_signed 16 v). rewrite wrap_signed_id by (try lia; exact Hv).
  reflexivity.
Qed.

Lemma readInt32_put (v : Z) (rest : list byte) :
  - 2 ^ 31 <= v < 2 ^ 31 ->
  readInt32 endian (put_uint endian 4 v ++ rest) = Ok (v, rest).
Proof.
  intros Hv. unfold readInt32.
  rewrite ReadFull_app by (unfold len; now rewrite length_put_uint).
  cbn [bind]. rewrite get_put_uint.
  change (2 ^ (8 * Z.of_nat 4)) with (2 ^ 32).
  fold (wrap_signed 32 v). rewrite wrap_signed_id by (try lia; exact Hv).
  reflexivity.
Qed.

Lemma readInt64_put (v : Z) (rest : list byte) :
  - 2 ^ 63 <= v < 2 ^ 63 ->
  readInt64 endian (put_uint endian 8 v ++ rest) = Ok (v, rest).
Proof.
  intros Hv. unfold readInt64.
  rewrite ReadFull_app by (unfold len; now rewrite length_put_uint).
  cbn [bind]. rewrite get_put_uint.
  change (2 ^ (8 * Z.of_nat 8)) with (2 ^ 64).
  fold (wrap_signed 64 v). rewrite wrap_signed_id by (try lia; exact Hv).
  reflexivity.
Qed.

Lemma readFloat64_put (v : Z) (rest : list byte) :
  0 <= v < 2 ^ 64 ->
  readFloat64 endian (put_uint endian 8 v ++ rest) = Ok (v, rest).
Proof.
  intros Hv. unfold readFloat64.
  rewrite ReadFull_app by (unfold len; now rewrite length_put_uint).
  cbn [bind]. rewrite get_put_uint.
  change (2 ^ (8 * Z.of_nat 8)) with (2 ^ 64).
  rewrite Z.mod_small by exact Hv. reflexivity.
Qed.

(** What the size reader returns on the size writer's bytes, for every
    non-negative size. *)
Lemma readSize_size_enc (n : Z) (rest : list byte) :
  0 <= n ->
  readSize endian (size_enc endian n ++ rest) = Ok (size_read_back n, rest).
Proof.
  intros Hn. rewrite size_enc_cases by exact Hn. unfold size_read_back, readSize.
  destruct (Z.ltb_spec n 254) as [H1|H1].
  - cbn [app ReadByte bind]. rewrite b2z_z2b_small by lia.
    destruct (Z.ltb_spec n 254); [reflexivity|lia].
  - destruct (Z.leb_spec n 65535) as [H2|H2]; cbn [app ReadByte bind].
    + rewrite b2z_z2b_small by lia. cbn.
      apply readInt16_put, int16_range.
    + rewrite b2z_z2b_small by lia. cbn.
      apply readInt32_put, int32_range.
Qed.

Lemma size_read_back_ok (n : Z) : size_ok n = true -> size_read_back n = n.
Proof.
  unfold size_ok, size_read_back. intros H.
  destruct (Z.ltb_spec n 254) as [H1|H1]; [reflexivity|].
  destruct (Z.leb_spec n 65535) as [H2|H2].
  - apply (wrap_signed_id 16); lia.
  - apply (wrap_signed_id 32); lia.
Qed.

Lemma size_ok_nonneg (n : Z) : size_ok n = true -> 0 <= n.
Proof.
  unfold size_ok. lia.
Qed.

Lemma readSize_writeSize_ok (n : Z) (rest : list byte) :
  size_ok n = true ->
  readSize endian (size_enc endian n ++ rest) = Ok (n, rest).
Proof.
  intros H. rewrite readSize_size_enc by (apply size_ok_nonneg; exact H).
  now rewrite size_read_back_ok.
Qed.

(** Sizes from 2^15 to 2^16 - 1 come back negative: the two bytes are read
    as a signed 16-bit integer. *)
Lemma size_read_back_int16_gap (n : Z) :
  32768 <= n <= 65535 -> size_read_back n = n - 65536.
Proof.
  intros H. unfold size_read_back.
  destruct (Z.ltb_spec n 254); [lia|].
  destruct (Z.leb_spec n 65535); [|lia].
  unfold int16, wrap_signed, to_signed.
  rewrite Z.mod_small by lia.
  destruct (Z.ltb_spec n (2 ^ (16 - 1))); lia.
Qed.

End SizeCodec.

(** ** Alignment *)

Lemma skipn_len_app {A} (l1 l2 : list A) (n : Z) :
  n = len l1 -> skipn (Z.to_nat n) (l1 ++ l2) = l2.
Proof.
  intros ->. unfold len. rewrite Nat2Z.id, skipn_app, Nat.sub_diag, skipn_all.
  reflexivity.
Qed.

(** The padding the writer inserts at a position is exactly what the reader
    skips at the same position, counted from the start of the message. *)
Lemma alignment_roundtrip (pre : list byte) (a : Z) :
  0 < a ->
  exists pad,
    writeAlignment pre a = Ok (pre ++ pad) /\
    forall rest orig,
      orig = len pre + len pad + len rest ->
      readAlignment (pad ++ rest) orig a = rest.
Proof.
  intros Ha. unfold writeAlignment, readAlignment.
  pose proof (len_nonneg pre) as Hpre.
  pose proof (Z.rem_bound_pos (len pre) a Hpre Ha) as Hm.
  destruct (Z.eqb_spec (Z.rem (len pre) a) 0) as [E|E]; cbn [negb].
  - exists []. split; [now rewrite app_nil_r|].
    intros rest orig ->. cbn [app]. unfold len at 2. cbn [List.length].
    replace (len pre + Z.of_nat 0 + len rest - len rest) with (len pre) by lia.
    rewrite E. reflexivity.
  - exists (repeat x00 (Z.to_nat (a - Z.rem (len pre) a))). split; [reflexivity|].
    intros rest orig ->.
    set (pad := repeat x00 (Z.to_nat (a - Z.rem (len pre) a))).
    assert (Hpad : len pad = a - Z.rem (len pre) a).
    { unfold pad. unfold len at 1. rewrite repeat_length. lia. }
    rewrite len_app.
    replace (len pre + len pad + len rest - (len pad + len rest)) with (len pre) by lia.
    destruct (Z.eqb_spec (Z.rem (len pre) a) 0) as [E'|_]; [contradiction|].
    cbn [negb]. apply skipn_len_app.
    pose proof (len_nonneg rest). lia.
Qed.

(** ** Base-16 text of big integers *)

Lemma digitval_hexdigit (d : Z) :
  0 <= d < 16 -> digitval (hexdigit d) = Some d.
Proof.
  intros H.
  assert (C : d = 0 \/ d = 1 \/ d = 2 \/ d = 3 \/ d = 4 \/ d = 5 \/ d = 6 \/ d = 7
              \/ d = 8 \/ d = 9 \/ d = 10 \/ d = 11 \/ d = 12 \/ d = 13 \/ d = 14
              \/ d = 15) by lia.
  repeat (destruct C as [-> | C]; [reflexivity|]). subst d. reflexivity.
Qed.

Lemma hexdigit_not_sign (d : Z) :
  0 <= d < 16 ->
  Ascii.eqb (hexdigit d) "-" = false /\ Ascii.eqb (hexdigit d) "+" = false.
Proof.
  intros H.
  assert (C : d = 0 \/ d = 1 \/ d = 2 \/ d = 3 \/ d = 4 \/ d = 5 \/ d = 6 \/ d = 7
              \/ d = 8 \/ d = 9 \/ d = 10 \/ d = 11 \/ d = 12 \/ d = 13 \/ d = 14
              \/ d = 15) by lia.
  repeat (destruct C as [-> | C]; [split; reflexivity|]). subst d. split; reflexivity.
Qed.

Lemma scan_nat_text16 (fuel : nat) (n : Z) (acc : string) :
  0 <= n < 16 ^ Z.of_nat fuel ->
  scan_digits (nat_text16 fuel n acc) 0 = scan_digits acc n.
Proof.
  revert n acc. induction fuel as [|fuel IH]; intros n acc Hn.
  - simpl in Hn. assert (n = 0) by lia. subst n. reflexivity.
  - cbn [nat_text16].
    assert (Hd : 0 <= n mod 16 < 16) by (apply Z.mod_pos_bound; lia).
    pose proof (Z.div_mod n 16 ltac:(lia)) as Hdm.
    destruct (Z.eqb_spec (n / 16) 0) as [E|E].
    + cbn [scan_digits]. rewrite digitval_hexdigit by exact Hd.
      destruct (Z.ltb_spec (n mod 16) 16); [|lia].
      f_equal. lia.
    + rewrite IH.
      * cbn [scan_digits]. rewrite digitval_hexdigit by exact Hd.
        destruct (Z.ltb_spec (n mod 16) 16); [|lia].
        f_equal. lia.
      * split; [apply Z.div_pos; lia|].
        apply Z.div_lt_upper_bound; [lia|].
        rewrite Nat2Z.inj_succ, Z.pow_succ_r in Hn by lia. lia.
Qed.

Lemma nat_text16_head (fuel : nat) (n : Z) (acc : string) :
  exists d s, 0 <= d < 16 /\ nat_text16 (S fuel) n acc = String (hexdigit d) s.
Proof.
  revert n acc. induction fuel as [|fuel IH]; intros n acc.
  - exists (n mod 16), acc. split; [apply Z.mod_pos_bound; lia|].
    cbn [nat_text16]. destruct (n / 16 =? 0); reflexivity.
  - change (nat_text16 (S (S fuel)) n acc)
      with (if n / 16 =? 0 then String (hexdigit (n mod 16)) acc
            else nat_text16 (S fuel) (n / 16) (String (hexdigit (n mod 16)) acc)).
    destruct (n / 16 =? 0).
    + exists (n mod 16), acc. split; [apply Z.mod_pos_bound; lia|reflexivity].
    + apply IH.
Qed.

Lemma abs_text16_fuel (n : Z) :
  0 <= n -> 0 <= n < 16 ^ Z.of_nat (S (Z.to_nat (Z.log2 n))).
Proof.
  intros Hn. split; [exact Hn|].
  rewrite Nat2Z.inj_succ, Z2Nat.id by apply Z.log2_nonneg.
  destruct (Z.eq_dec n 0) as [->|Hnz].
  - reflexivity.
  - pose proof (Z.log2_spec n ltac:(lia)) as [_ Hlt].
    eapply Z.lt_le_trans; [exact Hlt|].
    apply Z.pow_le_mono_l. lia.
Qed.

Lemma scan_mantissa_abs_text16 (n : Z) :
  0 <= n -> scan_mantissa (abs_text16 n) = Some n.
Proof.
  intros Hn. unfold abs_text16.
  destruct (nat_text16_head (Z.to_nat (Z.log2 n)) n EmptyString) as (d & s & Hd & E).
  rewrite E.
  change (scan_mantissa (String (hexdigit d) s))
    with (scan_digits (String (hexdigit d) s) 0).
  rewrite <- E, scan_nat_text16 by (apply abs_text16_fuel; exact Hn).
  reflexivity.
Qed.

(** Parsing the base-16 text of an integer gives the integer back. *)
Lemma SetString16_Text16 (x : Z) : SetString16 (Text16 x) = Some x.
Proof.
  unfold Text16. destruct (Z.ltb_spec x 0) as [Hneg|Hpos].
  - cbn [SetString16]. change (Ascii.eqb "-" "-") with true. cbn match.
    rewrite scan_mantissa_abs_text16 by lia. cbn. f_equal. lia.
  - pose proof (scan_mantissa_abs_text16 x Hpos) as Hs.
    unfold abs_text16 in *.
    destruct (nat_text16_head (Z.to_nat (Z.log2 x)) x EmptyString) as (d & s & Hd & E).
    rewrite E in *. cbn [SetString16].
    destruct (hexdigit_not_sign d Hd) as [E1 E2]. rewrite E1, E2. exact Hs.
Qed.

(** ** Writing then reading one value *)

Section RoundTrip.
Variable endian : ByteOrder.

Lemma writeValue_VList (buf : list byte) (l : list Value) :
  writeValue endian buf (VList l) =
    (buf <- WriteByte buf 12 ;;
     buf <- writeSize endian buf (len l) ;;
     writeElems endian l buf).
Proof.
  cbn [writeValue bind WriteByte].
  destruct (writeSize endian (buf ++ [z2b 12]) (len l)) as [b| | |]; try reflexivity.
  cbn [bind]. revert b. induction l as [|x l IH]; intros b; [reflexivity|].
  cbn [writeElems]. destruct (writeValue endian b x); try reflexivity.
  cbn [bind]. apply IH.
Qed.

Lemma writeValue_VMap (buf : list byte) (m : list (Value * Value)) :
  writeValue endian buf (VMap m) =
    (buf <- WriteByte buf 13 ;;
     buf <- writeSize endian buf (len m) ;;
     writePairs endian m buf).
Proof.
  cbn [writeValue bind WriteByte].
  destruct (writeSize endian (buf ++ [z2b 13]) (len m)) as [b| | |]; try reflexivity.
  cbn [bind]. revert b. induction m as [|[k x] m IH]; intros b; [reflexivity|].
  cbn [writePairs]. destruct (writeValue endian b k) as [b1| | |]; try reflexivity.
  cbn [bind]. destruct (writeValue endian b1 x); try reflexivity.
  cbn [bind]. apply IH.
Qed.

(** Reading the tag byte the writer wrote. *)
Ltac read_tag :=
  cbn [readValueAligned app ReadByte wrapErr bind];
  rewrite b2z_z2b_small by lia; cbv beta iota.

Ltac need_fuel fuel H :=
  destruct fuel as [|fuel]; [cbn [List.length] in H; lia|].

Lemma roundtrip_VNil : roundtrip_at endian VNil.
Proof.
  intros pre. exists [z2b 0]. split; [reflexivity|].
  split; [cbn; lia|]. intros fuel rest orig _ Hf. need_fuel fuel Hf.
  read_tag. reflexivity.
Qed.

Lemma roundtrip_VBool (b : bool) : roundtrip_at endian (VBool b).
Proof.
  intros pre. destruct b.
  - exists [z2b 1]. split; [reflexivity|].
    split; [cbn; lia|]. intros fuel rest orig _ Hf. need_fuel fuel Hf.
    read_tag. reflexivity.
  - exists [z2b 2]. split; [reflexivity|].
    split; [cbn; lia|]. intros fuel rest orig _ Hf. need_fuel fuel Hf.
    read_tag. reflexivity.
Qed.

Lemma in_int32_spec (n : Z) : in_int32 n = true -> - 2 ^ 31 <= n < 2 ^ 31.
Proof. unfold in_int32. lia. Qed.

Lemma in_int64_spec (n : Z) : in_int64 n = true -> - 2 ^ 63 <= n < 2 ^ 63.
Proof. unfold in_int64. lia. Qed.

Lemma in_uint64_spec (n : Z) : in_uint64 n = true -> 0 <= n < 2 ^ 64.
Proof. unfold in_uint64. lia. Qed.

Lemma roundtrip_VInt32 (n : Z) :
  in_int32 n = true -> roundtrip_at endian (VInt32 n).
Proof.
  intros Hn pre. exists (z2b 3 :: put_uint endian 4 n). split.
  - cbn [writeValue WriteByte bind]. unfold writeInt32, Write.
    now rewrite <- app_assoc.
  - split; [cbn; lia|]. intros fuel rest orig _ Hf. need_fuel fuel Hf.
    read_tag. rewrite readInt32_put by (apply in_int32_spec; exact Hn).
    reflexivity.
Qed.

Lemma roundtrip_VInt64 (n : Z) :
  in_int64 n = true -> roundtrip_at endian (VInt64 n).
Proof.
  intros Hn pre. exists (z2b 4 :: put_uint endian 8 n). split.
  - cbn [writeValue WriteByte bind]. unfold writeInt64, Write.
    now rewrite <- app_assoc.
  - split; [cbn; lia|]. intros fuel rest orig _ Hf. need_fuel fuel Hf.
    read_tag. rewrite readInt64_put by (apply in_int64_spec; exact Hn).
    reflexivity.
Qed.

(** A double is read back wherever it stands in the message: the reader
    skips the writer's padding because both count from the message start. *)
Lemma roundtrip_VFloat64 (x : Z) :
  in_uint64 x = true -> roundtrip_at endian (VFloat64 x).
Proof.
  intros Hx pre.
  destruct (alignment_roundtrip (pre ++ [z2b 6]) 8 ltac:(lia)) as (pad & Hw & Hr).
  exists (z2b 6 :: pad ++ put_uint endian 8 x). split.
  - cbn [writeValue WriteByte bind]. rewrite Hw. cbn [bind].
    unfold writeFloat64, Write. now rewrite <- !app_assoc.
  - split; [cbn; lia|]. intros fuel rest orig Ho Hf. need_fuel fuel Hf.
    read_tag. rewrite <- app_assoc, Hr.
    + rewrite readFloat64_put by (apply in_uint64_spec; exact Hx). reflexivity.
    + rewrite Ho. lens. lia.
Qed.

Lemma readBytes_roundtrip (bs rest : list byte) :
  size_ok (len bs) = true ->
  readBytes endian (size_enc endian (len bs) ++ bs ++ rest) = Ok (bs, rest).
Proof.
  intros Hs. unfold readBytes.
  rewrite readSize_writeSize_ok by exact Hs. cbn [wrapErr bind].
  rewrite Next_app by reflexivity. cbn [bind].
  rewrite Z.eqb_refl. reflexivity.
Qed.

Lemma writeString_app (buf : list byte) (s : string) :
  writeString endian buf s =
    Ok (buf ++ size_enc endian (len (list_byte_of_string s))
            ++ list_byte_of_string s).
Proof.
  unfold writeString. rewrite writeSize_app by apply len_nonneg.
  cbn [bind]. unfold Write. now rewrite <- app_assoc.
Qed.

Lemma writeBytes_app (buf bs : list byte) :
  writeBytes endian buf bs = Ok (buf ++ size_enc endian (len bs) ++ bs).
Proof.
  unfold writeBytes. rewrite writeSize_app by apply len_nonneg.
  cbn [bind]. unfold Write. now rewrite <- app_assoc.
Qed.

Lemma roundtrip_VString (s : string) :
  size_ok (len (list_byte_of_string s)) = true ->
  roundtrip_at endian (VString s).
Proof.
  intros Hs pre.
  exists (z2b 7 :: size_enc endian (len (list_byte_of_string s))
               ++ list_byte_of_string s).
  split.
  - cbn [writeValue WriteByte bind]. rewrite writeString_app.
    now rewrite <- app_assoc.
  - split; [cbn; lia|]. intros fuel rest orig _ Hf. need_fuel fuel Hf.
    read_tag. rewrite <- app_assoc, readBytes_roundtrip by exact Hs.
    cbn [wrapErr bind]. now rewrite string_of_list_byte_of_string.
Qed.

Lemma roundtrip_VBigInt (n : Z) :
  size_ok (len (list_byte_of_string (Text16 n))) = true ->
  roundtrip_at endian (VBigInt n).
Proof.
  intros Hs pre.
  exists (z2b 5 :: size_enc endian (len (list_byte_of_string (Text16 n)))
               ++ list_byte_of_string (Text16 n)).
  split.
  - cbn [writeValue WriteByte bind]. rewrite writeString_app.
    now rewrite <- app_assoc.
  - split; [cbn; lia|]. intros fuel rest orig _ Hf. need_fuel fuel Hf.
    read_tag. rewrite <- app_assoc, readBytes_roundtrip by exact Hs.
    cbn [wrapErr bind].
    now rewrite string_of_list_byte_of_string, SetString16_Text16.
Qed.

Lemma roundtrip_VBytes (bs : list byte) :
  size_ok (len bs) = true -> roundtrip_at endian (VBytes bs).
Proof.
  intros Hs pre. exists (z2b 8 :: size_enc endian (len bs) ++ bs). split.
  - cbn [writeValue WriteByte bind]. rewrite writeBytes_app.
    now rewrite <- app_assoc.
  - split; [cbn; lia|]. intros fuel rest orig _ Hf. need_fuel fuel Hf.
    read_tag. rewrite <- app_assoc, readBytes_roundtrip by exact Hs.
    reflexivity.
Qed.

(** *** Numeric slices *)

Lemma len_concat_put (w : nat) (l : list Z) :
  len (List.concat (map (put_uint endian w) l)) = Z.of_nat w * len l.
Proof.
  induction l as [|x l IH]; [cbn; lia|].
  cbn [map List.concat]. lens. rewrite IH. unfold len at 1.
  rewrite length_put_uint. lia.
Qed.

Lemma slice_elems_put (dec : list byte -> Z) (w : nat) (l : list Z) :
  Forall (fun x => dec (put_uint endian w x) = x) l ->
  slice_elems dec w (List.length l) (List.concat (map (put_uint endian w) l)) = l.
Proof.
  induction 1 as [|x l Hx _ IH]; [reflexivity|].
  cbn [List.length slice_elems map List.concat].
  rewrite firstn_app, skipn_app, length_put_uint, Nat.sub_diag.
  rewrite firstn_all2, skipn_all2 by (rewrite length_put_uint; lia).
  cbn [firstn skipn app]. rewrite app_nil_r, Hx, IH. reflexivity.
Qed.

Lemma readSlice_put (dec : list byte -> Z) (w : nat) (l : list Z)
  (rest : list byte) :
  Forall (fun x => dec (put_uint endian w x) = x) l ->
  readSlice dec w (len l) (List.concat (map (put_uint endian w) l) ++ rest)
  = Ok (l, rest).
Proof.
  intros Hl. unfold readSlice.
  destruct (Z.ltb_spec (len l) 0); [pose proof (len_nonneg l); lia|].
  rewrite ReadFull_app by (now rewrite len_concat_put).
  cbn [bind]. unfold len. rewrite Nat2Z.id, slice_elems_put by exact Hl.
  reflexivity.
Qed.

Lemma dec_int32_put (x : Z) :
  in_int32 x = true -> to_signed 32 (get_uint endian (put_uint endian 4 x)) = x.
Proof.
  intros H. rewrite get_put_uint. change (2 ^ (8 * Z.of_nat 4)) with (2 ^ 32).
  apply (wrap_signed_id 32); [lia|]. apply in_int32_spec, H.
Qed.

Lemma dec_int64_put (x : Z) :
  in_int64 x = true -> to_signed 64 (get_uint endian (put_uint endian 8 x)) = x.
Proof.
  intros H. rewrite get_put_uint. change (2 ^ (8 * Z.of_nat 8)) with (2 ^ 64).
  apply (wrap_signed_id 64); [lia|]. apply in_int64_spec, H.
Qed.

Lemma dec_uint64_put (x : Z) :
  in_uint64 x = true -> get_uint endian (put_uint endian 8 x) = x.
Proof.
  intros H. rewrite get_put_uint. change (2 ^ (8 * Z.of_nat 8)) with (2 ^ 64).
  apply Z.mod_small, in_uint64_spec, H.
Qed.

Lemma forallb_Forall_impl {A} (p : A -> bool) (Q : A -> Prop) (l : list A) :
  (forall x, p x = true -> Q x) -> forallb p l = true -> Forall Q l.
Proof.
  intros H Hl. apply Forall_forall. intros x Hx.
  apply H. rewrite forallb_forall in Hl. now apply Hl.
Qed.

(** The shape shared by the three slice cases: tag, element count,
    padding to the element width, elements. *)
Lemma slice_out (pre : list byte) (tag a : Z) (w : nat) (l : list Z) :
  0 < a ->
  exists out,
    (buf <- WriteByte pre tag ;;
     buf <- writeSize endian buf (len l) ;;
     buf <- writeAlignment buf a ;;
     binaryWriteSlice endian buf w l) = Ok (pre ++ z2b tag :: out) /\
    forall dec rest orig B (k : list Z * list byte -> outcome B),
      size_ok (len l) = true ->
      Forall (fun x => dec (put_uint endian w x) = x) l ->
      orig = len pre + (1 + len out) + len rest ->
      ('(length, buf) <- readSize endian (out ++ rest) ;;
       let buf := readAlignment buf orig a in
       x <- readSlice dec w length buf ;; k x) = k (l, rest).
Proof.
  intros Ha.
  destruct (alignment_roundtrip ((pre ++ [z2b tag]) ++ size_enc endian (len l)) a Ha)
    as (pad & Hw & Hr).
  exists (size_enc endian (len l) ++ pad
          ++ List.concat (map (put_uint endian w) l)).
  split.
  - cbn [WriteByte bind]. rewrite writeSize_app by apply len_nonneg.
    cbn [bind]. rewrite Hw. cbn [bind]. unfold binaryWriteSlice, Write.
    now rewrite <- !app_assoc.
  - intros dec rest orig B k Hs Hl Ho.
    rewrite <- app_assoc, readSize_writeSize_ok by exact Hs.
    cbn [bind]. cbv zeta. rewrite <- app_assoc, Hr.
    + now rewrite readSlice_put by exact Hl.
    + rewrite Ho. lens. lia.
Qed.

Lemma roundtrip_VInt32Slice (l : list Z) :
  forallb in_int32 l = true -> size_ok (len l) = true ->
  roundtrip_at endian (VInt32Slice l).
Proof.
  intros Hl Hs pre.
  destruct (slice_out pre 9 4 4 l ltac:(lia)) as (out & Hw & Hr).
  exists (z2b 9 :: out). split; [exact Hw|].
  split; [cbn; lia|]. intros fuel rest orig Ho Hf. need_fuel fuel Hf.
  read_tag.
  apply (Hr (fun bs => to_signed 32 (get_uint endian bs)) rest orig _
            (fun x => let '(value, buf) := x in Ok (VInt32Slice value, buf)) Hs).
  - apply (forallb_Forall_impl in_int32); [apply dec_int32_put|exact Hl].
  - rewrite Ho. lens. lia.
Qed.

Lemma roundtrip_VInt64Slice (l : list Z) :
  forallb in_int64 l = true -> size_ok (len l) = true ->
  roundtrip_at endian (VInt64Slice l).
Proof.
  intros Hl Hs pre.
  destruct (slice_out pre 10 8 8 l ltac:(lia)) as (out & Hw & Hr).
  exists (z2b 10 :: out). split; [exact Hw|].
  split; [cbn; lia|]. intros fuel rest orig Ho Hf. need_fuel fuel Hf.
  read_tag.
  apply (Hr (fun bs => to_signed 64 (get_uint endian bs)) rest orig _
            (fun x => let '(value, buf) := x in Ok (VInt64Slice value, buf)) Hs).
  - apply (forallb_Forall_impl in_int64); [apply dec_int64_put|exact Hl].
  - rewrite Ho. lens. lia.
Qed.

Lemma roundtrip_VFloat64Slice (l : list Z) :
  forallb in_uint64 l = true -> size_ok (len l) = true ->
  roundtrip_at endian (VFloat64Slice l).
Proof.
  intros Hl Hs pre.
  destruct (slice_out pre 11 8 8 l ltac:(lia)) as (out & Hw & Hr).
  exists (z2b 11 :: out). split; [exact Hw|].
  split; [cbn; lia|]. intros fuel rest orig Ho Hf. need_fuel fuel Hf.
  read_tag.
  apply (Hr (get_uint endian) rest orig _
            (fun x => let '(value, buf) := x in Ok (VFloat64Slice value, buf)) Hs).
  - apply (forallb_Forall_impl in_uint64); [apply dec_uint64_put|exact Hl].
  - rewrite Ho. lens. lia.
Qed.

(** *** Lists and maps *)

Lemma elems_roundtrip (l : list Value) :
  Forall (roundtrip_at endian) l ->
  forall pre, exists out,
    writeElems endian l pre = Ok (pre ++ out) /\
    (List.length l <= List.length out)%nat /\
    forall f1 f2 rest orig i n acc,
      orig = len pre + len out + len rest ->
      (List.length out <= f1)%nat ->
      (List.length l <= f2)%nat ->
      n = i + len l ->
      readListLoop (fun b => readValueAligned endian f1 b orig) f2 i n
        (out ++ rest) acc
      = Ok (acc ++ l, rest).
Proof.
  induction 1 as [|x l Hx _ IH]; intros pre.
  - exists []. split; [cbn; now rewrite app_nil_r|]. split; [cbn; lia|].
    intros f1 f2 rest orig i n acc _ _ _ ->. rewrite len_nil.
    destruct f2; cbn [readListLoop];
      (destruct (Z.ltb_spec i (i + 0)); [lia|]); now rewrite app_nil_r.
  - destruct (Hx pre) as (ox & Hwx & Hlx & Hrx).
    destruct (IH (pre ++ ox)) as (ol & Hwl & Hll & Hrl).
    exists (ox ++ ol). split; [|split].
    + cbn [writeElems]. rewrite Hwx. cbn [bind]. rewrite Hwl.
      now rewrite <- app_assoc.
    + rewrite length_app. cbn [List.length]. lia.
    + intros f1 f2 rest orig i n acc Ho Hf1 Hf2 ->.
      rewrite length_app in Hf1. cbn [List.length] in Hf2.
      destruct f2 as [|f2]; [lia|]. cbn [readListLoop].
      rewrite len_cons.
      destruct (Z.ltb_spec i (i + (1 + len l)));
        [|pose proof (len_nonneg l); lia].
      rewrite <- app_assoc, Hrx; [|rewrite Ho; lens; lia|lia].
      cbn [bind]. rewrite (Hrl f1 f2 rest orig (i + 1) _ (acc ++ [x]));
        [now rewrite <- app_assoc|rewrite Ho; lens; lia|lia|lia|lia].
Qed.

Lemma mapstore_distinct (acc : gomap) (k x : Value) (m : gomap) :
  distinct_keys (map fst (acc ++ (k, x) :: m)) = true ->
  mapstore acc k x = acc ++ [(k, x)].
Proof.
  induction acc as [|[k' v'] acc IH]; intros H; [reflexivity|].
  cbn [app map fst distinct_keys] in H.
  apply andb_true_iff in H as [Hk Hd].
  cbn [mapstore app]. rewrite forallb_forall in Hk.
  assert (Hin : In k (map fst (acc ++ (k, x) :: m))).
  { rewrite map_app, in_app_iff. right. now left. }
  apply Hk in Hin. apply negb_true_iff in Hin. rewrite Hin.
  now rewrite IH.
Qed.

Lemma pairs_roundtrip (m : list (Value * Value)) :
  Forall (fun kv => roundtrip_at endian (fst kv) /\ roundtrip_at endian (snd kv)) m ->
  forallb (fun kv => hashable (fst kv)) m = true ->
  forall pre, exists out,
    writePairs endian m pre = Ok (pre ++ out) /\
    (List.length m <= List.length out)%nat /\
    forall f1 f2 rest orig i n acc,
      orig = len pre + len out + len rest ->
      (List.length out <= f1)%nat ->
      (List.length m <= f2)%nat ->
      n = i + len m ->
      readMapLoop (fun b => readValueAligned endian f1 b orig) f2 i n
        (out ++ rest) acc
      = Ok (mapstore_all acc m, rest).
Proof.
  induction 1 as [|[k x] m [Hk Hx] _ IH]; intros Hh pre.
  - exists []. split; [cbn; now rewrite app_nil_r|]. split; [cbn; lia|].
    intros f1 f2 rest orig i n acc _ _ _ ->. rewrite len_nil.
    destruct f2; cbn [readMapLoop];
      (destruct (Z.ltb_spec i (i + 0)); [lia|]); reflexivity.
  - cbn [forallb fst] in Hh. apply andb_true_iff in Hh as [Hhk Hh].
    cbn [fst snd] in Hk, Hx.
    destruct (Hk pre) as (ok & Hwk & Hlk & Hrk).
    destruct (Hx (pre ++ ok)) as (ox & Hwx & Hlx & Hrx).
    destruct (IH Hh ((pre ++ ok) ++ ox)) as (om & Hwm & Hlm & Hrm).
    exists (ok ++ ox ++ om). split; [|split].
    + cbn [writePairs]. rewrite Hwk. cbn [bind]. rewrite Hwx. cbn [bind].
      rewrite Hwm. now rewrite <- !app_assoc.
    + rewrite !length_app. cbn [List.length]. lia.
    + intros f1 f2 rest orig i n acc Ho Hf1 Hf2 ->.
      rewrite !length_app in Hf1. cbn [List.length] in Hf2.
      destruct f2 as [|f2]; [lia|]. cbn [readMapLoop].
      rewrite len_cons.
      destruct (Z.ltb_spec i (i + (1 + len m)));
        [|pose proof (len_nonneg m); lia].
      rewrite <- app_assoc, Hrk; [|rewrite Ho; lens; lia|lia].
      cbn [bind]. rewrite <- app_assoc, Hrx; [|rewrite Ho; lens; lia|lia].
      cbn [bind]. unfold mapassign. rewrite Hhk. cbn [bind].
      rewrite (Hrm f1 f2 rest orig (i + 1) _ (mapstore acc k x));
        [reflexivity|rewrite Ho; lens; lia|lia|lia|lia].
Qed.

Lemma mapstore_all_distinct (m acc : gomap) :
  distinct_keys (map fst (acc ++ m)) = true -> mapstore_all acc m = acc ++ m.
Proof.
  revert acc. induction m as [|[k x] m IH]; intros acc Hd.
  - cbn. now rewrite app_nil_r.
  - cbn [mapstore_all fold_left fst snd].
    rewrite (mapstore_distinct acc k x m Hd).
    fold (mapstore_all (acc ++ [(k, x)]) m).
    rewrite IH; now rewrite <- app_assoc.
Qed.

(** The round trip at any position of a message: a supported value whose
    maps are valid Go maps and whose lengths the size field carries is
    written without error, and the reader, placed where the writer stood,
    returns it and stops where the writer stopped. *)
Lemma roundtrip_value (v : Value) :
  supported v = true -> valid_maps v = true -> sizes_ok v = true ->
  roundtrip_at endian v.
Proof.
  induction v as [ | b | n | n | n | x | s | bs | l | l | l | l IH | m IH | T ]
    using Value_nested_ind; cbn [supported valid_maps sizes_ok];
    intros Hsup Hmaps Hsz.
  - apply roundtrip_VNil.
  - apply roundtrip_VBool.
  - now apply roundtrip_VInt32.
  - now apply roundtrip_VInt64.
  - now apply roundtrip_VBigInt.
  - now apply roundtrip_VFloat64.
  - now apply roundtrip_VString.
  - now apply roundtrip_VBytes.
  - now apply roundtrip_VInt32Slice.
  - now apply roundtrip_VInt64Slice.
  - now apply roundtrip_VFloat64Slice.
  - apply andb_true_iff in Hsz as [Hn Hsz].
    assert (Hall : Forall (roundtrip_at endian) l).
    { rewrite Forall_forall in IH. apply Forall_forall. intros x Hx.
      rewrite forallb_forall in Hsup, Hmaps, Hsz. apply IH; auto. }
    intros pre.
    destruct (elems_roundtrip l Hall ((pre ++ [z2b 12]) ++ size_enc endian (len l)))
      as (out & Hw & Hl & Hr).
    exists (z2b 12 :: size_enc endian (len l) ++ out). split; [|split].
    + rewrite writeValue_VList. cbn [WriteByte bind].
      rewrite writeSize_app by apply len_nonneg. cbn [bind]. rewrite Hw.
      now rewrite <- !app_assoc.
    + cbn; lia.
    + intros fuel rest orig Ho Hf. need_fuel fuel Hf. read_tag.
      rewrite <- app_assoc, readSize_writeSize_ok by exact Hn.
      cbn [bind].
      destruct (Z.ltb_spec (len l) 0); [pose proof (len_nonneg l); lia|].
      cbn [List.length] in Hf. rewrite length_app in Hf.
      rewrite (Hr fuel fuel rest orig 0 (len l) []);
        [reflexivity|rewrite Ho; lens; lia|lia|lia|lia].
  - apply andb_true_iff in Hsz as [Hn Hsz].
    apply andb_true_iff in Hmaps as [Hmaps Hd].
    assert (Hall : Forall (fun kv => roundtrip_at endian (fst kv)
                                     /\ roundtrip_at endian (snd kv)) m).
    { rewrite Forall_forall in IH. apply Forall_forall. intros [k x] Hx.
      rewrite forallb_forall in Hsup, Hmaps, Hsz.
      specialize (IH _ Hx). specialize (Hsup _ Hx). specialize (Hmaps _ Hx).
      specialize (Hsz _ Hx). cbn [fst snd] in *.
      apply andb_true_iff in Hsup as [? ?].
      apply andb_true_iff in Hmaps as [Hm1 ?].
      apply andb_true_iff in Hm1 as [? ?].
      apply andb_true_iff in Hsz as [? ?].
      destruct IH as [IHk IHx]. split; auto. }
    assert (Hh : forallb (fun kv => hashable (fst kv)) m = true).
    { apply forallb_forall. intros [k x] Hx.
      rewrite forallb_forall in Hmaps. specialize (Hmaps _ Hx). cbn in *.
      apply andb_true_iff in Hmaps as [Hm1 _].
      now apply andb_true_iff in Hm1 as [? _]. }
    intros pre.
    destruct (pairs_roundtrip m Hall Hh ((pre ++ [z2b 13]) ++ size_enc endian (len m)))
      as (out & Hw & Hl & Hr).
    exists (z2b 13 :: size_enc endian (len m) ++ out). split; [|split].
    + rewrite writeValue_VMap. cbn [WriteByte bind].
      rewrite writeSize_app by apply len_nonneg. cbn [bind]. rewrite Hw.
      now rewrite <- !app_assoc.
    + cbn; lia.
    + intros fuel rest orig Ho Hf. need_fuel fuel Hf. read_tag.
      rewrite <- app_assoc, readSize_writeSize_ok by exact Hn.
      cbn [bind].
      cbn [List.length] in Hf. rewrite length_app in Hf.
      rewrite (Hr fuel fuel rest orig 0 (len m) []);
        [|rewrite Ho; lens; lia|lia|lia|lia].
      now rewrite (mapstore_all_distinct m [] Hd).
  - discriminate.
Qed.

End RoundTrip.

(** ** What the reader returns on arbitrary bytes *)

Lemma tag_cases (z : Z) :
  0 <= z ->
  z = 0 \/ z = 1 \/ z = 2 \/ z = 3 \/ z = 4 \/ z = 5 \/ z = 6 \/ z = 7 \/ z = 8
  \/ z = 9 \/ z = 10 \/ z = 11 \/ z = 12 \/ z = 13
  \/ (13 < z /\
      forall (A : Type) (a0 a1 a2 a3 a4 a5 a6 a7 a8 a9 a10 a11 a12 a13 d : A),
        match z with
        | 0 => a0 | 1 => a1 | 2 => a2 | 3 => a3 | 4 => a4 | 6 => a6 | 5 => a5
        | 7 => a7 | 8 => a8 | 9 => a9 | 10 => a10 | 11 => a11 | 12 => a12
        | 13 => a13 | _ => d
        end = d).
Proof.
  intros Hz.
  destruct (Z_le_gt_dec z 13) as [H|H]; [lia|].
  do 14 right. split; [lia|]. intros.
  destruct z as [|p|p]; [lia| |lia].
  repeat (destruct p as [p|p|]; try lia; try reflexivity).
Qed.

Lemma post_bind {A B} (m : outcome (A * list byte))
  (k : A * list byte -> outcome (B * list byte)) (buf : list byte)
  (P : A -> Prop) (Q : B -> Prop) :
  post m buf P ->
  (forall x buf', P x -> (List.length buf' <= List.length buf)%nat ->
                  post (k (x, buf')) buf' Q) ->
  post (bind m k) buf Q.
Proof.
  intros Hm Hk. destruct m as [[x buf']| | |]; cbn in *; auto.
  destruct Hm as [HP Hl]. specialize (Hk x buf' HP Hl).
  destruct (k (x, buf')) as [[y buf'']| | |]; cbn in *; auto.
  destruct Hk. split; [assumption|lia].
Qed.

Lemma post_wrapErr {A} (m : outcome (A * list byte)) (msg : string)
  (buf : list byte) (P : A -> Prop) :
  post m buf P -> post (wrapErr m msg) buf P.
Proof.
  destruct m as [[x b]| | |]; cbn; auto.
Qed.

Lemma post_weaken {A} (m : outcome (A * list byte)) (buf buf0 : list byte)
  (P : A -> Prop) :
  post m buf P -> (List.length buf <= List.length buf0)%nat -> post m buf0 P.
Proof.
  destruct m as [[x b]| | |]; cbn; auto. intros [? ?] ?. split; [assumption|lia].
Qed.

Lemma post_ReadFull (n : Z) (buf : list byte) :
  post (ReadFull n buf) buf (fun bs => len bs <= Z.max 0 n).
Proof.
  unfold ReadFull. destruct (Z.leb_spec n 0).
  - cbn. unfold len. cbn. lia.
  - destruct (Z.leb_spec n (len buf)).
    + cbn. unfold len in *. rewrite length_firstn, length_skipn. lia.
    + destruct buf; cbn; auto.
Qed.

Lemma post_Next (n : Z) (buf : list byte) :
  post (Next n buf) buf (fun _ => True).
Proof.
  unfold Next. destruct (n <? 0); cbn; [auto|].
  rewrite length_skipn. split; [auto|lia].
Qed.

Lemma readAlignment_length (buf : list byte) (orig a : Z) :
  (List.length (readAlignment buf orig a) <= List.length buf)%nat.
Proof.
  unfold readAlignment. destruct (negb _); [rewrite length_skipn|]; lia.
Qed.

Section ReaderInvariant.
Variable endian : ByteOrder.

Lemma post_readInt (bits : Z) (n : Z) (buf : list byte) :
  0 < bits -> 0 < n -> 8 * n = bits ->
  post ('(bs, buf) <- ReadFull n buf ;;
        Ok (to_signed bits (get_uint endian bs), buf)) buf
    (fun v => - 2 ^ (bits - 1) <= v < 2 ^ (bits - 1)).
Proof.
  intros Hb Hn Hbits. eapply post_bind; [apply post_ReadFull|].
  intros bs buf' Hbs Hl. cbv beta in Hbs. cbn. split; [|lia].
  apply to_signed_range; [exact Hb|].
  pose proof (get_uint_range endian bs) as Hr.
  pose proof (len_nonneg bs).
  assert (2 ^ (8 * len bs) <= 2 ^ bits) by (apply Z.pow_le_mono_r; lia).
  lia.
Qed.

Lemma post_readInt16 (buf : list byte) :
  post (readInt16 endian buf) buf (fun _ => True).
Proof.
  eapply post_bind; [apply post_ReadFull|]. intros; cbn. split; [auto|lia].
Qed.

Lemma post_readInt32 (buf : list byte) :
  post (readInt32 endian buf) buf (fun v => in_int32 v = true).
Proof.
  pose proof (post_readInt 32 4 buf ltac:(lia) ltac:(lia) ltac:(lia)) as H.
  unfold readInt32. destruct (bind _ _) as [[v b]| | |]; cbn in *; auto.
  unfold in_int32. change (2 ^ (32 - 1)) with (2 ^ 31) in H. lia.
Qed.

Lemma post_readInt64 (buf : list byte) :
  post (readInt64 endian buf) buf (fun v => in_int64 v = true).
Proof.
  pose proof (post_readInt 64 8 buf ltac:(lia) ltac:(lia) ltac:(lia)) as H.
  unfold readInt64. destruct (bind _ _) as [[v b]| | |]; cbn in *; auto.
  unfold in_int64. change (2 ^ (64 - 1)) with (2 ^ 63) in H. lia.
Qed.

Lemma get_uint_in_uint64 (bs : list byte) :
  len bs <= 8 -> in_uint64 (get_uint endian bs) = true.
Proof.
  intros H. pose proof (get_uint_range endian bs) as Hr.
  pose proof (len_nonneg bs).
  assert (2 ^ (8 * len bs) <= 2 ^ 64) by (apply Z.pow_le_mono_r; lia).
  unfold in_uint64. lia.
Qed.

Lemma post_readFloat64 (buf : list byte) :
  post (readFloat64 endian buf) buf (fun v => in_uint64 v = true).
Proof.
  eapply post_bind; [apply post_ReadFull|]. intros bs buf' Hbs Hl.
  cbv beta in Hbs. cbn. split; [|lia]. apply get_uint_in_uint64. lia.
Qed.

Lemma post_readSize (buf : list byte) :
  post (readSize endian buf) buf (fun _ => True).
Proof.
  unfold readSize. destruct buf as [|b buf]; cbn [ReadByte bind]; [(cbn; auto)|].
  destruct (b2z b <? 254); [cbn; split; [auto|lia]|].
  destruct (b2z b =? 254).
  - eapply post_weaken; [apply post_readInt16|cbn; lia].
  - eapply post_weaken;
      [|instantiate (1 := buf); cbn; lia].
    pose proof (post_readInt32 buf) as H.
    destruct (readInt32 endian buf) as [[v b']| | |]; cbn in *; auto.
    split; [auto|lia].
Qed.

Lemma post_readBytes (buf : list byte) :
  post (readBytes endian buf) buf (fun _ => True).
Proof.
  unfold readBytes.
  eapply post_bind; [apply post_wrapErr, post_readSize|].
  intros n buf1 _ _. eapply post_bind; [apply post_Next|].
  intros bs buf2 _ _. destruct (negb _); cbn; auto.
Qed.

Lemma slice_elems_Forall (dec : list byte -> Z) (w n : nat) (bs : list byte)
  (P : Z -> Prop) :
  (forall chunk, len chunk <= Z.of_nat w -> P (dec chunk)) ->
  Forall P (slice_elems dec w n bs).
Proof.
  intros Hdec. revert bs. induction n as [|n IH]; intros bs; cbn [slice_elems].
  - constructor.
  - constructor; [|apply IH]. apply Hdec. unfold len.
    rewrite length_firstn. lia.
Qed.

Lemma post_readSlice (dec : list byte -> Z) (w : nat) (length : Z)
  (buf : list byte) (p : Z -> bool) :
  (forall chunk, len chunk <= Z.of_nat w -> p (dec chunk) = true) ->
  post (readSlice dec w length buf) buf (fun l => forallb p l = true).
Proof.
  intros Hdec. unfold readSlice. destruct (length <? 0); [(cbn; auto)|].
  eapply post_bind; [apply post_ReadFull|]. intros bs buf' _ Hl. cbn.
  split; [|lia]. apply forallb_forall. apply Forall_forall.
  apply slice_elems_Forall. exact Hdec.
Qed.

Lemma post_consumes {A} (r : outcome (A * list byte)) (b : byte)
  (buf : list byte) (P : A -> Prop) :
  post r buf P -> consumes r (b :: buf) P.
Proof.
  destruct r as [[x buf']| | |]; cbn; auto. intros [? ?]. split; [assumption|lia].
Qed.

Lemma post_readListLoop (read : list byte -> outcome (Value * list byte))
  (f : nat) :
  (forall b, (List.length b < f)%nat ->
             consumes (read b) b (fun v => supported v = true)) ->
  forall g i n buf acc,
    (List.length buf < f)%nat -> (List.length buf < g)%nat ->
    forallb supported acc = true ->
    post (readListLoop read g i n buf acc) buf
      (fun l => forallb supported l = true).
Proof.
  intros Hread. induction g as [|g IH]; intros i n buf acc Hf Hg Hacc; [lia|].
  cbn [readListLoop]. destruct (i <? n); [|cbn; split; [assumption|lia]].
  specialize (Hread buf Hf).
  destruct (read buf) as [[v b']| | |]; cbn [bind] in *; auto.
  cbn in Hread. destruct Hread as [Hv Hl].
  eapply post_weaken; [apply IH|]; try lia.
  rewrite forallb_app. cbn. now rewrite Hacc, Hv.
Qed.

Lemma mapstore_supported (m : gomap) (k v : Value) :
  supported_entries m = true -> supported k = true -> supported v = true ->
  supported_entries (mapstore m k v) = true.
Proof.
  unfold supported_entries. intros Hm Hk Hv.
  induction m as [|[k' v'] m IH]; cbn [mapstore forallb] in *.
  - now rewrite Hk, Hv.
  - apply andb_true_iff in Hm as [H1 H2].
    destruct (go_eq k' k); cbn [forallb].
    + now rewrite Hk, Hv, H2.
    + now rewrite H1, IH.
Qed.

Lemma post_readMapLoop (read : list byte -> outcome (Value * list byte))
  (f : nat) :
  (forall b, (List.length b < f)%nat ->
             consumes (read b) b (fun v => supported v = true)) ->
  forall g i n buf acc,
    (List.length buf < f)%nat -> (List.length buf < g)%nat ->
    supported_entries acc = true ->
    post (readMapLoop read g i n buf acc) buf
      (fun m => supported_entries m = true).
Proof.
  intros Hread. induction g as [|g IH]; intros i n buf acc Hf Hg Hacc; [lia|].
  cbn [readMapLoop]. destruct (i <? n); [|cbn; split; [assumption|lia]].
  pose proof (Hread buf Hf) as Hk.
  destruct (read buf) as [[k b1]| | |]; cbn [bind] in *; auto.
  cbn in Hk. destruct Hk as [Hk Hl1].
  pose proof (Hread b1 ltac:(lia)) as Hv.
  destruct (read b1) as [[v b2]| | |]; cbn [bind] in *; auto.
  cbn in Hv. destruct Hv as [Hv Hl2].
  unfold mapassign. destruct (hashable k); cbn [bind]; [|(cbn; auto)].
  eapply post_weaken; [apply IH|]; try lia.
  now apply mapstore_supported.
Qed.

(** With more fuel than bytes the reader never stops for lack of fuel;
    what it returns is a supported value, and it has taken at least one
    byte. *)
Lemma readValueAligned_consumes (fuel : nat) :
  forall buf orig,
    (List.length buf < fuel)%nat ->
    consumes (readValueAligned endian fuel buf orig) buf
      (fun v => supported v = true).
Proof.
  induction fuel as [|f IH]; intros buf orig Hf; [lia|].
  destruct buf as [|b buf]; [(cbn; auto)|].
  cbn [List.length] in Hf.
  cbn [readValueAligned ReadByte wrapErr bind].
  apply post_consumes.
  pose proof (b2z_range b) as Hb.
  destruct (tag_cases (b2z b) ltac:(lia))
    as [E|[E|[E|[E|[E|[E|[E|[E|[E|[E|[E|[E|[E|[E|[Hgt Hdef]]]]]]]]]]]]]]];
    try (rewrite E; cbv beta iota).
  - cbn. split; [reflexivity|lia].
  - cbn. split; [reflexivity|lia].
  - cbn. split; [reflexivity|lia].
  - eapply post_bind; [apply post_readInt32|].
    intros v b' Hv Hl. cbn. split; [exact Hv|lia].
  - eapply post_bind; [apply post_readInt64|].
    intros v b' Hv Hl. cbn. split; [exact Hv|lia].
  - eapply post_bind; [apply post_wrapErr, post_readBytes|].
    intros bs b' _ Hl. destruct (SetString16 _); cbn; [split; [reflexivity|lia]|(cbn; auto)].
  - eapply post_weaken; [|apply (readAlignment_length buf orig 8)].
    eapply post_bind; [apply post_readFloat64|].
    intros v b' Hv Hl. cbn. split; [exact Hv|lia].
  - eapply post_bind; [apply post_wrapErr, post_readBytes|].
    intros bs b' _ Hl. cbn. split; [reflexivity|lia].
  - eapply post_bind; [apply post_wrapErr, post_readBytes|].
    intros bs b' _ Hl. cbn. split; [reflexivity|lia].
  - eapply post_bind; [apply post_readSize|]. intros n b1 _ Hl1. cbv zeta.
    eapply post_weaken; [|apply (readAlignment_length b1 orig 4)].
    eapply post_bind; [apply (post_readSlice _ _ _ _ in_int32)|].
    + intros chunk Hc.
      pose proof (get_uint_range endian chunk). pose proof (len_nonneg chunk).
      assert (2 ^ (8 * len chunk) <= 2 ^ 32) by (apply Z.pow_le_mono_r; lia).
      pose proof (to_signed_range 32 (get_uint endian chunk) ltac:(lia) ltac:(lia)) as Hr.
      unfold in_int32. change (2 ^ (32 - 1)) with (2 ^ 31) in Hr. lia.
    + intros l b' Hv Hl. cbn. split; [exact Hv|lia].
  - eapply post_bind; [apply post_readSize|]. intros n b1 _ Hl1. cbv zeta.
    eapply post_weaken; [|apply (readAlignment_length b1 orig 8)].
    eapply post_bind; [apply (post_readSlice _ _ _ _ in_int64)|].
    + intros chunk Hc.
      pose proof (get_uint_range endian chunk). pose proof (len_nonneg chunk).
      assert (2 ^ (8 * len chunk) <= 2 ^ 64) by (apply Z.pow_le_mono_r; lia).
      pose proof (to_signed_range 64 (get_uint endian chunk) ltac:(lia) ltac:(lia)) as Hr.
      unfold in_int64. change (2 ^ (64 - 1)) with (2 ^ 63) in Hr. lia.
    + intros l b' Hv Hl. cbn. split; [exact Hv|lia].
  - eapply post_bind; [apply post_readSize|]. intros n b1 _ Hl1. cbv zeta.
    eapply post_weaken; [|apply (readAlignment_length b1 orig 8)].
    eapply post_bind; [apply (post_readSlice _ _ _ _ in_uint64)|].
    + intros chunk Hc. apply get_uint_in_uint64. exact Hc.
    + intros l b' Hv Hl. cbn. split; [exact Hv|lia].
  - eapply post_bind; [apply post_readSize|]. intros n b1 _ Hl1.
    destruct (n <? 0); [exact I|].
    eapply post_bind.
    + apply (post_readListLoop _ f); [intros b0 Hb0; apply IH; exact Hb0|lia|lia|reflexivity].
    + intros l b' Hv Hl. cbn. split; [exact Hv|lia].
  - eapply post_bind; [apply post_readSize|]. intros n b1 _ Hl1.
    eapply post_bind.
    + apply (post_readMapLoop _ f); [intros b0 Hb0; apply IH; exact Hb0|lia|lia|reflexivity].
    + intros m b' Hv Hl. cbn. split; [exact Hv|lia].
  - rewrite Hdef. (cbn; auto).
Qed.

End ReaderInvariant.

(** ** Whole messages *)

Section Messages.
Variable endian : ByteOrder.

Ltac read_tag :=
  cbn [readValueAligned app ReadByte wrapErr bind];
  rewrite b2z_z2b_small by lia; cbv beta iota.

(** A supported value with valid maps and carried sizes is encoded, and
    decoding the encoding gives it back, whatever bytes follow. *)
Lemma DecodeMessage_EncodeMessage (v : Value) :
  supported v = true -> valid_maps v = true -> sizes_ok v = true ->
  exists data,
    EncodeMessage endian v = Ok data /\
    forall s, DecodeMessage endian (data ++ s) = Ok v.
Proof.
  intros Hsup Hmaps Hsz.
  destruct (roundtrip_value endian v Hsup Hmaps Hsz []) as (out & Hw & _ & Hr).
  exists out. split.
  - unfold EncodeMessage. now rewrite Hw.
  - intros s. unfold DecodeMessage, readValue.
    rewrite Hr; [reflexivity|lens; lia|].
    rewrite length_app. lia.
Qed.

Lemma readValue_consumes (data : list byte) :
  consumes (readValue endian data) data (fun v => supported v = true).
Proof.
  unfold readValue. apply readValueAligned_consumes. lia.
Qed.

(** The fuel [readValue] starts with is never used up. *)
Lemma DecodeMessage_total (data : list byte) :
  DecodeMessage endian data <> OutOfFuel.
Proof.
  unfold DecodeMessage. pose proof (readValue_consumes data) as H.
  destruct (readValue endian data) as [[v b]| | |]; cbn in *;
    [discriminate|discriminate|discriminate|contradiction].
Qed.

Lemma DecodeMessage_supported (data : list byte) (v : Value) :
  DecodeMessage endian data = Ok v -> supported v = true.
Proof.
  unfold DecodeMessage. pose proof (readValue_consumes data) as H.
  destruct (readValue endian data) as [[v' b]| | |]; cbn in *; try discriminate.
  intros [= <-]. apply H.
Qed.

Lemma DecodeMessage_error_kind (data : list byte) (e : error) :
  DecodeMessage endian data = Err e -> isMessageTypeError e = false.
Proof.
  unfold DecodeMessage. pose proof (readValue_consumes data) as H.
  destruct (readValue endian data) as [[v' b]| e' | |]; cbn in *; try discriminate.
  intros [= <-]. exact H.
Qed.

(** An unknown tag at the front is reported as an error. *)
Lemma DecodeMessage_unknown_tag (b : byte) (rest : list byte) :
  13 < b2z b ->
  DecodeMessage endian (b :: rest)
  = Err (ErrorsWrap (ErrorsNew "invalid message value type")
           "failed to decode data to message").
Proof.
  intros Hb. unfold DecodeMessage, readValue.
  cbn [readValueAligned ReadByte wrapErr bind].
  pose proof (b2z_range b).
  destruct (tag_cases (b2z b) ltac:(lia))
    as [E|[E|[E|[E|[E|[E|[E|[E|[E|[E|[E|[E|[E|[E|[_ Hdef]]]]]]]]]]]]]]];
    try lia.
  rewrite Hdef. reflexivity.
Qed.

Lemma DecodeMessage_empty :
  DecodeMessage endian []
  = Err (ErrorsWrap (ErrorsWrap EOF "reading value type")
           "failed to decode data to message").
Proof.
  reflexivity.
Qed.

(** *** Sizes from 2^15 to 2^16 - 1 *)

Lemma readBytes_int16_gap (bs rest : list byte) :
  32768 <= len bs <= 65535 ->
  readBytes endian (size_enc endian (len bs) ++ bs ++ rest)
  = Panic "runtime error: slice bounds out of range".
Proof.
  intros H. unfold readBytes.
  rewrite readSize_size_enc by lia. rewrite size_read_back_int16_gap by exact H.
  cbn [wrapErr bind]. unfold Next.
  destruct (Z.ltb_spec (len bs - 65536) 0); [reflexivity|lia].
Qed.

Lemma DecodeMessage_string_int16_gap (s : string) (rest : list byte) :
  32768 <= len (list_byte_of_string s) <= 65535 ->
  exists data,
    EncodeMessage endian (VString s) = Ok data /\
    DecodeMessage endian (data ++ rest)
    = Panic "runtime error: slice bounds out of range".
Proof.
  intros H.
  exists (z2b 7 :: size_enc endian (len (list_byte_of_string s))
               ++ list_byte_of_string s).
  split.
  - unfold EncodeMessage. cbn [writeValue WriteByte bind].
    rewrite writeString_app. reflexivity.
  - unfold DecodeMessage, readValue. read_tag.
    rewrite <- app_assoc, readBytes_int16_gap by exact H. reflexivity.
Qed.

Lemma DecodeMessage_bytes_int16_gap (bs rest : list byte) :
  32768 <= len bs <= 65535 ->
  exists data,
    EncodeMessage endian (VBytes bs) = Ok data /\
    DecodeMessage endian (data ++ rest)
    = Panic "runtime error: slice bounds out of range".
Proof.
  intros H.
  exists (z2b 8 :: size_enc endian (len bs) ++ bs).
  split.
  - unfold EncodeMessage. cbn [writeValue WriteByte bind].
    rewrite writeBytes_app. reflexivity.
  - unfold DecodeMessage, readValue. read_tag.
    rewrite <- app_assoc, readBytes_int16_gap by exact H. reflexivity.
Qed.

(** The sizes that survive the size codec are exactly the carried ones. *)
Lemma size_read_back_iff (n : Z) :
  0 <= n -> (size_read_back n = n <-> size_ok n = true).
Proof.
  intros Hn. split; [|apply size_read_back_ok].
  unfold size_read_back, size_ok.
  destruct (Z.ltb_spec n 254) as [H1|H1]; [lia|].
  destruct (Z.leb_spec n 65535) as [H2|H2]; intros E.
  - pose proof (int16_range n). lia.
  - pose proof (int32_range n). lia.
Qed.

Lemma wrap_signed_mod (bits v : Z) :
  0 < bits -> wrap_signed bits v mod 2 ^ bits = v mod 2 ^ bits.
Proof.
  intros Hb. unfold wrap_signed, to_signed.
  assert (0 < 2 ^ bits) by (apply Z.pow_pos_nonneg; lia).
  destruct (_ <? _).
  - apply Z.mod_mod. lia.
  - replace (v mod 2 ^ bits - 2 ^ bits) with (v mod 2 ^ bits + (-1) * 2 ^ bits) by lia.
    rewrite Z.mod_add by lia. apply Z.mod_mod. lia.
Qed.

End Messages.

(** ** Map keys *)

Lemma float_eq_sym (x y : Z) : float_eq x y = float_eq y x.
Proof.
  unfold float_eq. rewrite (Z.eqb_sym x y).
  destruct (float_isNaN x), (float_isNaN y), (y =? x), (float_isZero x),
    (float_isZero y); reflexivity.
Qed.

Lemma float_eq_trans (x y z : Z) :
  float_eq x y = true -> float_eq y z = true -> float_eq x z = true.
Proof.
  unfold float_eq. intros H1 H2.
  destruct (float_isNaN x), (float_isNaN y), (float_isNaN z);
    cbn [negb andb] in *; try discriminate.
  destruct (Z.eq_dec x y) as [->|Hxy]; [exact H2|].
  destruct (Z.eq_dec y z) as [->|Hyz]; [exact H1|].
  apply Z.eqb_neq in Hxy, Hyz. rewrite Hxy in H1. rewrite Hyz in H2.
  cbn [orb] in *.
  apply andb_true_iff in H1 as [Hx _]. apply andb_true_iff in H2 as [_ Hz].
  rewrite Hx, Hz. apply orb_true_r.
Qed.

Lemma go_eq_sym (a b : Value) : go_eq a b = go_eq b a.
Proof.
  destruct a, b; cbn; try reflexivity.
  - destruct b0, b; reflexivity.
  - apply Z.eqb_sym.
  - apply Z.eqb_sym.
  - apply float_eq_sym.
  - apply String.eqb_sym.
Qed.

Lemma go_eq_trans (a b c : Value) :
  go_eq a b = true -> go_eq b c = true -> go_eq a c = true.
Proof.
  destruct a, b; cbn; try discriminate; destruct c; cbn; try discriminate; auto.
  - destruct b0, b, b1; auto.
  - intros H1 H2. apply Z.eqb_eq in H1, H2. apply Z.eqb_eq. congruence.
  - intros H1 H2. apply Z.eqb_eq in H1, H2. apply Z.eqb_eq. congruence.
  - apply float_eq_trans.
  - intros H1 H2. apply String.eqb_eq in H1, H2. apply String.eqb_eq. congruence.
Qed.

(** After [m[k] = v], a lookup finds [v] under every key equal to [k] and
    what it found before under every other key. *)
Lemma mapaccess_mapstore (m : gomap) (k v q : Value) :
  mapaccess (mapstore m k v) q = if go_eq k q then Some v else mapaccess m q.
Proof.
  induction m as [|[k' v'] m IH]; cbn [mapstore mapaccess]; [reflexivity|].
  destruct (go_eq k' k) eqn:Ek; cbn [mapaccess].
  - destruct (go_eq k q) eqn:Eq; [reflexivity|].
    destruct (go_eq k' q) eqn:Eq'; [|reflexivity].
    rewrite go_eq_sym in Ek.
    now rewrite (go_eq_trans _ _ _ Ek Eq') in Eq.
  - rewrite IH. destruct (go_eq k' q) eqn:Eq'; [|reflexivity].
    destruct (go_eq k q) eqn:Eq; [|reflexivity].
    rewrite go_eq_sym in Eq.
    now rewrite (go_eq_trans _ _ _ Eq' Eq) in Ek.
Qed.

Lemma mapaccess_mapstore_all (ps : list (Value * Value)) (m : gomap) (q : Value) :
  mapaccess (mapstore_all m ps) q =
    match last_write ps q with
    | Some v => Some v
    | None => mapaccess m q
    end.
Proof.
  revert m. induction ps as [|[k v] ps IH]; intros m; [reflexivity|].
  cbn [mapstore_all fold_left fst snd last_write].
  fold (mapstore_all (mapstore m k v) ps). rewrite IH, mapaccess_mapstore.
  destruct (last_write ps q); [reflexivity|].
  destruct (go_eq k q); reflexivity.
Qed.

(** A key that is a byte buffer stops the decoder: the key cannot be
    hashed. The stream is a map of one pair, the empty byte buffer to nil. *)
Lemma DecodeMessage_unhashable_key (endian : ByteOrder) :
  DecodeMessage endian [x0d; x01; x08; x00; x00]
  = Panic "runtime error: hash of unhashable type".
Proof.
  destruct endian; vm_compute; reflexivity.
Qed.

(** ** Values nested in lists *)

Lemma nest_encodable (shape : list bool) (v : Value) :
  encodable v = true -> encodable (nest shape v) = true.
Proof.
  unfold encodable. intros H.
  induction shape as [|b shape IH]; [exact H|].
  apply andb_true_iff in IH as [IH Hz]. apply andb_true_iff in IH as [Hs Hm].
  destruct b; cbn [nest app supported valid_maps sizes_ok forallb];
    rewrite Hs, Hm, Hz; reflexivity.
Qed.

Lemma enclose_encodable (layers : list layer) (v : Value) :
  encodable v = true -> encodable (enclose layers v) = true.
Proof.
  unfold encodable. intros H.
  induction layers as [|[b|b] layers IH]; [exact H| |];
    apply andb_true_iff in IH as [IH Hz]; apply andb_true_iff in IH as [Hs Hm];
    destruct b;
    cbn [enclose app supported valid_maps sizes_ok forallb map fst
         distinct_keys hashable go_eq negb andb];
    rewrite Hs, Hm, Hz; reflexivity.
Qed.

(** * The codec's contract *)

Section Claims.
Variable endian : ByteOrder.

Ltac read_tag :=
  cbn [readValueAligned app ReadByte wrapErr bind];
  rewrite b2z_z2b_small by lia; cbv beta iota.

(** C1. The round trip [DecodeMessage (EncodeMessage v) = v] does not hold
    for every supported value: the string of 32768 bytes "a" is a
    supported value without maps, it is encoded without error, and
    decoding that encoding panics. Its length is written as the two bytes
    of 32768 and read back as the signed 16-bit integer -32768, which
    [buf.Next] is then asked for. *)
Theorem C1_string_of_32768_bytes_is_not_read_back :
  let v := VString (string_of_list_byte (repeat "a"%byte (Z.to_nat 32768))) in
  supported v = true /\ valid_maps v = true /\
  exists data,
    EncodeMessage endian v = Ok data /\
    DecodeMessage endian data = Panic "runtime error: slice bounds out of range".
Proof.
  cbv zeta. split; [reflexivity|]. split; [reflexivity|].
  destruct (DecodeMessage_string_int16_gap endian
              (string_of_list_byte (repeat "a"%byte (Z.to_nat 32768))) [])
    as (data & He & Hd).
  - rewrite list_byte_of_string_of_list_byte. unfold len.
    rewrite repeat_length, Z2Nat.id; lia.
  - exists data. rewrite app_nil_r in Hd. split; assumption.
Qed.

(** C2. Reading back the size the size writer wrote does not give the size
    for every size in [0, 65535]: for 32768 the writer emits byte 254 and
    the two bytes of 32768, and [readSize] returns -32768. *)
Theorem C2_size_32768_is_read_back_as_minus_32768 :
  exists out,
    writeSize endian [] 32768 = Ok out /\
    readSize endian out = Ok (- 32768, []).
Proof.
  exists (size_enc endian 32768). split.
  - now rewrite writeSize_app by lia.
  - rewrite <- (app_nil_r (size_enc endian 32768)).
    rewrite readSize_size_enc by lia. reflexivity.
Qed.

(** C3. The size writer appends one byte equal to the size for sizes up to
    253; byte 254 and a 2-byte integer holding the size for sizes from 254
    to 65535; byte 255 and a 4-byte integer holding the size (its low 32
    bits) for larger sizes. In particular sizes 253, 254, 255, 65535 and
    65536 take 1, 3, 3, 3 and 5 bytes. *)
Theorem C3_size_encoding_widths (buf : list byte) (n : Z) :
  0 <= n ->
  (exists out,
     writeSize endian buf n = Ok (buf ++ out) /\
     (n <= 253 -> exists b, out = [b] /\ b2z b = n) /\
     (254 <= n <= 65535 ->
      exists bs, out = z2b 254 :: bs /\ List.length bs = 2%nat
                 /\ get_uint endian bs = n) /\
     (65536 <= n ->
      exists bs, out = z2b 255 :: bs /\ List.length bs = 4%nat
                 /\ get_uint endian bs = n mod 2 ^ 32)) /\
  len (size_enc endian 253) = 1 /\ len (size_enc endian 254) = 3 /\
  len (size_enc endian 255) = 3 /\ len (size_enc endian 65535) = 3 /\
  len (size_enc endian 65536) = 5.
Proof.
  intros Hn. split.
  - exists (size_enc endian n). split; [apply writeSize_app; exact Hn|].
    rewrite size_enc_cases by exact Hn.
    destruct (Z.ltb_spec n 254) as [H1|H1];
      [|destruct (Z.leb_spec n 65535) as [H2|H2]].
    + split; [|split; intros; lia]. intros _. exists (z2b n).
      split; [reflexivity|]. apply b2z_z2b_small. lia.
    + split; [intros; lia|]. split; [|intros; lia]. intros _.
      exists (put_uint endian 2 (int16 n)).
      split; [reflexivity|]. split; [apply length_put_uint|].
      rewrite get_put_uint. change (2 ^ (8 * Z.of_nat 2)) with (2 ^ 16).
      unfold int16. rewrite wrap_signed_mod by lia. apply Z.mod_small. lia.
    + split; [intros; lia|]. split; [intros; lia|]. intros _.
      exists (put_uint endian 4 (int32 n)).
      split; [reflexivity|]. split; [apply length_put_uint|].
      rewrite get_put_uint. change (2 ^ (8 * Z.of_nat 4)) with (2 ^ 32).
      unfold int32. apply wrap_signed_mod. lia.
  - repeat split; rewrite size_enc_length by lia; reflexivity.
Qed.

(** C4. Alignment is counted from the start of the message on both sides.
    A float64 wrapped in lists to any depth, with or without a nil before
    it at each level, is decoded from its encoding as the same value; so is
    a float64 under any nesting of lists and maps, as an element of a list,
    as the value of a map entry and as the key of one, with or without an
    element or entry before it at each level; and wherever the writer
    stands when it writes a float64, the reader standing at the same
    distance from the start of the message reads that float64 and stops
    where the writer stopped. The reader takes the original size once, from
    the whole buffer, and hands that same size to the read of every list
    element, map key and map value. *)
Theorem C4_float64_nested_in_lists_and_maps (x : Z) :
  in_uint64 x = true ->
  (forall shape,
     exists data,
       EncodeMessage endian (nest shape (VFloat64 x)) = Ok data /\
       DecodeMessage endian data = Ok (nest shape (VFloat64 x))) /\
  (forall pre,
     exists out,
       writeValue endian pre (VFloat64 x) = Ok (pre ++ out) /\
       forall rest,
         readValueAligned endian (List.length out) (out ++ rest)
           (len pre + len out + len rest)
         = Ok (VFloat64 x, rest)) /\
  (forall layers,
     exists data,
       EncodeMessage endian (enclose layers (VFloat64 x)) = Ok data /\
       DecodeMessage endian data = Ok (enclose layers (VFloat64 x))) /\
  (forall layers,
     exists data,
       EncodeMessage endian (enclose layers (VMap [(VFloat64 x, VFloat64 x)]))
       = Ok data /\
       DecodeMessage endian data
       = Ok (enclose layers (VMap [(VFloat64 x, VFloat64 x)]))) /\
  (forall buf,
     readValue endian buf
     = readValueAligned endian (S (List.length buf)) buf (len buf)) /\
  (forall fuel buf originalSize,
     readValueAligned endian (S fuel) (z2b 12 :: buf) originalSize =
       ('(length, buf) <- readSize endian buf ;;
        if length <? 0 then Panic "runtime error: makeslice: cap out of range"
        else
          '(elems, buf) <-
            readListLoop (fun b => readValueAligned endian fuel b originalSize)
              fuel 0 length buf [] ;;
          Ok (VList elems, buf))) /\
  (forall fuel buf originalSize,
     readValueAligned endian (S fuel) (z2b 13 :: buf) originalSize =
       ('(length, buf) <- readSize endian buf ;;
        '(m, buf) <-
          readMapLoop (fun b => readValueAligned endian fuel b originalSize)
            fuel 0 length buf [] ;;
        Ok (VMap m, buf))).
Proof.
  intros Hx.
  assert (Hround : forall v, encodable v = true ->
            exists data, EncodeMessage endian v = Ok data
                         /\ DecodeMessage endian data = Ok v).
  { intros v He. unfold encodable in He.
    apply andb_true_iff in He as [He Hz]. apply andb_true_iff in He as [Hs Hm].
    destruct (DecodeMessage_EncodeMessage endian v Hs Hm Hz) as (data & Henc & Hdec).
    exists data. split; [exact Henc|].
    specialize (Hdec []). now rewrite app_nil_r in Hdec. }
  assert (Hf : encodable (VFloat64 x) = true)
    by (unfold encodable; cbn; now rewrite Hx).
  assert (Hk : encodable (VMap [(VFloat64 x, VFloat64 x)]) = true)
    by (unfold encodable; cbn; now rewrite Hx).
  split; [|split; [|split; [|split; [|split; [|split]]]]].
  - intros shape. apply Hround, nest_encodable, Hf.
  - intros pre.
    destruct (roundtrip_VFloat64 endian x Hx pre) as (out & Hw & _ & Hr).
    exists out. split; [exact Hw|]. intros rest. apply Hr; [reflexivity|lia].
  - intros layers. apply Hround, enclose_encodable, Hf.
  - intros layers. apply Hround, enclose_encodable, Hk.
  - reflexivity.
  - intros fuel buf originalSize.
    cbn [readValueAligned ReadByte wrapErr bind].
    rewrite b2z_z2b_small by lia. reflexivity.
  - intros fuel buf originalSize.
    cbn [readValueAligned ReadByte wrapErr bind].
    rewrite b2z_z2b_small by lia. reflexivity.
Qed.

(** C5. The big integer 255 is encoded as tag 5, size 2 and the text "ff";
    the big integer -1 as tag 5, size 2 and the text "-1", which begins
    with a minus sign; decoding either encoding gives the integer back. *)
Theorem C5_bigint_hex_text :
  Text16 255 = "ff"%string /\
  EncodeMessage endian (VBigInt 255) = Ok [x05; x02; "f"; "f"]%byte /\
  DecodeMessage endian [x05; x02; "f"; "f"]%byte = Ok (VBigInt 255) /\
  Text16 (- 1) = "-1"%string /\
  EncodeMessage endian (VBigInt (- 1)) = Ok [x05; x02; "-"; "1"]%byte /\
  DecodeMessage endian [x05; x02; "-"; "1"]%byte = Ok (VBigInt (- 1)).
Proof.
  destruct endian; repeat split; vm_compute; reflexivity.
Qed.

(** C6, with keys compared as Go compares them. A map stream whose pairs
    have hashable keys is decoded
    without failure into the map built by storing the pairs in stream
    order, and in that map every key holds the value of the last pair
    whose key equals it under Go's [==] on interface values; pairs with
    other keys do not affect it. Keys decoded as [*big.Int] are distinct
    pointers and NaN keys equal nothing, so such pairs never overwrite one
    another. *)
Theorem C6_last_write_wins_for_equal_keys (ps : list (Value * Value)) :
  forallb (fun kv => hashable (fst kv) && encodable (fst kv)
                     && encodable (snd kv)) ps = true ->
  size_ok (len ps) = true ->
  exists data m,
    writeMapStream endian ps = Ok data /\
    DecodeMessage endian data = Ok (VMap m) /\
    m = mapstore_all [] ps /\
    forall k, mapaccess m k = last_write ps k.
Proof.
  intros Hps Hn.
  assert (Hall : Forall (fun kv => roundtrip_at endian (fst kv)
                                   /\ roundtrip_at endian (snd kv)) ps).
  { apply Forall_forall. intros [k x] Hin.
    rewrite forallb_forall in Hps. specialize (Hps _ Hin). cbn [fst snd] in *.
    apply andb_true_iff in Hps as [Hps Hx]. apply andb_true_iff in Hps as [_ Hk].
    unfold encodable in Hk, Hx.
    apply andb_true_iff in Hk as [Hk Hk3]. apply andb_true_iff in Hk as [Hk1 Hk2].
    apply andb_true_iff in Hx as [Hx Hx3]. apply andb_true_iff in Hx as [Hx1 Hx2].
    split; apply roundtrip_value; assumption. }
  assert (Hh : forallb (fun kv => hashable (fst kv)) ps = true).
  { apply forallb_forall. intros kv Hin.
    rewrite forallb_forall in Hps. specialize (Hps _ Hin).
    apply andb_true_iff in Hps as [Hps _]. now apply andb_true_iff in Hps as [? _]. }
  destruct (pairs_roundtrip endian ps Hall Hh (([] ++ [z2b 13]) ++ size_enc endian (len ps)))
    as (out & Hw & Hl & Hr).
  exists ((([] ++ [z2b 13]) ++ size_enc endian (len ps)) ++ out), (mapstore_all [] ps).
  split; [|split; [|split]].
  - unfold writeMapStream. cbn [WriteByte bind].
    rewrite writeSize_app by apply len_nonneg. cbn [bind]. exact Hw.
  - unfold DecodeMessage, readValue. cbn [app]. read_tag.
    rewrite readSize_writeSize_ok by exact Hn. cbn [bind].
    pose proof (Hr (List.length (z2b 13 :: size_enc endian (len ps) ++ out))
                   (List.length (z2b 13 :: size_enc endian (len ps) ++ out))
                   [] (len (z2b 13 :: size_enc endian (len ps) ++ out))
                   0 (len ps) []) as Hr'.
    rewrite app_nil_r in Hr'. rewrite Hr'; [reflexivity| | | |lia].
    + lens. lia.
    + cbn [List.length]. rewrite length_app. lia.
    + cbn [List.length]. rewrite length_app. lia.
  - reflexivity.
  - intros k. rewrite mapaccess_mapstore_all. cbn [mapaccess].
    destruct (last_write ps k); reflexivity.
Qed.

(** C7. Encoding a value of an unsupported dynamic type, alone or as an
    element of a list, returns no bytes and no panic but an error whose
    cause is a [MessageTypeError] naming the type; no error of
    [DecodeMessage] has such a cause. *)
Theorem C7_unsupported_type_is_a_type_error (T : string) :
  EncodeMessage endian (VOther T)
  = Err (ErrorsWrap (MessageTypeError (typeErrorMessage T))
           "failed to encode message") /\
  EncodeMessage endian (VList [VOther T])
  = Err (ErrorsWrap (MessageTypeError (typeErrorMessage T))
           "failed to encode message") /\
  Cause (ErrorsWrap (MessageTypeError (typeErrorMessage T))
           "failed to encode message")
  = MessageTypeError (typeErrorMessage T) /\
  (forall data e,
     DecodeMessage endian data = Err e -> isMessageTypeError e = false).
Proof.
  split; [reflexivity|]. split; [reflexivity|]. split; [reflexivity|].
  intros data e. apply DecodeMessage_error_kind.
Qed.

(** C8. A short read is not always reported as an error. On the four bytes
    7, 254, 128, 128 (a string whose declared size is the two bytes
    128, 128, with nothing after them) [DecodeMessage] panics; on the four
    bytes 13, 254, 255, 255 (a map whose declared size is the two bytes
    255, 255, with no pair after them) it returns the empty map and no
    error. *)
Theorem C8_size_with_sign_bit_is_not_an_error :
  DecodeMessage endian [x07; xfe; x80; x80]
  = Panic "runtime error: slice bounds out of range" /\
  DecodeMessage endian [x0d; xfe; xff; xff] = Ok (VMap []).
Proof.
  destruct endian; split; vm_compute; reflexivity.
Qed.

(** C9. Decoding an encoding followed by other bytes does not succeed for
    every supported value: for the buffer of 40000 zero bytes, whatever
    follows its encoding, [DecodeMessage] panics. *)
Theorem C9_buffer_of_40000_bytes_then_trailing_bytes (s : list byte) :
  let v := VBytes (repeat x00 (Z.to_nat 40000)) in
  supported v = true /\ valid_maps v = true /\
  exists data,
    EncodeMessage endian v = Ok data /\
    DecodeMessage endian (data ++ s)
    = Panic "runtime error: slice bounds out of range".
Proof.
  cbv zeta. split; [reflexivity|]. split; [reflexivity|].
  apply DecodeMessage_bytes_int16_gap. unfold len.
  rewrite repeat_length, Z2Nat.id; lia.
Qed.

(** C10. Whatever [DecodeMessage] returns is a value of one of the
    thirteen supported forms, and so is every element of a list and every
    key and value of a map inside it, at any depth. *)
Theorem C10_decoded_values_are_supported (data : list byte) (v : Value) :
  DecodeMessage endian data = Ok v -> supported v = true.
Proof.
  apply DecodeMessage_supported.
Qed.

End Claims.

(** * Instances *)

(** C3 at size 65536, written to an empty little-endian buffer. *)
Lemma C3_size_encoding_widths_witness :
  0 <= 65536 /\
  exists out, writeSize LittleEndian [] 65536 = Ok ([] ++ out) /\ len out = 5.
Proof.
  split; [lia|].
  destruct (C3_size_encoding_widths LittleEndian [] 65536 ltac:(lia))
    as [(out & Hw & _ & _ & H5) _].
  exists out. split; [exact Hw|].
  destruct (H5 ltac:(lia)) as (bs & -> & Hl & _).
  rewrite len_cons. unfold len. rewrite Hl. reflexivity.
Defined.

(** C4 at the double 1.0 (bit pattern 0x3FF0000000000000): under a nil in a
    list in a list; as the value of the second entry of a map in a list;
    and as the key and the value of an entry of a map in a map. *)
Lemma C4_float64_nested_in_lists_and_maps_witness :
  in_uint64 4607182418800017408 = true /\
  (exists data,
     EncodeMessage LittleEndian
       (VList [VList [VNil; VFloat64 4607182418800017408]]) = Ok data /\
     DecodeMessage LittleEndian data
     = Ok (VList [VList [VNil; VFloat64 4607182418800017408]])) /\
  (exists data,
     EncodeMessage LittleEndian
       (VList [VMap [(VBool true, VNil);
                     (VNil, VFloat64 4607182418800017408)]]) = Ok data /\
     DecodeMessage LittleEndian data
     = Ok (VList [VMap [(VBool true, VNil);
                        (VNil, VFloat64 4607182418800017408)]])) /\
  (exists data,
     EncodeMessage LittleEndian
       (VMap [(VNil, VMap [(VFloat64 4607182418800017408,
                            VFloat64 4607182418800017408)])]) = Ok data /\
     DecodeMessage LittleEndian data
     = Ok (VMap [(VNil, VMap [(VFloat64 4607182418800017408,
                               VFloat64 4607182418800017408)])])).
Proof.
  split; [reflexivity|].
  destruct (C4_float64_nested_in_lists_and_maps LittleEndian
              4607182418800017408 eq_refl)
    as (H1 & _ & H3 & H4 & _).
  split; [exact (H1 [false; true])|].
  split; [exact (H3 [InList false; InMap true])|exact (H4 [InMap false])].
Defined.

(** C6 at a stream of three pairs, the first and the last under the key
    "x": the decoded map holds the last value under "x". *)
Lemma C6_last_write_wins_for_equal_keys_witness :
  exists data m,
    writeMapStream LittleEndian
      [(VString "x", VInt32 1); (VInt32 7, VNil); (VString "x", VInt32 2)]
    = Ok data /\
    DecodeMessage LittleEndian data = Ok (VMap m) /\
    mapaccess m (VString "x") = Some (VInt32 2) /\
    mapaccess m (VInt32 7) = Some VNil.
Proof.
  destruct (C6_last_write_wins_for_equal_keys LittleEndian
              [(VString "x", VInt32 1); (VInt32 7, VNil); (VString "x", VInt32 2)]
              eq_refl eq_refl)
    as (data & m & Hw & Hd & _ & Hk).
  exists data, m. split; [exact Hw|]. split; [exact Hd|].
  split; [exact (Hk (VString "x"))|exact (Hk (VInt32 7))].
Defined.

(** C6 with keys compared by their encoded form fails on a stream of two
    pairs under the big integer 1: both pairs are in the decoded map, the first value not overwritten. *)
Lemma C6_equal_bigint_keys_are_both_kept :
  writeMapStream LittleEndian
    [(VBigInt 1, VBool true); (VBigInt 1, VBool false)]
  = Ok [x0d; x02; x05; x01; "1"; x01; x05; x01; "1"; x02]%byte /\
  DecodeMessage LittleEndian
    [x0d; x02; x05; x01; "1"; x01; x05; x01; "1"; x02]%byte
  = Ok (VMap [(VBigInt 1, VBool true); (VBigInt 1, VBool false)]).
Proof.
  split; vm_compute; reflexivity.
Qed.

(** C7 at a 16-bit integer, and at the error of decoding the byte 255. *)
Lemma C7_unsupported_type_is_a_type_error_witness :
  EncodeMessage LittleEndian (VOther "int16")
  = Err (ErrorsWrap
           (MessageTypeError "type int16 is not supported by StandardMessageCodec")
           "failed to encode message") /\
  isMessageTypeError
    (ErrorsWrap (ErrorsNew "invalid message value type")
       "failed to decode data to message") = false.
Proof.
  destruct (C7_unsupported_type_is_a_type_error LittleEndian "int16")
    as (H1 & _ & _ & H4).
  split; [exact H1|]. exact (H4 [xff] _ eq_refl).
Defined.

(** C10 at the encoding of a map from "k" to a list holding nil. *)
Lemma C10_decoded_values_are_supported_witness :
  DecodeMessage LittleEndian [x0d; x01; x07; x01; "k"; x0c; x01; x00]%byte
  = Ok (VMap [(VString "k", VList [VNil])]) /\
  supported (VMap [(VString "k", VList [VNil])]) = true.
Proof.
  split; [reflexivity|].
  exact (C10_decoded_values_are_supported LittleEndian
           [x0d; x01; x07; x01; "k"; x0c; x01; x00]%byte _ eq_refl).
Defined.

(** * Further properties of the codec *)

(** X1. A supported value whose maps are valid Go maps and whose lengths are
    all below 2^15 or from 2^16 to 2^31 - 1 is encoded without error, and
    decoding the encoding, followed by any bytes, returns the value. *)
Theorem X1_decode_encode_with_trailing_bytes (endian : ByteOrder) (v : Value) :
  supported v = true -> valid_maps v = true -> sizes_ok v = true ->
  exists data,
    EncodeMessage endian v = Ok data /\
    forall s, DecodeMessage endian (data ++ s) = Ok v.
Proof.
  intros Hs Hm Hz. exact (DecodeMessage_EncodeMessage endian v Hs Hm Hz).
Qed.

Lemma X1_decode_encode_with_trailing_bytes_witness :
  exists data,
    EncodeMessage LittleEndian
      (VList [VString "a"; VInt32 42; VNil; VBool true;
              VMap [(VString "x", VInt32 1); (VString "y", VInt32 2)]])
    = Ok data /\
    forall s,
      DecodeMessage LittleEndian (data ++ s)
      = Ok (VList [VString "a"; VInt32 42; VNil; VBool true;
                   VMap [(VString "x", VInt32 1); (VString "y", VInt32 2)]]).
Proof.
  exact (X1_decode_encode_with_trailing_bytes LittleEndian
           (VList [VString "a"; VInt32 42; VNil; VBool true;
                   VMap [(VString "x", VInt32 1); (VString "y", VInt32 2)]])
           eq_refl eq_refl eq_refl).
Defined.

(** X2. For a non-negative size, [readSize] returns the size [writeSize]
    wrote exactly when the size is below 2^15 or from 2^16 to 2^31 - 1. *)
Theorem X2_readSize_writeSize_iff (endian : ByteOrder) (n : Z) (rest : list byte) :
  0 <= n ->
  exists out,
    writeSize endian [] n = Ok out /\
    (readSize endian (out ++ rest) = Ok (n, rest)
     <-> n < 32768 \/ 65536 <= n < 2 ^ 31).
Proof.
  intros Hn. exists (size_enc endian n). split.
  - now rewrite writeSize_app by exact Hn.
  - rewrite readSize_size_enc by exact Hn.
    pose proof (size_read_back_iff n Hn) as Hiff. unfold size_ok in Hiff.
    split.
    + intros [= E]. apply Hiff in E. lia.
    + intros H. f_equal. f_equal. apply Hiff. lia.
Qed.

Lemma X2_readSize_writeSize_iff_witness :
  exists out,
    writeSize BigEndian [] 70000 = Ok out /\
    (readSize BigEndian (out ++ [xff]) = Ok (70000, [xff])
     <-> 70000 < 32768 \/ 65536 <= 70000 < 2 ^ 31).
Proof.
  exact (X2_readSize_writeSize_iff BigEndian 70000 [xff] ltac:(lia)).
Defined.

Lemma writeAlignment_pads (buf : list byte) (a : Z) :
  0 < a ->
  exists pad,
    writeAlignment buf a = Ok (buf ++ pad) /\
    Forall (fun b => b = x00) pad /\
    len pad < a /\
    (len buf + len pad) mod a = 0 /\
    (len buf mod a = 0 -> pad = []).
Proof.
  intros Ha. unfold writeAlignment.
  pose proof (len_nonneg buf) as Hb.
  rewrite Z.rem_mod_nonneg by lia.
  pose proof (Z.mod_pos_bound (len buf) a Ha) as Hm.
  destruct (Z.eqb_spec (len buf mod a) 0) as [E|E]; cbn [negb].
  - exists []. rewrite app_nil_r, len_nil, Z.add_0_r.
    repeat split; [constructor|lia|exact E].
  - exists (repeat x00 (Z.to_nat (a - len buf mod a))).
    assert (Hl : len (repeat x00 (Z.to_nat (a - len buf mod a))) = a - len buf mod a).
    { unfold len at 1. rewrite repeat_length. lia. }
    rewrite Hl. repeat split.
    + apply Forall_forall. intros b Hin. now apply repeat_spec in Hin.
    + lia.
    + pose proof (Z.div_mod (len buf) a ltac:(lia)) as Hd.
      replace (len buf + (a - len buf mod a)) with ((len buf / a + 1) * a) by lia.
      apply Z.mod_mul. lia.
    + intros E'. contradiction.
Qed.

(** X3. [writeAlignment] appends fewer than [alignment] bytes, all zero,
    after which the length of the buffer is a multiple of [alignment]; a
    buffer whose length already is one is left as it is. *)
Theorem X3_writeAlignment_pads_to_a_multiple (buf : list byte) (a : Z) :
  0 < a ->
  exists pad,
    writeAlignment buf a = Ok (buf ++ pad) /\
    Forall (fun b => b = x00) pad /\
    len pad < a /\
    (len buf + len pad) mod a = 0 /\
    (len buf mod a = 0 -> pad = []).
Proof.
  exact (writeAlignment_pads buf a).
Qed.

Lemma X3_writeAlignment_pads_to_a_multiple_witness :
  exists pad,
    writeAlignment [x06; x01; x02] 8 = Ok ([x06; x01; x02] ++ pad) /\
    Forall (fun b => b = x00) pad /\
    len pad < 8 /\
    (len [x06; x01; x02] + len pad) mod 8 = 0 /\
    (len [x06; x01; x02] mod 8 = 0 -> pad = []).
Proof.
  exact (X3_writeAlignment_pads_to_a_multiple [x06; x01; x02] 8 ltac:(lia)).
Defined.

(** X4. [readAlignment] drops fewer than [alignment] bytes from the front of
    the buffer, after which the reader stands at a multiple of [alignment]
    from the start of the message, or the buffer is empty. *)
Theorem X4_readAlignment_skips_to_a_multiple (buf : list byte) (orig a : Z) :
  0 < a -> len buf <= orig ->
  exists skipped,
    buf = skipped ++ readAlignment buf orig a /\
    len skipped < a /\
    ((orig - len (readAlignment buf orig a)) mod a = 0
     \/ readAlignment buf orig a = []).
Proof.
  intros Ha Ho. unfold readAlignment.
  pose proof (len_nonneg buf) as Hb.
  rewrite Z.rem_mod_nonneg by lia.
  pose proof (Z.mod_pos_bound (orig - len buf) a Ha) as Hm.
  destruct (Z.eqb_spec ((orig - len buf) mod a) 0) as [E|E]; cbn [negb].
  - exists []. rewrite len_nil. split; [reflexivity|]. split; [lia|]. now left.
  - set (k := Z.to_nat (Z.min (a - (orig - len buf) mod a) (len buf))).
    exists (firstn k buf). split; [now rewrite firstn_skipn|].
    assert (Hk : Z.of_nat k = Z.min (a - (orig - len buf) mod a) (len buf))
      by (unfold k; lia).
    split.
    + unfold len at 1. rewrite length_firstn. unfold len in *. lia.
    + destruct (Z_le_gt_dec (a - (orig - len buf) mod a) (len buf)) as [Hle|Hgt].
      * left. unfold len at 1. rewrite length_skipn. unfold len in *.
        replace (orig - Z.of_nat (List.length buf - k))
          with (orig - Z.of_nat (List.length buf)
                + (a - (orig - Z.of_nat (List.length buf)) mod a)) by lia.
        pose proof (Z.div_mod (orig - Z.of_nat (List.length buf)) a ltac:(lia)) as Hd.
        replace (orig - Z.of_nat (List.length buf)
                 + (a - (orig - Z.of_nat (List.length buf)) mod a))
          with (((orig - Z.of_nat (List.length buf)) / a + 1) * a) by lia.
        apply Z.mod_mul. lia.
      * right. apply skipn_all2. unfold len in *. lia.
Qed.

Lemma X4_readAlignment_skips_to_a_multiple_witness :
  exists skipped,
    [x00; x00; x07; x08] = skipped ++ readAlignment [x00; x00; x07; x08] 10 8 /\
    len skipped < 8 /\
    ((10 - len (readAlignment [x00; x00; x07; x08] 10 8)) mod 8 = 0
     \/ readAlignment [x00; x00; x07; x08] 10 8 = []).
Proof.
  exact (X4_readAlignment_skips_to_a_multiple [x00; x00; x07; x08] 10 8
           ltac:(lia) ltac:(cbv; discriminate)).
Defined.

(** X5. No encoding is the beginning of another: when the encoding of one
    round-tripping value, followed by some bytes, is the encoding of a
    second one, the values are the same and no bytes follow. *)
Theorem X5_encodings_are_prefix_free (endian : ByteOrder) (v1 v2 : Value)
  (d1 s : list byte) :
  encodable v1 = true -> encodable v2 = true ->
  EncodeMessage endian v1 = Ok d1 ->
  EncodeMessage endian v2 = Ok (d1 ++ s) ->
  v1 = v2 /\ s = [].
Proof.
  unfold encodable. intros H1 H2 E1 E2.
  apply andb_true_iff in H1 as [H1 Z1]. apply andb_true_iff in H1 as [S1 M1].
  apply andb_true_iff in H2 as [H2 Z2]. apply andb_true_iff in H2 as [S2 M2].
  destruct (DecodeMessage_EncodeMessage endian v1 S1 M1 Z1) as (e1 & He1 & Hd1).
  destruct (DecodeMessage_EncodeMessage endian v2 S2 M2 Z2) as (e2 & He2 & Hd2).
  rewrite E1 in He1. injection He1 as <-.
  rewrite E2 in He2. injection He2 as <-.
  specialize (Hd1 s). specialize (Hd2 []). rewrite app_nil_r, Hd1 in Hd2.
  injection Hd2 as ->. split; [reflexivity|].
  rewrite E1 in E2. injection E2 as E2.
  rewrite <- (app_nil_r d1) in E2 at 1. apply app_inv_head in E2. now symmetry.
Qed.

Lemma X5_encodings_are_prefix_free_witness :
  VInt32 7 = VInt32 7 /\ @nil byte = [].
Proof.
  exact (X5_encodings_are_prefix_free LittleEndian (VInt32 7) (VInt32 7)
           [x03; x07; x00; x00; x00] [] eq_refl eq_refl eq_refl eq_refl).
Defined.

(** X6. A message whose first byte is not one of the tags 0 to 13 is
    rejected with the error "invalid message value type", whatever
    follows. *)
Theorem X6_unknown_tag_is_an_error (endian : ByteOrder) (b : byte)
  (rest : list byte) :
  13 < b2z b ->
  DecodeMessage endian (b :: rest)
  = Err (ErrorsWrap (ErrorsNew "invalid message value type")
           "failed to decode data to message").
Proof.
  apply DecodeMessage_unknown_tag.
Qed.

Lemma X6_unknown_tag_is_an_error_witness :
  DecodeMessage BigEndian [x0e; x01; x02]
  = Err (ErrorsWrap (ErrorsNew "invalid message value type")
           "failed to decode data to message").
Proof.
  exact (X6_unknown_tag_is_an_error BigEndian x0e [x01; x02] eq_refl).
Defined.

(** X7. Decoding ends on every input: each value read takes at least one
    byte, so the loops over the declared number of list elements and map
    pairs stop when the bytes run out, however large the declared number.
    With more fuel than unread bytes the reader never stops for lack of
    fuel, and what it leaves unread is shorter than what it was given. *)
Theorem X7_reader_ends_and_takes_a_byte (endian : ByteOrder) (fuel : nat)
  (buf : list byte) (orig : Z) :
  (List.length buf < fuel)%nat ->
  readValueAligned endian fuel buf orig <> OutOfFuel /\
  forall v rest,
    readValueAligned endian fuel buf orig = Ok (v, rest) ->
    (List.length rest < List.length buf)%nat.
Proof.
  intros Hf. pose proof (readValueAligned_consumes endian fuel buf orig Hf) as H.
  destruct (readValueAligned endian fuel buf orig) as [[v b]| | |]; cbn in H.
  - split; [discriminate|]. intros v' rest [= <- <-]. apply H.
  - split; [discriminate|]. intros; discriminate.
  - split; [discriminate|]. intros; discriminate.
  - contradiction.
Qed.

Lemma X7_reader_ends_and_takes_a_byte_witness :
  readValueAligned LittleEndian 5 [x0c; xff; xff; xff] 4 <> OutOfFuel /\
  forall v rest,
    readValueAligned LittleEndian 5 [x0c; xff; xff; xff] 4 = Ok (v, rest) ->
    (List.length rest < List.length [x0c; xff; xff; xff])%nat.
Proof.
  exact (X7_reader_ends_and_takes_a_byte LittleEndian 5 [x0c; xff; xff; xff] 4
           ltac:(cbn; lia)).
Defined.

(** ** What the writer does on any value *)

Section WriterOutcome.
Variable endian : ByteOrder.

Lemma writes_slice (pre : list byte) (tag a : Z) (w : nat) (l : list Z) :
  0 < a ->
  exists out,
    (buf <- WriteByte pre tag ;;
     buf <- writeSize endian buf (len l) ;;
     buf <- writeAlignment buf a ;;
     binaryWriteSlice endian buf w l) = Ok (pre ++ z2b tag :: out).
Proof.
  intros Ha. destruct (slice_out endian pre tag a w l Ha) as (out & Hw & _).
  now exists out.
Qed.

Lemma writes_elems (l : list Value) :
  Forall (writes endian) l ->
  forall buf,
    match first_unsupported (VList l) with
    | Some T =>
        writeElems endian l buf = Err (MessageTypeError (typeErrorMessage T))
    | None => exists out, writeElems endian l buf = Ok (buf ++ out)
    end.
Proof.
  induction 1 as [|x l Hx _ IH]; intros buf.
  - exists []. cbn. now rewrite app_nil_r.
  - specialize (Hx buf). cbn [first_unsupported] in *. cbn [writeElems].
    destruct (first_unsupported x) as [T|].
    + rewrite Hx. reflexivity.
    + destruct Hx as (t & ox & _ & Hx). rewrite Hx. cbn [bind].
      specialize (IH (buf ++ z2b t :: ox)).
      destruct ((fix range (l0 : list Value) : option string := _) l) as [T|].
      * exact IH.
      * destruct IH as (ol & IH). exists ((z2b t :: ox) ++ ol).
        rewrite IH. now rewrite <- app_assoc.
Qed.

Lemma writes_pairs (m : list (Value * Value)) :
  Forall (fun kv => writes endian (fst kv) /\ writes endian (snd kv)) m ->
  forall buf,
    match first_unsupported (VMap m) with
    | Some T =>
        writePairs endian m buf = Err (MessageTypeError (typeErrorMessage T))
    | None => exists out, writePairs endian m buf = Ok (buf ++ out)
    end.
Proof.
  induction 1 as [|[k x] m [Hk Hx] _ IH]; intros buf.
  - exists []. cbn. now rewrite app_nil_r.
  - cbn [fst snd] in Hk, Hx. specialize (Hk buf).
    cbn [first_unsupported] in *. cbn [writePairs].
    destruct (first_unsupported k) as [T|].
    + rewrite Hk. reflexivity.
    + destruct Hk as (tk & ok & _ & Hk). rewrite Hk. cbn [bind].
      specialize (Hx (buf ++ z2b tk :: ok)).
      destruct (first_unsupported x) as [T|].
      * rewrite Hx. reflexivity.
      * destruct Hx as (tx & ox & _ & Hx). rewrite Hx. cbn [bind].
        specialize (IH ((buf ++ z2b tk :: ok) ++ z2b tx :: ox)).
        destruct ((fix range (m0 : list (Value * Value)) : option string := _) m)
          as [T|].
        -- exact IH.
        -- destruct IH as (om & IH).
           exists ((z2b tk :: ok) ++ (z2b tx :: ox) ++ om).
           rewrite IH. now rewrite <- !app_assoc.
Qed.

Lemma writeValue_writes (v : Value) : writes endian v.
Proof.
  induction v as [ | b | n | n | n | x | s | bs | l | l | l | l IH | m IH | T ]
    using Value_nested_ind; intros pre.
  - exists 0, []. split; reflexivity.
  - destruct b; [exists 1, []|exists 2, []]; split; reflexivity.
  - exists 3, (put_uint endian 4 n). split; [reflexivity|].
    cbn [writeValue WriteByte bind]. unfold writeInt32, Write.
    now rewrite <- app_assoc.
  - exists 4, (put_uint endian 8 n). split; [reflexivity|].
    cbn [writeValue WriteByte bind]. unfold writeInt64, Write.
    now rewrite <- app_assoc.
  - exists 5, (size_enc endian (len (list_byte_of_string (Text16 n)))
               ++ list_byte_of_string (Text16 n)).
    split; [reflexivity|].
    cbn [writeValue WriteByte bind]. rewrite writeString_app.
    now rewrite <- app_assoc.
  - destruct (writeAlignment_pads (pre ++ [z2b 6]) 8 ltac:(lia)) as (pad & Hw & _).
    exists 6, (pad ++ put_uint endian 8 x). split; [reflexivity|].
    cbn [writeValue WriteByte bind]. rewrite Hw. cbn [bind].
    unfold writeFloat64, Write. now rewrite <- !app_assoc.
  - exists 7, (size_enc endian (len (list_byte_of_string s))
               ++ list_byte_of_string s).
    split; [reflexivity|].
    cbn [writeValue WriteByte bind]. rewrite writeString_app.
    now rewrite <- app_assoc.
  - exists 8, (size_enc endian (len bs) ++ bs). split; [reflexivity|].
    cbn [writeValue WriteByte bind]. rewrite writeBytes_app.
    now rewrite <- app_assoc.
  - destruct (writes_slice pre 9 4 4 l ltac:(lia)) as (out & Hw).
    exists 9, out. split; [reflexivity|exact Hw].
  - destruct (writes_slice pre 10 8 8 l ltac:(lia)) as (out & Hw).
    exists 10, out. split; [reflexivity|exact Hw].
  - destruct (writes_slice pre 11 8 8 l ltac:(lia)) as (out & Hw).
    exists 11, out. split; [reflexivity|exact Hw].
  - pose proof (writes_elems l IH ((pre ++ [z2b 12]) ++ size_enc endian (len l))) as H.
    rewrite writeValue_VList. cbn [WriteByte bind].
    rewrite writeSize_app by apply len_nonneg. cbn [bind].
    destruct (first_unsupported (VList l)) as [T|].
    + exact H.
    + destruct H as (out & H). exists 12, (size_enc endian (len l) ++ out).
      split; [reflexivity|]. rewrite H. now rewrite <- !app_assoc.
  - pose proof (writes_pairs m IH ((pre ++ [z2b 13]) ++ size_enc endian (len m))) as H.
    rewrite writeValue_VMap. cbn [WriteByte bind].
    rewrite writeSize_app by apply len_nonneg. cbn [bind].
    destruct (first_unsupported (VMap m)) as [T|].
    + exact H.
    + destruct H as (out & H). exists 13, (size_enc endian (len m) ++ out).
      split; [reflexivity|]. rewrite H. now rewrite <- !app_assoc.
  - reflexivity.
Qed.

End WriterOutcome.

(** X8. [EncodeMessage] never panics and fails in one way only: when the
    value holds a value of an unsupported type, it returns the
    [MessageTypeError] naming the type of the first such value in writing
    order (list elements in order, each map key before its value), wrapped
    as "failed to encode message"; when it holds none, it returns bytes,
    whatever the lengths inside the value. *)
Theorem X8_encode_fails_only_on_unsupported_types (endian : ByteOrder)
  (v : Value) :
  (first_unsupported v = None -> exists data, EncodeMessage endian v = Ok data) /\
  (forall T,
     first_unsupported v = Some T ->
     EncodeMessage endian v
     = Err (ErrorsWrap (MessageTypeError (typeErrorMessage T))
              "failed to encode message")).
Proof.
  pose proof (writeValue_writes endian v []) as H. unfold EncodeMessage.
  split.
  - intros E. rewrite E in H. destruct H as (t & out & _ & H).
    rewrite H. now eexists.
  - intros T E. rewrite E in H. now rewrite H.
Qed.

Lemma X8_encode_fails_only_on_unsupported_types_witness :
  (exists data,
     EncodeMessage LittleEndian (VMap [(VString "k", VList [VNil])]) = Ok data) /\
  EncodeMessage LittleEndian
    (VList [VInt32 1; VMap [(VString "k", VOther "func()")]; VOther "int16"])
  = Err (ErrorsWrap
           (MessageTypeError "type func() is not supported by StandardMessageCodec")
           "failed to encode message").
Proof.
  split.
  - exact (proj1 (X8_encode_fails_only_on_unsupported_types LittleEndian
                    (VMap [(VString "k", VList [VNil])])) eq_refl).
  - exact (proj2 (X8_encode_fails_only_on_unsupported_types LittleEndian
                    (VList [VInt32 1; VMap [(VString "k", VOther "func()")];
                            VOther "int16"])) "func()"%string eq_refl).
Defined.

(** ** Tags *)

Lemma typeTag_range (v : Value) (t : Z) : typeTag v = Some t -> 0 <= t <= 13.
Proof.
  destruct v as [ | [|] | | | | | | | | | | | | ]; cbn; intros [= <-]; lia.
Qed.

Ltac inv_ok H :=
  repeat (first
    [ discriminate H
    | match type of H with
      | bind ?m _ = Ok _ => destruct m as [[? ?]| | |]; cbn [bind wrapErr] in H
      | (if ?c then _ else _) = Ok _ => destruct c
      | match ?o with Some _ => _ | None => _ end = Ok _ => destruct o
      end ]).

Lemma readValueAligned_tag (endian : ByteOrder) (fuel : nat) (buf : list byte)
  (orig : Z) (v : Value) (rest : list byte) :
  readValueAligned endian fuel buf orig = Ok (v, rest) ->
  exists b tl, buf = b :: tl /\ typeTag v = Some (b2z b).
Proof.
  destruct fuel as [|f]; [discriminate|].
  destruct buf as [|b buf]; [discriminate|].
  cbn [readValueAligned ReadByte wrapErr bind]. intros H.
  exists b, buf. split; [reflexivity|].
  pose proof (b2z_range b) as Hb.
  destruct (tag_cases (b2z b) ltac:(lia))
    as [E|[E|[E|[E|[E|[E|[E|[E|[E|[E|[E|[E|[E|[E|[Hgt Hdef]]]]]]]]]]]]]]];
    try (rewrite E in *; cbv beta iota zeta in H; inv_ok H;
         injection H as <- _; reflexivity).
  rewrite Hdef in H. discriminate.
Qed.

(** X9. The first byte of a message is the tag of its value, on both sides:
    the bytes [EncodeMessage] returns begin with the tag of the value it was
    given, and the value [DecodeMessage] returns is of the form whose tag is
    the first byte of the data. *)
Theorem X9_first_byte_is_the_tag (endian : ByteOrder) (v : Value)
  (data : list byte) :
  (EncodeMessage endian v = Ok data ->
   exists b rest, data = b :: rest /\ typeTag v = Some (b2z b)) /\
  (DecodeMessage endian data = Ok v ->
   exists b rest, data = b :: rest /\ typeTag v = Some (b2z b)).
Proof.
  split.
  - unfold EncodeMessage. intros H.
    pose proof (writeValue_writes endian v []) as Hw.
    destruct (first_unsupported v) as [T|].
    + rewrite Hw in H. discriminate.
    + destruct Hw as (t & out & Ht & Hw). rewrite Hw in H. cbn in H.
      injection H as <-. exists (z2b t), out. split; [reflexivity|].
      rewrite b2z_z2b_small; [exact Ht|]. apply typeTag_range in Ht. lia.
  - unfold DecodeMessage, readValue. intros H.
    destruct (readValueAligned endian (S (List.length data)) data (len data))
      as [[v' rest]| | |] eqn:E; cbn in H; try discriminate.
    injection H as <-. apply readValueAligned_tag in E.
    destruct E as (b & tl & -> & Ht). now exists b, tl.
Qed.

Lemma X9_first_byte_is_the_tag_witness :
  (exists b rest, [x07; x02; "h"; "i"]%byte = b :: rest
                  /\ typeTag (VString "hi") = Some (b2z b)) /\
  (exists b rest, [x07; x02; "h"; "i"]%byte = b :: rest
                  /\ typeTag (VString "hi") = Some (b2z b)).
Proof.
  split.
  - exact (proj1 (X9_first_byte_is_the_tag LittleEndian (VString "hi")
                    [x07; x02; "h"; "i"]%byte) eq_refl).
  - exact (proj2 (X9_first_byte_is_the_tag LittleEndian (VString "hi")
                    [x07; x02; "h"; "i"]%byte) eq_refl).
Defined.

(** ** Where payloads start *)

Lemma slice_layout (endian : ByteOrder) (pre : list byte) (tag a : Z) (w : nat)
  (l : list Z) :
  0 < a ->
  exists pad,
    (buf <- WriteByte pre tag ;;
     buf <- writeSize endian buf (len l) ;;
     buf <- writeAlignment buf a ;;
     binaryWriteSlice endian buf w l)
    = Ok (pre ++ z2b tag :: size_enc endian (len l) ++ pad
              ++ List.concat (map (put_uint endian w) l)) /\
    (len pre + 1 + len (size_enc endian (len l)) + len pad) mod a = 0 /\
    len pad < a /\ Forall (fun b => b = x00) pad.
Proof.
  intros Ha.
  destruct (writeAlignment_pads ((pre ++ [z2b tag]) ++ size_enc endian (len l)) a Ha)
    as (pad & Hw & Hz & Hl & Hm & _).
  exists pad. split; [|split; [|split]]; [| |exact Hl|exact Hz].
  - cbn [WriteByte bind]. rewrite writeSize_app by apply len_nonneg.
    cbn [bind]. rewrite Hw. cbn [bind]. unfold binaryWriteSlice, Write.
    now rewrite <- !app_assoc.
  - revert Hm. lens. intros Hm. rewrite <- Hm. f_equal; lia.
Qed.

(** X10. Wherever a float64 or a numeric slice is written in a message, its
    payload starts at a multiple of its element width from the start of the
    message (8 for float64, []int64 and []float64, 4 for []int32), and what
    stands between the tag or size and the payload is fewer than that many
    zero bytes. *)
Theorem X10_payloads_start_aligned (endian : ByteOrder) (pre : list byte) :
  (forall x,
     exists pad,
       writeValue endian pre (VFloat64 x)
       = Ok (pre ++ z2b 6 :: pad ++ put_uint endian 8 x) /\
       (len pre + 1 + len pad) mod 8 = 0 /\
       len pad < 8 /\ Forall (fun b => b = x00) pad) /\
  (forall l,
     exists pad,
       writeValue endian pre (VInt32Slice l)
       = Ok (pre ++ z2b 9 :: size_enc endian (len l) ++ pad
                 ++ List.concat (map (put_uint endian 4) l)) /\
       (len pre + 1 + len (size_enc endian (len l)) + len pad) mod 4 = 0 /\
       len pad < 4 /\ Forall (fun b => b = x00) pad) /\
  (forall l,
     exists pad,
       writeValue endian pre (VInt64Slice l)
       = Ok (pre ++ z2b 10 :: size_enc endian (len l) ++ pad
                 ++ List.concat (map (put_uint endian 8) l)) /\
       (len pre + 1 + len (size_enc endian (len l)) + len pad) mod 8 = 0 /\
       len pad < 8 /\ Forall (fun b => b = x00) pad) /\
  (forall l,
     exists pad,
       writeValue endian pre (VFloat64Slice l)
       = Ok (pre ++ z2b 11 :: size_enc endian (len l) ++ pad
                 ++ List.concat (map (put_uint endian 8) l)) /\
       (len pre + 1 + len (size_enc endian (len l)) + len pad) mod 8 = 0 /\
       len pad < 8 /\ Forall (fun b => b = x00) pad).
Proof.
  split; [|split; [|split]].
  - intros x.
    destruct (writeAlignment_pads (pre ++ [z2b 6]) 8 ltac:(lia))
      as (pad & Hw & Hz & Hl & Hm & _).
    exists pad. split; [|split; [|split]]; [| |exact Hl|exact Hz].
    + cbn [writeValue WriteByte bind]. rewrite Hw. cbn [bind].
      unfold writeFloat64, Write. now rewrite <- !app_assoc.
    + revert Hm. lens. intros Hm. rewrite <- Hm. f_equal; lia.
  - intros l. exact (slice_layout endian pre 9 4 4 l ltac:(lia)).
  - intros l. exact (slice_layout endian pre 10 8 8 l ltac:(lia)).
  - intros l. exact (slice_layout endian pre 11 8 8 l ltac:(lia)).
Qed.

(** ** Big integers on the wire *)

(** X11. A big-integer message is decoded by parsing its text in base 16:
    when the text parses, the integer is returned, and when it does not
    (no digit, a character that is not a sign in front or a hexadecimal
    digit), the message is rejected with "invalid binary encoding for
    bigint". *)
Theorem X11_bigint_text_is_parsed (endian : ByteOrder) (bs rest : list byte) :
  size_ok (len bs) = true ->
  DecodeMessage endian (z2b 5 :: size_enc endian (len bs) ++ bs ++ rest) =
    match SetString16 (string_of_list_byte bs) with
    | Some z => Ok (VBigInt z)
    | None =>
        Err (ErrorsWrap (ErrorsNew "invalid binary encoding for bigint")
               "failed to decode data to message")
    end.
Proof.
  intros Hs. unfold DecodeMessage, readValue.
  cbn [readValueAligned app ReadByte wrapErr bind].
  rewrite b2z_z2b_small by lia. cbv beta iota.
  rewrite readBytes_roundtrip by exact Hs. cbn [wrapErr bind].
  destruct (SetString16 (string_of_list_byte bs)); reflexivity.
Qed.

Lemma X11_bigint_text_is_parsed_witness :
  DecodeMessage LittleEndian [x05; x04; "0"; "x"; "1"; "f"]%byte
  = Err (ErrorsWrap (ErrorsNew "invalid binary encoding for bigint")
           "failed to decode data to message") /\
  DecodeMessage LittleEndian [x05; x03; "+"; "F"; "f"; x00]%byte
  = Ok (VBigInt 255).
Proof.
  split.
  - exact (X11_bigint_text_is_parsed LittleEndian ["0"; "x"; "1"; "f"]%byte []
             eq_refl).
  - exact (X11_bigint_text_is_parsed LittleEndian ["+"; "F"; "f"]%byte [x00]
             eq_refl).
Defined.

(** ** Messages cut short *)

Lemma ReadFull_short (n : Z) (q : list byte) :
  len q < n -> exists e, ReadFull n q = Err e.
Proof.
  intros H. unfold ReadFull. pose proof (len_nonneg q).
  destruct (Z.leb_spec n 0); [lia|].
  destruct (Z.leb_spec n (len q)); [lia|].
  destruct q; eexists; reflexivity.
Qed.

Lemma len_length {A} (l : list A) : len l = Z.of_nat (List.length l).
Proof.
  reflexivity.
Qed.

Lemma len_firstn_le {A} (k : nat) (l : list A) :
  (k <= List.length l)%nat -> len (firstn k l) = Z.of_nat k.
Proof.
  intros H. unfold len. rewrite length_firstn. lia.
Qed.

Lemma writeAlignment_align_pad (buf : list byte) (a : Z) :
  writeAlignment buf a = Ok (buf ++ align_pad (len buf) a).
Proof.
  unfold writeAlignment, align_pad.
  destruct (negb (Z.rem (len buf) a =? 0)); [reflexivity|].
  now rewrite app_nil_r.
Qed.

(** The reader's skip on a cut buffer: it takes what is there of the
    padding. *)
Lemma readAlignment_cut (n a : Z) (payload : list byte) (j : nat) :
  0 <= n -> 0 < a ->
  (j <= List.length (align_pad n a ++ payload))%nat ->
  readAlignment (firstn j (align_pad n a ++ payload)) (n + Z.of_nat j) a
  = firstn (j - List.length (align_pad n a)) payload.
Proof.
  intros Hn Ha Hj. unfold readAlignment.
  rewrite len_firstn_le by exact Hj.
  replace (n + Z.of_nat j - Z.of_nat j) with n by lia.
  unfold align_pad in *.
  pose proof (Z.rem_bound_pos n a Hn Ha) as Hm.
  destruct (Z.eqb_spec (Z.rem n a) 0) as [E|E]; cbn [negb] in *.
  - cbn [app List.length]. now rewrite Nat.sub_0_r.
  - set (pad := repeat x00 (Z.to_nat (a - Z.rem n a))) in *.
    assert (Hp : Z.of_nat (List.length pad) = a - Z.rem n a).
    { unfold pad. rewrite repeat_length. lia. }
    rewrite skipn_firstn_comm.
    replace (Z.to_nat (Z.min (a - Z.rem n a) (Z.of_nat j)))
      with (Nat.min (List.length pad) j) by lia.
    destruct (Nat.le_gt_cases j (List.length pad)) as [Hle|Hgt].
    + rewrite Nat.min_r by exact Hle.
      replace (j - j)%nat with 0%nat by lia.
      replace (j - List.length pad)%nat with 0%nat by lia. reflexivity.
    + rewrite Nat.min_l by lia.
      rewrite skipn_app, Nat.sub_diag, skipn_all. reflexivity.
Qed.

Section Truncation.
Variable endian : ByteOrder.

Lemma readSize_short (n : Z) (k : nat) :
  0 <= n -> (k < List.length (size_enc endian n))%nat ->
  exists e, readSize endian (firstn k (size_enc endian n)) = Err e.
Proof.
  intros Hn. rewrite size_enc_cases by exact Hn. unfold readSize.
  destruct (Z.ltb_spec n 254) as [H1|H1]; [|destruct (Z.leb_spec n 65535) as [H2|H2]];
    cbn [List.length]; intros Hk.
  - assert (k = 0%nat) by lia. subst k. eexists; reflexivity.
  - destruct k as [|k]; [eexists; reflexivity|].
    cbn [firstn ReadByte bind]. rewrite b2z_z2b_small by lia. cbn.
    unfold readInt16.
    destruct (ReadFull_short 2 (firstn k (put_uint endian 2 (int16 n)))) as (e & He).
    { unfold len. rewrite length_firstn, length_put_uint in *. lia. }
    rewrite He. eexists; reflexivity.
  - destruct k as [|k]; [eexists; reflexivity|].
    cbn [firstn ReadByte bind]. rewrite b2z_z2b_small by lia. cbn.
    unfold readInt32.
    destruct (ReadFull_short 4 (firstn k (put_uint endian 4 (int32 n)))) as (e & He).
    { unfold len. rewrite length_firstn, length_put_uint in *. lia. }
    rewrite He. eexists; reflexivity.
Qed.

(** Reading a size and what follows it from a cut buffer: either the size
    itself is cut, or the size is read and the cut is in what follows. *)
Lemma readSize_cut (n : Z) (body : list byte) (j : nat) :
  size_ok n = true ->
  (exists e, readSize endian (firstn j (size_enc endian n ++ body)) = Err e) \/
  ((List.length (size_enc endian n) <= j)%nat /\
   readSize endian (firstn j (size_enc endian n ++ body))
   = Ok (n, firstn (j - List.length (size_enc endian n)) body)).
Proof.
  intros Hs. pose proof (size_ok_nonneg n Hs) as Hn.
  rewrite firstn_app.
  destruct (Nat.lt_ge_cases j (List.length (size_enc endian n))) as [Hlt|Hge].
  - left. replace (j - List.length (size_enc endian n))%nat with 0%nat by lia.
    cbn [firstn]. rewrite app_nil_r. now apply readSize_short.
  - right. split; [exact Hge|].
    rewrite firstn_all2 by exact Hge. now apply readSize_writeSize_ok.
Qed.

Lemma readBytes_cut (bs : list byte) (j : nat) :
  size_ok (len bs) = true ->
  (j < List.length (size_enc endian (len bs) ++ bs))%nat ->
  exists e, readBytes endian (firstn j (size_enc endian (len bs) ++ bs)) = Err e.
Proof.
  intros Hs Hj. unfold readBytes.
  destruct (readSize_cut (len bs) bs j Hs) as [(e & He)|(Hge & He)]; rewrite He.
  - eexists; reflexivity.
  - cbn [wrapErr bind]. unfold Next.
    destruct (Z.ltb_spec (len bs) 0); [pose proof (len_nonneg bs); lia|].
    rewrite length_app in Hj.
    set (q := firstn (j - List.length (size_enc endian (len bs))) bs).
    assert (Hq : len q = Z.of_nat (j - List.length (size_enc endian (len bs)))).
    { unfold q. apply len_firstn_le. lia. }
    rewrite Z.min_r by (unfold len in *; lia).
    unfold len at 1. rewrite Nat2Z.id, firstn_all. cbn [bind].
    destruct (Z.eqb_spec (len q) (len bs)) as [E|E];
      [unfold len in *; lia|]. eexists; reflexivity.
Qed.

Lemma slice_cut (dec : list byte -> Z) (w : nat) (a p : Z) (l : list Z)
  (j : nat) (B : Type) (k : list Z * list byte -> outcome B) :
  size_ok (len l) = true -> l <> [] -> (0 < w)%nat -> 0 < a -> 0 <= p ->
  (j < List.length
         (size_enc endian (len l)
          ++ align_pad (p + len (size_enc endian (len l))) a
          ++ List.concat (map (put_uint endian w) l)))%nat ->
  exists e,
    ('(length, buf) <-
       readSize endian
         (firstn j
            (size_enc endian (len l)
             ++ align_pad (p + len (size_enc endian (len l))) a
             ++ List.concat (map (put_uint endian w) l))) ;;
     let buf := readAlignment buf (p + Z.of_nat j) a in
     x <- readSlice dec w length buf ;; k x) = Err e.
Proof.
  intros Hs Hl Hw Ha Hp Hj.
  destruct (readSize_cut (len l)
              (align_pad (p + len (size_enc endian (len l))) a
               ++ List.concat (map (put_uint endian w) l)) j Hs)
    as [(e & He)|(Hge & He)]; rewrite He.
  - eexists; reflexivity.
  - cbn [bind]. cbv zeta. rewrite length_app in Hj.
    replace (p + Z.of_nat j)
      with ((p + len (size_enc endian (len l)))
            + Z.of_nat (j - List.length (size_enc endian (len l))))
      by (change (len (size_enc endian (len l)))
            with (Z.of_nat (List.length (size_enc endian (len l)))); lia).
    rewrite readAlignment_cut; [|pose proof (len_nonneg (size_enc endian (len l))); lia|lia|lia].
    unfold readSlice.
    destruct (Z.ltb_spec (len l) 0); [pose proof (len_nonneg l); lia|].
    rewrite length_app in Hj.
    destruct (ReadFull_short (Z.of_nat w * len l)
                (firstn (j - List.length (size_enc endian (len l))
                         - List.length (align_pad (p + len (size_enc endian (len l))) a))
                   (List.concat (map (put_uint endian w) l)))) as (e & He').
    { unfold len at 1. rewrite length_firstn.
      pose proof (len_concat_put endian w l) as Hc. unfold len in Hc at 1.
      assert (0 < len l) by (destruct l; [contradiction|rewrite len_cons; pose proof (len_nonneg l); lia]).
      assert (0 < Z.of_nat w * len l) by nia. lia. }
    rewrite He'. eexists; reflexivity.
Qed.

Lemma layout_VFloat64 (pre : list byte) (x : Z) :
  writeValue endian pre (VFloat64 x)
  = Ok (pre ++ z2b 6 :: align_pad (len pre + 1) 8 ++ put_uint endian 8 x).
Proof.
  cbn [writeValue WriteByte bind]. rewrite writeAlignment_align_pad.
  cbn [bind]. unfold writeFloat64, Write.
  replace (len (pre ++ [z2b 6])) with (len pre + 1) by (lens; lia).
  now rewrite <- !app_assoc.
Qed.

Lemma layout_slice (pre : list byte) (tag a : Z) (w : nat) (l : list Z) :
  (buf <- WriteByte pre tag ;;
   buf <- writeSize endian buf (len l) ;;
   buf <- writeAlignment buf a ;;
   binaryWriteSlice endian buf w l)
  = Ok (pre ++ z2b tag :: size_enc endian (len l)
            ++ align_pad (len pre + 1 + len (size_enc endian (len l))) a
            ++ List.concat (map (put_uint endian w) l)).
Proof.
  cbn [WriteByte bind]. rewrite writeSize_app by apply len_nonneg.
  cbn [bind]. rewrite writeAlignment_align_pad. cbn [bind].
  unfold binaryWriteSlice, Write.
  replace (len ((pre ++ [z2b tag]) ++ size_enc endian (len l)))
    with (len pre + 1 + len (size_enc endian (len l))) by (lens; lia).
  now rewrite <- !app_assoc.
Qed.

Lemma same_out (pre o1 o2 : list byte) :
  @Ok (list byte) (pre ++ o1) = Ok (pre ++ o2) -> o1 = o2.
Proof.
  intros [= H]. now apply app_inv_head in H.
Qed.

Ltac cut_start k fuel Hk Hf :=
  intros k fuel Hk Hf; destruct fuel as [|fuel]; [lia|];
  destruct k as [|k]; [cbn; eexists; reflexivity|];
  cbn [List.length] in Hk; cbn [firstn];
  cbn [readValueAligned ReadByte wrapErr bind];
  rewrite b2z_z2b_small by lia; cbv beta iota.

(** Turns the round trip of a leaf into [cut_safe], given its layout. *)
Ltac leaf_with out Hround Hlay :=
  intros pre; exists out; split; [exact Hlay|]; split;
  [ destruct (Hround pre) as (o' & Hw' & Hrb');
    rewrite Hlay in Hw'; apply same_out in Hw'; subst o'; exact Hrb' | ].

Lemma cut_VNil : cut_safe endian VNil.
Proof.
  intros pre. exists [z2b 0]. split; [reflexivity|]. split.
  - destruct (roundtrip_VNil endian pre) as (o' & Hw' & Hrb').
    apply (same_out pre) in Hw'. now subst o'.
  - cut_start k fuel Hk Hf. lia.
Qed.

Lemma cut_VBool (b : bool) : cut_safe endian (VBool b).
Proof.
  intros pre. exists [z2b (if b then 1 else 2)]. split; [now destruct b|]. split.
  - destruct (roundtrip_VBool endian b pre) as (o' & Hw' & Hrb').
    assert (Hl : writeValue endian pre (VBool b) = Ok (pre ++ [z2b (if b then 1 else 2)]))
      by now destruct b.
    rewrite Hl in Hw'. apply same_out in Hw'. now subst o'.
  - intros k fuel Hk Hf. destruct fuel as [|fuel]; [lia|].
    cbn [List.length] in Hk. assert (k = 0%nat) by lia. subst k.
    cbn. eexists; reflexivity.
Qed.

Lemma cut_VInt32 (n : Z) : in_int32 n = true -> cut_safe endian (VInt32 n).
Proof.
  intros Hn pre. exists (z2b 3 :: put_uint endian 4 n).
  assert (Hl : writeValue endian pre (VInt32 n)
               = Ok (pre ++ z2b 3 :: put_uint endian 4 n)).
  { cbn [writeValue WriteByte bind]. unfold writeInt32, Write.
    now rewrite <- app_assoc. }
  split; [exact Hl|]. split.
  - destruct (roundtrip_VInt32 endian n Hn pre) as (o' & Hw' & Hrb').
    rewrite Hl in Hw'. apply same_out in Hw'. now subst o'.
  - cut_start k fuel Hk Hf. rewrite length_put_uint in Hk. unfold readInt32.
    destruct (ReadFull_short 4 (firstn k (put_uint endian 4 n))) as (e & He).
    { unfold len. rewrite length_firstn, length_put_uint. lia. }
    rewrite He. eexists; reflexivity.
Qed.

Lemma cut_VInt64 (n : Z) : in_int64 n = true -> cut_safe endian (VInt64 n).
Proof.
  intros Hn pre. exists (z2b 4 :: put_uint endian 8 n).
  assert (Hl : writeValue endian pre (VInt64 n)
               = Ok (pre ++ z2b 4 :: put_uint endian 8 n)).
  { cbn [writeValue WriteByte bind]. unfold writeInt64, Write.
    now rewrite <- app_assoc. }
  split; [exact Hl|]. split.
  - destruct (roundtrip_VInt64 endian n Hn pre) as (o' & Hw' & Hrb').
    rewrite Hl in Hw'. apply same_out in Hw'. now subst o'.
  - cut_start k fuel Hk Hf. rewrite length_put_uint in Hk. unfold readInt64.
    destruct (ReadFull_short 8 (firstn k (put_uint endian 8 n))) as (e & He).
    { unfold len. rewrite length_firstn, length_put_uint. lia. }
    rewrite He. eexists; reflexivity.
Qed.

Lemma cut_VFloat64 (x : Z) : in_uint64 x = true -> cut_safe endian (VFloat64 x).
Proof.
  intros Hx pre.
  exists (z2b 6 :: align_pad (len pre + 1) 8 ++ put_uint endian 8 x).
  split; [apply layout_VFloat64|]. split.
  - destruct (roundtrip_VFloat64 endian x Hx pre) as (o' & Hw' & Hrb').
    rewrite layout_VFloat64 in Hw'. apply same_out in Hw'. now subst o'.
  - cut_start k fuel Hk Hf.
    replace (len pre + Z.of_nat (S k)) with (len pre + 1 + Z.of_nat k) by lia.
    rewrite readAlignment_cut; [|pose proof (len_nonneg pre); lia|lia|lia].
    rewrite length_app, length_put_uint in Hk. unfold readFloat64.
    destruct (ReadFull_short 8
                (firstn (k - List.length (align_pad (len pre + 1) 8))
                   (put_uint endian 8 x))) as (e & He).
    { unfold len at 1. rewrite length_firstn, length_put_uint. lia. }
    rewrite He. eexists; reflexivity.
Qed.

Lemma cut_VString (s : string) :
  size_ok (len (list_byte_of_string s)) = true -> cut_safe endian (VString s).
Proof.
  intros Hs pre.
  exists (z2b 7 :: size_enc endian (len (list_byte_of_string s))
               ++ list_byte_of_string s).
  assert (Hl : writeValue endian pre (VString s)
               = Ok (pre ++ z2b 7 :: size_enc endian (len (list_byte_of_string s))
                         ++ list_byte_of_string s)).
  { cbn [writeValue WriteByte bind]. rewrite writeString_app.
    now rewrite <- app_assoc. }
  split; [exact Hl|]. split.
  - destruct (roundtrip_VString endian s Hs pre) as (o' & Hw' & Hrb').
    rewrite Hl in Hw'. apply same_out in Hw'. now subst o'.
  - cut_start k fuel Hk Hf.
    destruct (readBytes_cut (list_byte_of_string s) k Hs ltac:(lia)) as (e & He).
    rewrite He. eexists; reflexivity.
Qed.

Lemma cut_VBigInt (n : Z) :
  size_ok (len (list_byte_of_string (Text16 n))) = true ->
  cut_safe endian (VBigInt n).
Proof.
  intros Hs pre.
  exists (z2b 5 :: size_enc endian (len (list_byte_of_string (Text16 n)))
               ++ list_byte_of_string (Text16 n)).
  assert (Hl : writeValue endian pre (VBigInt n)
               = Ok (pre ++ z2b 5
                         :: size_enc endian (len (list_byte_of_string (Text16 n)))
                         ++ list_byte_of_string (Text16 n))).
  { cbn [writeValue WriteByte bind]. rewrite writeString_app.
    now rewrite <- app_assoc. }
  split; [exact Hl|]. split.
  - destruct (roundtrip_VBigInt endian n Hs pre) as (o' & Hw' & Hrb').
    rewrite Hl in Hw'. apply same_out in Hw'. now subst o'.
  - cut_start k fuel Hk Hf.
    destruct (readBytes_cut (list_byte_of_string (Text16 n)) k Hs ltac:(lia))
      as (e & He).
    rewrite He. eexists; reflexivity.
Qed.

Lemma cut_VBytes (bs : list byte) :
  size_ok (len bs) = true -> cut_safe endian (VBytes bs).
Proof.
  intros Hs pre. exists (z2b 8 :: size_enc endian (len bs) ++ bs).
  assert (Hl : writeValue endian pre (VBytes bs)
               = Ok (pre ++ z2b 8 :: size_enc endian (len bs) ++ bs)).
  { cbn [writeValue WriteByte bind]. rewrite writeBytes_app.
    now rewrite <- app_assoc. }
  split; [exact Hl|]. split.
  - destruct (roundtrip_VBytes endian bs Hs pre) as (o' & Hw' & Hrb').
    rewrite Hl in Hw'. apply same_out in Hw'. now subst o'.
  - cut_start k fuel Hk Hf.
    destruct (readBytes_cut bs k Hs ltac:(lia)) as (e & He).
    rewrite He. eexists; reflexivity.
Qed.

Lemma cut_VInt32Slice (l : list Z) :
  forallb in_int32 l = true -> size_ok (len l) = true -> l <> [] ->
  cut_safe endian (VInt32Slice l).
Proof.
  intros Hl Hs Hne pre.
  eexists. split; [exact (layout_slice pre 9 4 4 l)|]. split.
  - destruct (roundtrip_VInt32Slice endian l Hl Hs pre) as (o' & Hw' & Hrb').
    change (writeValue endian pre (VInt32Slice l))
      with (buf <- WriteByte pre 9 ;; buf <- writeSize endian buf (len l) ;;
            buf <- writeAlignment buf 4 ;; binaryWriteSlice endian buf 4 l) in Hw'.
    rewrite layout_slice in Hw'. apply same_out in Hw'. now subst o'.
  - cut_start k fuel Hk Hf.
    replace (len pre + Z.of_nat (S k)) with (len pre + 1 + Z.of_nat k) by lia.
    apply slice_cut; try assumption; try lia. pose proof (len_nonneg pre). lia.
Qed.

Lemma cut_VInt64Slice (l : list Z) :
  forallb in_int64 l = true -> size_ok (len l) = true -> l <> [] ->
  cut_safe endian (VInt64Slice l).
Proof.
  intros Hl Hs Hne pre.
  eexists. split; [exact (layout_slice pre 10 8 8 l)|]. split.
  - destruct (roundtrip_VInt64Slice endian l Hl Hs pre) as (o' & Hw' & Hrb').
    change (writeValue endian pre (VInt64Slice l))
      with (buf <- WriteByte pre 10 ;; buf <- writeSize endian buf (len l) ;;
            buf <- writeAlignment buf 8 ;; binaryWriteSlice endian buf 8 l) in Hw'.
    rewrite layout_slice in Hw'. apply same_out in Hw'. now subst o'.
  - cut_start k fuel Hk Hf.
    replace (len pre + Z.of_nat (S k)) with (len pre + 1 + Z.of_nat k) by lia.
    apply slice_cut; try assumption; try lia. pose proof (len_nonneg pre). lia.
Qed.

Lemma cut_VFloat64Slice (l : list Z) :
  forallb in_uint64 l = true -> size_ok (len l) = true -> l <> [] ->
  cut_safe endian (VFloat64Slice l).
Proof.
  intros Hl Hs Hne pre.
  eexists. split; [exact (layout_slice pre 11 8 8 l)|]. split.
  - destruct (roundtrip_VFloat64Slice endian l Hl Hs pre) as (o' & Hw' & Hrb').
    change (writeValue endian pre (VFloat64Slice l))
      with (buf <- WriteByte pre 11 ;; buf <- writeSize endian buf (len l) ;;
            buf <- writeAlignment buf 8 ;; binaryWriteSlice endian buf 8 l) in Hw'.
    rewrite layout_slice in Hw'. apply same_out in Hw'. now subst o'.
  - cut_start k fuel Hk Hf.
    replace (len pre + Z.of_nat (S k)) with (len pre + 1 + Z.of_nat k) by lia.
    apply slice_cut; try assumption; try lia. pose proof (len_nonneg pre). lia.
Qed.

Lemma elems_cut (l : list Value) :
  Forall (cut_safe endian) l ->
  forall pre, exists outs,
    writeElems endian l pre = Ok (pre ++ outs) /\
    forall j f1 f2 i n acc,
      (j < List.length outs)%nat -> (j < f1)%nat -> (j < f2)%nat ->
      n = i + len l ->
      exists e,
        readListLoop
          (fun b => readValueAligned endian f1 b (len pre + Z.of_nat j))
          f2 i n (firstn j outs) acc
        = Err e.
Proof.
  induction 1 as [|x l Hx _ IH]; intros pre.
  - exists []. split; [cbn; now rewrite app_nil_r|].
    intros j f1 f2 i n acc Hj. cbn in Hj. lia.
  - destruct (Hx pre) as (ox & Hwx & [Hlx Hrx] & Htx).
    destruct (IH (pre ++ ox)) as (ol & Hwl & Hcl).
    exists (ox ++ ol). split.
    + cbn [writeElems]. rewrite Hwx. cbn [bind]. rewrite Hwl.
      now rewrite <- app_assoc.
    + intros j f1 f2 i n acc Hj Hf1 Hf2 ->. rewrite length_app in Hj.
      destruct f2 as [|f2]; [lia|]. cbn [readListLoop]. rewrite len_cons.
      destruct (Z.ltb_spec i (i + (1 + len l)));
        [|pose proof (len_nonneg l); lia].
      rewrite firstn_app.
      destruct (Nat.lt_ge_cases j (List.length ox)) as [Hlt|Hge].
      * replace (j - List.length ox)%nat with 0%nat by lia.
        cbn [firstn]. rewrite app_nil_r.
        destruct (Htx j f1 Hlt Hf1) as (e & He). rewrite He.
        eexists; reflexivity.
      * rewrite firstn_all2 by exact Hge.
        rewrite Hrx;
          [|rewrite len_firstn_le by lia; unfold len; lia|lia].
        cbn [bind].
        destruct (Hcl (j - List.length ox)%nat f1 f2 (i + 1) (i + (1 + len l))
                    (acc ++ [x]) ltac:(lia) ltac:(lia) ltac:(lia) ltac:(lia))
          as (e & He).
        replace (len (pre ++ ox) + Z.of_nat (j - List.length ox))
          with (len pre + Z.of_nat j) in He by (lens; unfold len; lia).
        rewrite He. eexists; reflexivity.
Qed.

Lemma pairs_cut (m : list (Value * Value)) :
  Forall (fun kv => cut_safe endian (fst kv) /\ cut_safe endian (snd kv)) m ->
  forallb (fun kv => hashable (fst kv)) m = true ->
  forall pre, exists outs,
    writePairs endian m pre = Ok (pre ++ outs) /\
    forall j f1 f2 i n acc,
      (j < List.length outs)%nat -> (j < f1)%nat -> (j < f2)%nat ->
      n = i + len m ->
      exists e,
        readMapLoop
          (fun b => readValueAligned endian f1 b (len pre + Z.of_nat j))
          f2 i n (firstn j outs) acc
        = Err e.
Proof.
  induction 1 as [|[k x] m [Hk Hx] _ IH]; intros Hh pre.
  - exists []. split; [cbn; now rewrite app_nil_r|].
    intros j f1 f2 i n acc Hj. cbn in Hj. lia.
  - cbn [forallb fst] in Hh. apply andb_true_iff in Hh as [Hhk Hh].
    cbn [fst snd] in Hk, Hx.
    destruct (Hk pre) as (ok & Hwk & [Hlk Hrk] & Htk).
    destruct (Hx (pre ++ ok)) as (ox & Hwx & [Hlx Hrx] & Htx).
    destruct (IH Hh ((pre ++ ok) ++ ox)) as (om & Hwm & Hcm).
    exists (ok ++ ox ++ om). split.
    + cbn [writePairs]. rewrite Hwk. cbn [bind]. rewrite Hwx. cbn [bind].
      rewrite Hwm. now rewrite <- !app_assoc.
    + intros j f1 f2 i n acc Hj Hf1 Hf2 ->. rewrite !length_app in Hj.
      destruct f2 as [|f2]; [lia|]. cbn [readMapLoop]. rewrite len_cons.
      destruct (Z.ltb_spec i (i + (1 + len m)));
        [|pose proof (len_nonneg m); lia].
      rewrite firstn_app.
      destruct (Nat.lt_ge_cases j (List.length ok)) as [Hlt|Hge].
      * replace (j - List.length ok)%nat with 0%nat by lia.
        cbn [firstn]. rewrite app_nil_r.
        destruct (Htk j f1 Hlt Hf1) as (e & He). rewrite He.
        eexists; reflexivity.
      * rewrite firstn_all2 by exact Hge.
        rewrite Hrk;
          [|rewrite len_firstn_le by (rewrite length_app; lia); unfold len; lia|lia].
        cbn [bind]. rewrite firstn_app.
        destruct (Nat.lt_ge_cases (j - List.length ok) (List.length ox)) as [Hlt|Hge'].
        -- replace (j - List.length ok - List.length ox)%nat with 0%nat by lia.
           cbn [firstn]. rewrite app_nil_r.
           destruct (Htx (j - List.length ok)%nat f1 Hlt ltac:(lia)) as (e & He).
           replace (len (pre ++ ok) + Z.of_nat (j - List.length ok))
             with (len pre + Z.of_nat j) in He by (lens; unfold len; lia).
           rewrite He. eexists; reflexivity.
        -- rewrite firstn_all2 by exact Hge'.
           rewrite Hrx;
             [|rewrite len_firstn_le by lia; lens; unfold len; lia|lia].
           cbn [bind]. unfold mapassign. rewrite Hhk. cbn [bind].
           destruct (Hcm (j - List.length ok - List.length ox)%nat f1 f2 (i + 1)
                       (i + (1 + len m)) (mapstore acc k x)
                       ltac:(lia) ltac:(lia) ltac:(lia) ltac:(lia))
             as (e & He).
           replace (len ((pre ++ ok) ++ ox)
                    + Z.of_nat (j - List.length ok - List.length ox))
             with (len pre + Z.of_nat j) in He by (lens; unfold len; lia).
           rewrite He. eexists; reflexivity.
Qed.

(** Cut anywhere before its end, the encoding of a value that holds no
    empty numeric slice is refused by the reader. *)
Lemma cut_value (v : Value) :
  supported v = true -> valid_maps v = true -> sizes_ok v = true ->
  no_empty_slices v = true -> cut_safe endian v.
Proof.
  induction v as [ | b | n | n | n | x | s | bs | l | l | l | l IH | m IH | T ]
    using Value_nested_ind;
    cbn [supported valid_maps sizes_ok no_empty_slices];
    intros Hsup Hmaps Hsz Hne.
  - apply cut_VNil.
  - apply cut_VBool.
  - now apply cut_VInt32.
  - now apply cut_VInt64.
  - now apply cut_VBigInt.
  - now apply cut_VFloat64.
  - now apply cut_VString.
  - now apply cut_VBytes.
  - apply cut_VInt32Slice; try assumption. now destruct l.
  - apply cut_VInt64Slice; try assumption. now destruct l.
  - apply cut_VFloat64Slice; try assumption. now destruct l.
  - pose proof (roundtrip_value endian (VList l) Hsup Hmaps Hsz) as Hround.
    apply andb_true_iff in Hsz as [Hn Hsz].
    assert (Hall : Forall (cut_safe endian) l).
    { rewrite Forall_forall in IH. apply Forall_forall. intros x Hx.
      rewrite forallb_forall in Hsup, Hmaps, Hsz, Hne. apply IH; auto. }
    intros pre.
    destruct (elems_cut l Hall ((pre ++ [z2b 12]) ++ size_enc endian (len l)))
      as (outs & Hw & Hcut).
    assert (Hl : writeValue endian pre (VList l)
                 = Ok (pre ++ z2b 12 :: size_enc endian (len l) ++ outs)).
    { rewrite writeValue_VList. cbn [WriteByte bind].
      rewrite writeSize_app by apply len_nonneg. cbn [bind]. rewrite Hw.
      now rewrite <- !app_assoc. }
    exists (z2b 12 :: size_enc endian (len l) ++ outs).
    split; [exact Hl|]. split.
    + destruct (Hround pre) as (o' & Hw' & Hrb').
      rewrite Hl in Hw'. apply same_out in Hw'. now subst o'.
    + cut_start k fuel Hk Hf.
      destruct (readSize_cut (len l) outs k Hn) as [(e & He)|(Hge & He)];
        rewrite He; [eexists; reflexivity|].
      cbn [bind].
      destruct (Z.ltb_spec (len l) 0); [pose proof (len_nonneg l); lia|].
      rewrite length_app in Hk.
      destruct (Hcut (k - List.length (size_enc endian (len l)))%nat fuel fuel 0
                  (len l) [] ltac:(lia) ltac:(lia) ltac:(lia) ltac:(lia))
        as (e & He').
      replace (len ((pre ++ [z2b 12]) ++ size_enc endian (len l))
               + Z.of_nat (k - List.length (size_enc endian (len l))))
        with (len pre + Z.of_nat (S k)) in He'
        by (lens; pose proof (len_length (size_enc endian (len l))); lia).
      rewrite He'. eexists; reflexivity.
  - pose proof (roundtrip_value endian (VMap m) Hsup Hmaps Hsz) as Hround.
    apply andb_true_iff in Hsz as [Hn Hsz].
    apply andb_true_iff in Hmaps as [Hmaps Hd].
    assert (Hall : Forall (fun kv => cut_safe endian (fst kv)
                                     /\ cut_safe endian (snd kv)) m).
    { rewrite Forall_forall in IH. apply Forall_forall. intros [k x] Hx.
      rewrite forallb_forall in Hsup, Hmaps, Hsz, Hne.
      specialize (IH _ Hx). specialize (Hsup _ Hx). specialize (Hmaps _ Hx).
      specialize (Hsz _ Hx). specialize (Hne _ Hx). cbn [fst snd] in *.
      apply andb_true_iff in Hsup as [? ?].
      apply andb_true_iff in Hmaps as [Hm1 ?].
      apply andb_true_iff in Hm1 as [? ?].
      apply andb_true_iff in Hsz as [? ?].
      apply andb_true_iff in Hne as [? ?].
      destruct IH as [IHk IHx]. split; auto. }
    assert (Hh : forallb (fun kv => hashable (fst kv)) m = true).
    { apply forallb_forall. intros [k x] Hx.
      rewrite forallb_forall in Hmaps. specialize (Hmaps _ Hx). cbn in *.
      apply andb_true_iff in Hmaps as [Hm1 _].
      now apply andb_true_iff in Hm1 as [? _]. }
    intros pre.
    destruct (pairs_cut m Hall Hh ((pre ++ [z2b 13]) ++ size_enc endian (len m)))
      as (outs & Hw & Hcut).
    assert (Hl : writeValue endian pre (VMap m)
                 = Ok (pre ++ z2b 13 :: size_enc endian (len m) ++ outs)).
    { rewrite writeValue_VMap. cbn [WriteByte bind].
      rewrite writeSize_app by apply len_nonneg. cbn [bind]. rewrite Hw.
      now rewrite <- !app_assoc. }
    exists (z2b 13 :: size_enc endian (len m) ++ outs).
    split; [exact Hl|]. split.
    + destruct (Hround pre) as (o' & Hw' & Hrb').
      rewrite Hl in Hw'. apply same_out in Hw'. now subst o'.
    + cut_start k fuel Hk Hf.
      destruct (readSize_cut (len m) outs k Hn) as [(e & He)|(Hge & He)];
        rewrite He; [eexists; reflexivity|].
      cbn [bind]. rewrite length_app in Hk.
      destruct (Hcut (k - List.length (size_enc endian (len m)))%nat fuel fuel 0
                  (len m) [] ltac:(lia) ltac:(lia) ltac:(lia) ltac:(lia))
        as (e & He').
      replace (len ((pre ++ [z2b 13]) ++ size_enc endian (len m))
               + Z.of_nat (k - List.length (size_enc endian (len m))))
        with (len pre + Z.of_nat (S k)) in He'
        by (lens; pose proof (len_length (size_enc endian (len m))); lia).
      rewrite He'. eexists; reflexivity.
  - discriminate.
Qed.

End Truncation.

(** The missing padding of an empty numeric slice is not missed: the
    encoding of the empty []int32 is four bytes, and its first two decode to
    the same value. *)
Lemma cut_empty_slice_is_accepted (endian : ByteOrder) :
  EncodeMessage endian (VInt32Slice []) = Ok [x09; x00; x00; x00] /\
  DecodeMessage endian [x09; x00] = Ok (VInt32Slice []).
Proof.
  destruct endian; split; vm_compute; reflexivity.
Qed.

(** X12. A message cut short is refused: for a round-tripping value that
    holds no empty numeric slice, [DecodeMessage] returns an error, not a
    value and not a panic, on every proper beginning of the encoding. *)
Theorem X12_cut_message_is_an_error (endian : ByteOrder) (v : Value)
  (data : list byte) (k : nat) :
  supported v = true -> valid_maps v = true -> sizes_ok v = true ->
  no_empty_slices v = true ->
  EncodeMessage endian v = Ok data ->
  (k < List.length data)%nat ->
  exists e, DecodeMessage endian (firstn k data) = Err e.
Proof.
  intros Hs Hm Hz Hne He Hk.
  destruct (cut_value endian v Hs Hm Hz Hne []) as (out & Hw & _ & Ht).
  unfold EncodeMessage in He. rewrite Hw in He. cbn in He. injection He as <-.
  destruct (Ht k (S k) Hk ltac:(lia)) as (e & Hr).
  unfold DecodeMessage, readValue.
  rewrite len_firstn_le by lia. rewrite length_firstn, Nat.min_l by lia.
  rewrite len_nil in Hr. cbn [Z.add] in Hr. rewrite Hr.
  eexists; reflexivity.
Qed.

Lemma X12_cut_message_is_an_error_witness :
  exists e,
    DecodeMessage LittleEndian
      (firstn 6 [x0c; x02; x00; x03; x07; x00; x00; x00]) = Err e.
Proof.
  exact (X12_cut_message_is_an_error LittleEndian (VList [VNil; VInt32 7])
           [x0c; x02; x00; x03; x07; x00; x00; x00] 6
           eq_refl eq_refl eq_refl eq_refl eq_refl ltac:(cbn; lia)).
Defined.

(** ** The maps the reader builds *)

Lemma mapstore_keys (m : gomap) (k x q : Value) :
  In q (map fst (mapstore m k x)) -> q = k \/ In q (map fst m).
Proof.
  induction m as [|[k' v'] m IH]; cbn [mapstore map fst In].
  - intros [<-|[]]. now left.
  - destruct (go_eq k' k); cbn [map fst In].
    + intros [<-|H]; [now left|right; now right].
    + intros [<-|H]; [right; now left|].
      destruct (IH H) as [->|H']; [now left|right; now right].
Qed.

Lemma distinct_mapstore (m : gomap) (k x : Value) :
  distinct_keys (map fst m) = true ->
  distinct_keys (map fst (mapstore m k x)) = true.
Proof.
  induction m as [|[k' v'] m IH]; cbn [mapstore map fst distinct_keys];
    [reflexivity|].
  intros H. apply andb_true_iff in H as [H1 H2]. rewrite forallb_forall in H1.
  destruct (go_eq k' k) eqn:E; cbn [map fst distinct_keys];
    apply andb_true_iff; split.
  - apply forallb_forall. intros q Hq. specialize (H1 q Hq).
    destruct (go_eq k q) eqn:Eq; [|reflexivity].
    now rewrite (go_eq_trans _ _ _ E Eq) in H1.
  - exact H2.
  - apply forallb_forall. intros q Hq.
    destruct (mapstore_keys m k x q Hq) as [->|Hin].
    + now rewrite E.
    + now apply H1.
  - now apply IH.
Qed.

Lemma mapstore_valid (m : gomap) (k x : Value) :
  valid_entries m = true -> hashable k = true ->
  valid_maps k = true -> valid_maps x = true ->
  valid_entries (mapstore m k x) = true.
Proof.
  unfold valid_entries. intros H Hh Hk Hx.
  apply andb_true_iff in H as [H1 H2]. apply andb_true_iff. split.
  - clear H2. induction m as [|[k' v'] m IH]; cbn [mapstore forallb] in *.
    + now rewrite Hh, Hk, Hx.
    + apply andb_true_iff in H1 as [Ha Hb].
      destruct (go_eq k' k); cbn [forallb].
      * now rewrite Hh, Hk, Hx, Hb.
      * now rewrite Ha, IH.
  - now apply distinct_mapstore.
Qed.

Section ReaderValidMaps.
Variable endian : ByteOrder.

Lemma post_readListLoop_valid (read : list byte -> outcome (Value * list byte))
  (f : nat) :
  (forall b, (List.length b < f)%nat ->
             consumes (read b) b (fun v => valid_maps v = true)) ->
  forall g i n buf acc,
    (List.length buf < f)%nat -> (List.length buf < g)%nat ->
    forallb valid_maps acc = true ->
    post (readListLoop read g i n buf acc) buf
      (fun l => forallb valid_maps l = true).
Proof.
  intros Hread. induction g as [|g IH]; intros i n buf acc Hf Hg Hacc; [lia|].
  cbn [readListLoop]. destruct (i <? n); [|cbn; split; [assumption|lia]].
  specialize (Hread buf Hf).
  destruct (read buf) as [[v b']| | |]; cbn [bind] in *; auto.
  cbn in Hread. destruct Hread as [Hv Hl].
  eapply post_weaken; [apply IH|]; try lia.
  rewrite forallb_app. cbn. now rewrite Hacc, Hv.
Qed.

Lemma post_readMapLoop_valid (read : list byte -> outcome (Value * list byte))
  (f : nat) :
  (forall b, (List.length b < f)%nat ->
             consumes (read b) b (fun v => valid_maps v = true)) ->
  forall g i n buf acc,
    (List.length buf < f)%nat -> (List.length buf < g)%nat ->
    valid_entries acc = true ->
    post (readMapLoop read g i n buf acc) buf
      (fun m => valid_entries m = true).
Proof.
  intros Hread. induction g as [|g IH]; intros i n buf acc Hf Hg Hacc; [lia|].
  cbn [readMapLoop]. destruct (i <? n); [|cbn; split; [assumption|lia]].
  pose proof (Hread buf Hf) as Hk.
  destruct (read buf) as [[k b1]| | |]; cbn [bind] in *; auto.
  cbn in Hk. destruct Hk as [Hk Hl1].
  pose proof (Hread b1 ltac:(lia)) as Hv.
  destruct (read b1) as [[v b2]| | |]; cbn [bind] in *; auto.
  cbn in Hv. destruct Hv as [Hv Hl2].
  unfold mapassign. destruct (hashable k) eqn:Hh; cbn [bind]; [|exact I].
  eapply post_weaken; [apply IH|]; try lia.
  now apply mapstore_valid.
Qed.

(** Every map in a value the reader returns is a valid Go map. *)
Lemma readValueAligned_valid_maps (fuel : nat) :
  forall buf orig,
    (List.length buf < fuel)%nat ->
    consumes (readValueAligned endian fuel buf orig) buf
      (fun v => valid_maps v = true).
Proof.
  induction fuel as [|f IH]; intros buf orig Hf; [lia|].
  destruct buf as [|b buf]; [cbn; auto|].
  cbn [List.length] in Hf.
  cbn [readValueAligned ReadByte wrapErr bind].
  apply post_consumes.
  pose proof (b2z_range b) as Hb.
  destruct (tag_cases (b2z b) ltac:(lia))
    as [E|[E|[E|[E|[E|[E|[E|[E|[E|[E|[E|[E|[E|[E|[Hgt Hdef]]]]]]]]]]]]]]];
    try (rewrite E; cbv beta iota).
  - cbn. split; [reflexivity|lia].
  - cbn. split; [reflexivity|lia].
  - cbn. split; [reflexivity|lia].
  - eapply post_bind; [apply post_readInt32|].
    intros v b' _ Hl. cbn. split; [reflexivity|lia].
  - eapply post_bind; [apply post_readInt64|].
    intros v b' _ Hl. cbn. split; [reflexivity|lia].
  - eapply post_bind; [apply post_wrapErr, post_readBytes|].
    intros bs b' _ Hl.
    destruct (SetString16 _); cbn; [split; [reflexivity|lia]|reflexivity].
  - eapply post_weaken; [|apply (readAlignment_length buf orig 8)].
    eapply post_bind; [apply post_readFloat64|].
    intros v b' _ Hl. cbn. split; [reflexivity|lia].
  - eapply post_bind; [apply post_wrapErr, post_readBytes|].
    intros bs b' _ Hl. cbn. split; [reflexivity|lia].
  - eapply post_bind; [apply post_wrapErr, post_readBytes|].
    intros bs b' _ Hl. cbn. split; [reflexivity|lia].
  - eapply post_bind; [apply post_readSize|]. intros n b1 _ Hl1. cbv zeta.
    eapply post_weaken; [|apply (readAlignment_length b1 orig 4)].
    eapply post_bind; [apply (post_readSlice _ _ _ _ (fun _ => true))|].
    + reflexivity.
    + intros l b' _ Hl. cbn. split; [reflexivity|lia].
  - eapply post_bind; [apply post_readSize|]. intros n b1 _ Hl1. cbv zeta.
    eapply post_weaken; [|apply (readAlignment_length b1 orig 8)].
    eapply post_bind; [apply (post_readSlice _ _ _ _ (fun _ => true))|].
    + reflexivity.
    + intros l b' _ Hl. cbn. split; [reflexivity|lia].
  - eapply post_bind; [apply post_readSize|]. intros n b1 _ Hl1. cbv zeta.
    eapply post_weaken; [|apply (readAlignment_length b1 orig 8)].
    eapply post_bind; [apply (post_readSlice _ _ _ _ (fun _ => true))|].
    + reflexivity.
    + intros l b' _ Hl. cbn. split; [reflexivity|lia].
  - eapply post_bind; [apply post_readSize|]. intros n b1 _ Hl1.
    destruct (n <? 0); [exact I|].
    eapply post_bind.
    + apply (post_readListLoop_valid _ f);
        [intros b0 Hb0; apply IH; exact Hb0|lia|lia|reflexivity].
    + intros l b' Hv Hl. cbn. split; [exact Hv|lia].
  - eapply post_bind; [apply post_readSize|]. intros n b1 _ Hl1.
    eapply post_bind.
    + apply (post_readMapLoop_valid _ f);
        [intros b0 Hb0; apply IH; exact Hb0|lia|lia|reflexivity].
    + intros m b' Hv Hl. cbn. split; [exact Hv|lia].
  - rewrite Hdef. cbn. reflexivity.
Qed.

Lemma DecodeMessage_valid_maps (data : list byte) (v : Value) :
  DecodeMessage endian data = Ok v -> valid_maps v = true.
Proof.
  unfold DecodeMessage, readValue.
  pose proof (readValueAligned_valid_maps (S (List.length data)) data (len data)
                ltac:(lia)) as H.
  destruct (readValueAligned endian (S (List.length data)) data (len data))
    as [[v' b]| | |]; cbn in *; try discriminate.
  intros [= <-]. apply H.
Qed.

End ReaderValidMaps.

(** X13. What was decoded can be encoded again: every map in a decoded value
    has hashable keys no two of which are equal, and when the lengths in the
    decoded value are below 2^15 or from 2^16 to 2^31 - 1, [EncodeMessage]
    accepts the value and [DecodeMessage] returns it from the new bytes. The
    new bytes need not be the ones that were decoded. *)
Theorem X13_decoded_value_encodes_again (endian : ByteOrder)
  (data : list byte) (v : Value) :
  DecodeMessage endian data = Ok v ->
  valid_maps v = true /\
  (sizes_ok v = true ->
   exists data',
     EncodeMessage endian v = Ok data' /\ DecodeMessage endian data' = Ok v).
Proof.
  intros H. pose proof (DecodeMessage_valid_maps endian data v H) as Hm.
  split; [exact Hm|]. intros Hz.
  destruct (DecodeMessage_EncodeMessage endian v
              (DecodeMessage_supported endian data v H) Hm Hz)
    as (data' & He & Hd).
  exists data'. split; [exact He|]. specialize (Hd []).
  now rewrite app_nil_r in Hd.
Qed.

Lemma X13_decoded_value_encodes_again_witness :
  valid_maps (VMap [(VInt32 1, VBigInt 255)]) = true /\
  exists data',
    EncodeMessage LittleEndian (VMap [(VInt32 1, VBigInt 255)]) = Ok data' /\
    DecodeMessage LittleEndian data' = Ok (VMap [(VInt32 1, VBigInt 255)]).
Proof.
  destruct (X13_decoded_value_encodes_again LittleEndian
              [x0d; x02; x03; x01; x00; x00; x00; x00;
               x03; x01; x00; x00; x00; x05; x03; "+"; "F"; "f"]%byte
              (VMap [(VInt32 1, VBigInt 255)]) eq_refl) as [Hm Hre].
  split; [exact Hm|]. exact (Hre eq_refl).
Defined.

(** ** The place of a value in a message *)

Lemma align_pad_congr (n1 n2 a : Z) :
  0 <= n1 -> 0 <= n2 -> 0 < a -> n1 mod a = n2 mod a ->
  align_pad n1 a = align_pad n2 a.
Proof.
  intros H1 H2 Ha E. unfold align_pad.
  rewrite !Z.rem_mod_nonneg by lia. now rewrite E.
Qed.

Lemma mod8_shift (n1 n2 c a : Z) :
  a = 4 \/ a = 8 -> n1 mod 8 = n2 mod 8 -> (n1 + c) mod a = (n2 + c) mod a.
Proof.
  intros Ha E.
  pose proof (Z.div_mod n1 8 ltac:(lia)) as H1.
  pose proof (Z.div_mod n2 8 ltac:(lia)) as H2.
  destruct Ha; subst a.
  - replace (n1 + c) with (n2 + c + (2 * (n1 / 8 - n2 / 8)) * 4) by lia.
    apply Z.mod_add. lia.
  - replace (n1 + c) with (n2 + c + (n1 / 8 - n2 / 8) * 8) by lia.
    apply Z.mod_add. lia.
Qed.

Section Relocation.
Variable endian : ByteOrder.

Lemma relocatable_const (v : Value) (c : list byte) :
  (forall pre, writeValue endian pre v = Ok (pre ++ c)) ->
  relocatable endian v.
Proof.
  intros Hc pre1 pre2 out _ Hw. rewrite Hc in Hw. apply same_out in Hw.
  subst out. apply Hc.
Qed.

Lemma relocatable_slice (v : Value) (tag a : Z) (w : nat) (l : list Z) :
  (a = 4 \/ a = 8) ->
  (forall pre,
     writeValue endian pre v
     = (buf <- WriteByte pre tag ;;
        buf <- writeSize endian buf (len l) ;;
        buf <- writeAlignment buf a ;;
        binaryWriteSlice endian buf w l)) ->
  relocatable endian v.
Proof.
  intros Ha Hv pre1 pre2 out E Hw.
  rewrite Hv, layout_slice in Hw. apply same_out in Hw. subst out.
  rewrite Hv, layout_slice. do 4 f_equal.
  pose proof (len_nonneg pre1). pose proof (len_nonneg pre2).
  pose proof (len_nonneg (size_enc endian (len l))).
  rewrite (align_pad_congr (len pre1 + 1 + len (size_enc endian (len l)))
             (len pre2 + 1 + len (size_enc endian (len l))) a);
    [reflexivity|lia|lia|destruct Ha; lia|].
  rewrite <- !Z.add_assoc. now apply mod8_shift.
Qed.

Lemma relocatable_elems (l : list Value) :
  Forall (relocatable endian) l ->
  forall pre1 pre2 outs,
    len pre1 mod 8 = len pre2 mod 8 ->
    writeElems endian l pre1 = Ok (pre1 ++ outs) ->
    writeElems endian l pre2 = Ok (pre2 ++ outs).
Proof.
  induction 1 as [|x l Hx _ IH]; intros pre1 pre2 outs E Hw.
  - cbn in *. rewrite <- (app_nil_r pre1) in Hw at 1. apply same_out in Hw.
    subst outs. now rewrite app_nil_r.
  - cbn [writeElems] in *.
    pose proof (writeValue_writes endian x pre1) as Hx1.
    destruct (first_unsupported x) as [T|]; [rewrite Hx1 in Hw; discriminate|].
    destruct Hx1 as (t & ox & _ & Hx1). rewrite Hx1 in Hw. cbn [bind] in Hw.
    rewrite (Hx pre1 pre2 _ E Hx1). cbn [bind].
    pose proof (fun Hl => writes_elems endian l Hl (pre1 ++ z2b t :: ox)) as Hl1.
    assert (Hall : Forall (writes endian) l)
      by (apply Forall_forall; intros; apply writeValue_writes).
    specialize (Hl1 Hall).
    destruct (first_unsupported (VList l)) as [T|]; [rewrite Hl1 in Hw; discriminate|].
    destruct Hl1 as (ol & Hl1). rewrite Hl1 in Hw.
    rewrite <- app_assoc in Hw. apply same_out in Hw. subst outs.
    rewrite app_assoc. apply (IH (pre1 ++ z2b t :: ox)); [|exact Hl1].
    revert E. lens. intros E. apply mod8_shift; [now right|exact E].
Qed.

Lemma relocatable_pairs (m : list (Value * Value)) :
  Forall (fun kv => relocatable endian (fst kv) /\ relocatable endian (snd kv)) m ->
  forall pre1 pre2 outs,
    len pre1 mod 8 = len pre2 mod 8 ->
    writePairs endian m pre1 = Ok (pre1 ++ outs) ->
    writePairs endian m pre2 = Ok (pre2 ++ outs).
Proof.
  induction 1 as [|[k x] m [Hk Hx] _ IH]; intros pre1 pre2 outs E Hw.
  - cbn in *. rewrite <- (app_nil_r pre1) in Hw at 1. apply same_out in Hw.
    subst outs. now rewrite app_nil_r.
  - cbn [writePairs fst snd] in *.
    pose proof (writeValue_writes endian k pre1) as Hk1.
    destruct (first_unsupported k) as [T|]; [rewrite Hk1 in Hw; discriminate|].
    destruct Hk1 as (tk & ok & _ & Hk1). rewrite Hk1 in Hw. cbn [bind] in Hw.
    rewrite (Hk pre1 pre2 _ E Hk1). cbn [bind].
    assert (E1 : len (pre1 ++ z2b tk :: ok) mod 8 = len (pre2 ++ z2b tk :: ok) mod 8).
    { revert E. lens. intros E. apply mod8_shift; [now right|exact E]. }
    pose proof (writeValue_writes endian x (pre1 ++ z2b tk :: ok)) as Hx1.
    destruct (first_unsupported x) as [T|]; [rewrite Hx1 in Hw; discriminate|].
    destruct Hx1 as (tx & ox & _ & Hx1). rewrite Hx1 in Hw. cbn [bind] in Hw.
    rewrite (Hx _ (pre2 ++ z2b tk :: ok) _ E1 Hx1). cbn [bind].
    assert (Hall : Forall (fun kv => writes endian (fst kv)
                                     /\ writes endian (snd kv)) m)
      by (apply Forall_forall; intros; split; apply writeValue_writes).
    pose proof (writes_pairs endian m Hall ((pre1 ++ z2b tk :: ok) ++ z2b tx :: ox))
      as Hm1.
    destruct (first_unsupported (VMap m)) as [T|]; [rewrite Hm1 in Hw; discriminate|].
    destruct Hm1 as (om & Hm1). rewrite Hm1 in Hw.
    rewrite <- !app_assoc in Hw. apply same_out in Hw. subst outs.
    rewrite !app_assoc. rewrite <- (app_assoc pre2).
    rewrite app_assoc.
    apply (IH ((pre1 ++ z2b tk :: ok) ++ z2b tx :: ox)); [|exact Hm1].
    revert E1. lens. intros E1. apply mod8_shift; [now right|exact E1].
Qed.

Lemma relocatable_value (v : Value) : relocatable endian v.
Proof.
  induction v as [ | b | n | n | n | x | s | bs | l | l | l | l IH | m IH | T ]
    using Value_nested_ind.
  - apply (relocatable_const _ [z2b 0]). reflexivity.
  - apply (relocatable_const _ [z2b (if b then 1 else 2)]). now destruct b.
  - apply (relocatable_const _ (z2b 3 :: put_uint endian 4 n)). intros pre.
    cbn [writeValue WriteByte bind]. unfold writeInt32, Write.
    now rewrite <- app_assoc.
  - apply (relocatable_const _ (z2b 4 :: put_uint endian 8 n)). intros pre.
    cbn [writeValue WriteByte bind]. unfold writeInt64, Write.
    now rewrite <- app_assoc.
  - apply (relocatable_const _
             (z2b 5 :: size_enc endian (len (list_byte_of_string (Text16 n)))
                    ++ list_byte_of_string (Text16 n))).
    intros pre. cbn [writeValue WriteByte bind]. rewrite writeString_app.
    now rewrite <- app_assoc.
  - intros pre1 pre2 out E Hw.
    rewrite layout_VFloat64 in Hw. apply same_out in Hw. subst out.
    rewrite layout_VFloat64.
    pose proof (len_nonneg pre1). pose proof (len_nonneg pre2).
    rewrite (align_pad_congr (len pre1 + 1) (len pre2 + 1) 8);
      [reflexivity|lia|lia|lia|].
    apply mod8_shift; [now right|exact E].
  - apply (relocatable_const _
             (z2b 7 :: size_enc endian (len (list_byte_of_string s))
                    ++ list_byte_of_string s)).
    intros pre. cbn [writeValue WriteByte bind]. rewrite writeString_app.
    now rewrite <- app_assoc.
  - apply (relocatable_const _ (z2b 8 :: size_enc endian (len bs) ++ bs)).
    intros pre. cbn [writeValue WriteByte bind]. rewrite writeBytes_app.
    now rewrite <- app_assoc.
  - apply (relocatable_slice _ 9 4 4 l); [now left|reflexivity].
  - apply (relocatable_slice _ 10 8 8 l); [now right|reflexivity].
  - apply (relocatable_slice _ 11 8 8 l); [now right|reflexivity].
  - intros pre1 pre2 out E Hw. rewrite writeValue_VList in *.
    cbn [WriteByte bind] in *. rewrite writeSize_app in * by apply len_nonneg.
    cbn [bind] in *.
    assert (Hall : Forall (writes endian) l)
      by (apply Forall_forall; intros; apply writeValue_writes).
    pose proof (writes_elems endian l Hall
                  ((pre1 ++ [z2b 12]) ++ size_enc endian (len l))) as Hl1.
    destruct (first_unsupported (VList l)) as [T|]; [rewrite Hl1 in Hw; discriminate|].
    destruct Hl1 as (ol & Hl1). rewrite Hl1 in Hw.
    rewrite <- !app_assoc in Hw. apply same_out in Hw. subst out.
    assert (E' : len ((pre1 ++ [z2b 12]) ++ size_enc endian (len l)) mod 8
                 = len ((pre2 ++ [z2b 12]) ++ size_enc endian (len l)) mod 8).
    { lens. rewrite <- !Z.add_assoc. apply mod8_shift; [now right|exact E]. }
    rewrite (relocatable_elems l IH _ _ ol E' Hl1).
    now rewrite <- !app_assoc.
  - intros pre1 pre2 out E Hw. rewrite writeValue_VMap in *.
    cbn [WriteByte bind] in *. rewrite writeSize_app in * by apply len_nonneg.
    cbn [bind] in *.
    assert (Hall : Forall (fun kv => writes endian (fst kv)
                                     /\ writes endian (snd kv)) m)
      by (apply Forall_forall; intros; split; apply writeValue_writes).
    pose proof (writes_pairs endian m Hall
                  ((pre1 ++ [z2b 13]) ++ size_enc endian (len m))) as Hm1.
    destruct (first_unsupported (VMap m)) as [T|]; [rewrite Hm1 in Hw; discriminate|].
    destruct Hm1 as (om & Hm1). rewrite Hm1 in Hw.
    rewrite <- !app_assoc in Hw. apply same_out in Hw. subst out.
    assert (E' : len ((pre1 ++ [z2b 13]) ++ size_enc endian (len m)) mod 8
                 = len ((pre2 ++ [z2b 13]) ++ size_enc endian (len m)) mod 8).
    { lens. rewrite <- !Z.add_assoc. apply mod8_shift; [now right|exact E]. }
    rewrite (relocatable_pairs m IH _ _ om E' Hm1).
    now rewrite <- !app_assoc.
  - intros pre1 pre2 out _ Hw. discriminate.
Qed.

End Relocation.

(** X14. What [writeValue] appends for a value depends on where it stands
    in the message only through that offset modulo 8: after two beginnings
    whose lengths agree modulo 8 it appends the same bytes. In particular a
    value written at a multiple of 8 is written as its own message is. *)
Theorem X14_encoding_depends_on_offset_mod_8 (endian : ByteOrder) (v : Value)
  (pre1 pre2 out : list byte) :
  len pre1 mod 8 = len pre2 mod 8 ->
  writeValue endian pre1 v = Ok (pre1 ++ out) ->
  writeValue endian pre2 v = Ok (pre2 ++ out).
Proof.
  apply relocatable_value.
Qed.

Lemma X14_encoding_depends_on_offset_mod_8_witness :
  writeValue LittleEndian [x00; x00; x00; x00; x00; x00; x00; x00; x0c]
    (VList [VNil; VFloat64 4607182418800017408])
  = Ok ([x00; x00; x00; x00; x00; x00; x00; x00; x0c]
          ++ [x0c; x02; x00; x06; x00; x00; x00;
              x00; x00; x00; x00; x00; x00; xf0; x3f]).
Proof.
  exact (X14_encoding_depends_on_offset_mod_8 LittleEndian
           (VList [VNil; VFloat64 4607182418800017408])
           [x0c]
           [x00; x00; x00; x00; x00; x00; x00; x00; x0c]
           [x0c; x02; x00; x06; x00; x00; x00;
            x00; x00; x00; x00; x00; x00; xf0; x3f]
           eq_refl eq_refl).
Defined.

(** X15. Values written one after the other into one buffer are read back
    one after the other: reading from the start of the buffer returns the
    first value and leaves exactly what was written for the second, and
    reading on, with the same original size, returns the second and leaves
    nothing. *)
Theorem X15_values_in_a_row (endian : ByteOrder) (v1 v2 : Value) :
  encodable v1 = true -> encodable v2 = true ->
  exists b1 b2 mid,
    writeValue endian [] v1 = Ok b1 /\
    writeValue endian b1 v2 = Ok b2 /\
    readValueAligned endian (S (List.length b2)) b2 (len b2) = Ok (v1, mid) /\
    readValueAligned endian (S (List.length b2)) mid (len b2) = Ok (v2, []).
Proof.
  unfold encodable. intros H1 H2.
  apply andb_true_iff in H1 as [H1 Z1]. apply andb_true_iff in H1 as [S1 M1].
  apply andb_true_iff in H2 as [H2 Z2]. apply andb_true_iff in H2 as [S2 M2].
  destruct (roundtrip_value endian v1 S1 M1 Z1 []) as (o1 & Hw1 & _ & Hr1).
  destruct (roundtrip_value endian v2 S2 M2 Z2 o1) as (o2 & Hw2 & _ & Hr2).
  cbn [app] in Hw1. exists o1, (o1 ++ o2), o2.
  split; [exact Hw1|]. split; [exact Hw2|]. split.
  - apply Hr1; [lens; lia|rewrite length_app; lia].
  - rewrite <- (app_nil_r o2) at 2.
    apply Hr2; [lens; lia|rewrite length_app; lia].
Qed.

Lemma X15_values_in_a_row_witness :
  exists b1 b2 mid,
    writeValue LittleEndian [] (VString "listen") = Ok b1 /\
    writeValue LittleEndian b1 (VList [VFloat64 0; VNil]) = Ok b2 /\
    readValueAligned LittleEndian (S (List.length b2)) b2 (len b2)
    = Ok (VString "listen", mid) /\
    readValueAligned LittleEndian (S (List.length b2)) mid (len b2)
    = Ok (VList [VFloat64 0; VNil], []).
Proof.
  exact (X15_values_in_a_row LittleEndian (VString "listen")
           (VList [VFloat64 0; VNil]) eq_refl eq_refl).
Defined.

(** X16. What [readSize] accepts: a first byte below 254 is the size; after
    byte 254 the next two bytes are returned as a signed 16-bit integer, and
    after byte 255 the next four as a signed 32-bit integer. A size thus has
    several encodings, and the size returned can be negative. *)
Theorem X16_readSize_forms (endian : ByteOrder) (rest : list byte) :
  (forall b, b2z b < 254 -> readSize endian (b :: rest) = Ok (b2z b, rest)) /\
  (forall n,
     - 2 ^ 15 <= n < 2 ^ 15 ->
     readSize endian (z2b 254 :: put_uint endian 2 n ++ rest) = Ok (n, rest)) /\
  (forall n,
     - 2 ^ 31 <= n < 2 ^ 31 ->
     readSize endian (z2b 255 :: put_uint endian 4 n ++ rest) = Ok (n, rest)).
Proof.
  split; [|split].
  - intros b Hb. unfold readSize. cbn [ReadByte bind].
    destruct (Z.ltb_spec (b2z b) 254); [reflexivity|lia].
  - intros n Hn. unfold readSize. cbn [ReadByte bind].
    rewrite b2z_z2b_small by lia. cbn. now apply readInt16_put.
  - intros n Hn. unfold readSize. cbn [ReadByte bind].
    rewrite b2z_z2b_small by lia. cbn. now apply readInt32_put.
Qed.

Lemma X16_readSize_forms_witness :
  readSize LittleEndian [x05; x09] = Ok (5, [x09]) /\
  readSize LittleEndian [xfe; x05; x00; x09] = Ok (5, [x09]) /\
  readSize LittleEndian [xff; xff; xff; xff; xff; x09] = Ok (- 1, [x09]).
Proof.
  destruct (X16_readSize_forms LittleEndian [x09]) as (H1 & H2 & H3).
  split; [exact (H1 x05 eq_refl)|]. split.
  - exact (H2 5 ltac:(lia)).
  - exact (H3 (- 1) ltac:(lia)).
Defined.

(** X17. The reader does not look at padding: a float64 message decodes to
    the same value whatever the seven bytes between the tag and the payload
    are, and whatever follows the payload. *)
Theorem X17_padding_is_not_inspected (endian : ByteOrder) (x : Z)
  (junk rest : list byte) :
  in_uint64 x = true -> List.length junk = 7%nat ->
  DecodeMessage endian (z2b 6 :: junk ++ put_uint endian 8 x ++ rest)
  = Ok (VFloat64 x).
Proof.
  intros Hx Hj. unfold DecodeMessage, readValue.
  cbn [readValueAligned app ReadByte wrapErr bind].
  rewrite b2z_z2b_small by lia. cbv beta iota zeta.
  assert (Hskip : readAlignment (junk ++ put_uint endian 8 x ++ rest)
                    (len (z2b 6 :: junk ++ put_uint endian 8 x ++ rest)) 8
                  = put_uint endian 8 x ++ rest).
  { unfold readAlignment. rewrite len_cons.
    replace (1 + len (junk ++ put_uint endian 8 x ++ rest)
             - len (junk ++ put_uint endian 8 x ++ rest)) with 1 by lia.
    change (Z.rem 1 8) with 1. cbn [Z.eqb negb]. change (8 - 1) with 7.
    rewrite Z.min_l by (lens; unfold len; rewrite Hj;
                        pose proof (len_nonneg rest); lia).
    apply skipn_len_app. unfold len. now rewrite Hj. }
  rewrite Hskip, readFloat64_put by (apply in_uint64_spec; exact Hx).
  reflexivity.
Qed.

Lemma X17_padding_is_not_inspected_witness :
  DecodeMessage LittleEndian
    (z2b 6 :: [x01; x02; x03; x04; x05; x06; x07]
         ++ put_uint LittleEndian 8 4607182418800017408 ++ [xff])
  = Ok (VFloat64 4607182418800017408).
Proof.
  exact (X17_padding_is_not_inspected LittleEndian 4607182418800017408
           [x01; x02; x03; x04; x05; x06; x07] [xff] eq_refl eq_refl).
Defined.

(** X18. A string or a byte buffer of 32768 to 65535 bytes is encoded, and
    decoding its encoding panics, whatever follows it: the size comes back
    negative from [readSize] and [readBytes] asks [buf.Next] for it. *)
Theorem X18_lengths_from_32768_to_65535_panic (endian : ByteOrder)
  (rest : list byte) :
  (forall s,
     32768 <= len (list_byte_of_string s) <= 65535 ->
     exists data,
       EncodeMessage endian (VString s) = Ok data /\
       DecodeMessage endian (data ++ rest)
       = Panic "runtime error: slice bounds out of range") /\
  (forall bs,
     32768 <= len bs <= 65535 ->
     exists data,
       EncodeMessage endian (VBytes bs) = Ok data /\
       DecodeMessage endian (data ++ rest)
       = Panic "runtime error: slice bounds out of range").
Proof.
  split.
  - intros s H. now apply DecodeMessage_string_int16_gap.
  - intros bs H. now apply DecodeMessage_bytes_int16_gap.
Qed.

Lemma X18_lengths_from_32768_to_65535_panic_witness :
  exists data,
    EncodeMessage BigEndian (VBytes (repeat xff (Z.to_nat 65535))) = Ok data /\
    DecodeMessage BigEndian (data ++ [x00])
    = Panic "runtime error: slice bounds out of range".
Proof.
  refine (proj2 (X18_lengths_from_32768_to_65535_panic BigEndian [x00])
            (repeat xff (Z.to_nat 65535)) _).
  split; vm_compute; discriminate.
Defined.

Lemma readValueAligned_map (endian : ByteOrder) (fuel : nat) (buf : list byte)
  (orig : Z) :
  readValueAligned endian (S fuel) (z2b 13 :: buf) orig =
    ('(length, buf) <- readSize endian buf ;;
     '(m, buf) <-
       readMapLoop (fun b => readValueAligned endian fuel b orig)
         fuel 0 length buf [] ;;
     Ok (VMap m, buf)).
Proof.
  cbn [readValueAligned ReadByte wrapErr bind].
  rewrite b2z_z2b_small by lia. reflexivity.
Qed.

(** X19. A map whose first key is a byte buffer, a numeric slice, a list or
    a map cannot be decoded when its declared size is one [readSize] reads
    back as written and is at least 1 (from 1 to 2^15 - 1, or from 2^16 to
    2^31 - 1): once the key and its value are read, storing the pair
    panics, whatever follows in the stream. (A declared size from 2^15 to
    2^16 - 1 is read back negative and the loop is not entered.) *)
Theorem X19_unhashable_key_panics (endian : ByteOrder) (k v : Value) (n : Z)
  (rest : list byte) :
  encodable k = true -> encodable v = true -> hashable k = false ->
  size_ok n = true -> 1 <= n ->
  exists b1 b2,
    writeValue endian (z2b 13 :: size_enc endian n) k = Ok b1 /\
    writeValue endian b1 v = Ok b2 /\
    DecodeMessage endian (b2 ++ rest)
    = Panic "runtime error: hash of unhashable type".
Proof.
  unfold encodable. intros H1 H2 Hh Hn Hn1.
  apply andb_true_iff in H1 as [H1 Z1]. apply andb_true_iff in H1 as [S1 M1].
  apply andb_true_iff in H2 as [H2 Z2]. apply andb_true_iff in H2 as [S2 M2].
  destruct (roundtrip_value endian k S1 M1 Z1 (z2b 13 :: size_enc endian n))
    as (ok & Hwk & Hlk & Hrk).
  destruct (roundtrip_value endian v S2 M2 Z2 ((z2b 13 :: size_enc endian n) ++ ok))
    as (ov & Hwv & _ & Hrv).
  exists ((z2b 13 :: size_enc endian n) ++ ok),
         (((z2b 13 :: size_enc endian n) ++ ok) ++ ov).
  split; [exact Hwk|]. split; [exact Hwv|].
  unfold DecodeMessage, readValue.
  set (data := (((z2b 13 :: size_enc endian n) ++ ok) ++ ov) ++ rest).
  assert (Hd : data = z2b 13 :: size_enc endian n ++ ok ++ ov ++ rest).
  { unfold data. cbn [app]. now rewrite <- !app_assoc. }
  assert (Hlen : len data = len (z2b 13 :: size_enc endian n) + len ok
                            + len (ov ++ rest)).
  { rewrite Hd. lens. lia. }
  assert (Hfuel : exists f, List.length data = S (S f)
                            /\ (List.length ok <= S f)%nat
                            /\ (List.length ov <= S f)%nat).
  { rewrite Hd. cbn [List.length]. rewrite !length_app.
    exists (List.length (size_enc endian n) + (List.length ok
             + (List.length ov + List.length rest)) - 1)%nat.
    split; [|split]; lia. }
  destruct Hfuel as (f & Hf & Hfk & Hfv). rewrite Hf.
  rewrite Hd at 1. rewrite readValueAligned_map.
  rewrite readSize_writeSize_ok by exact Hn. cbn [bind readMapLoop].
  destruct (Z.ltb_spec 0 n); [|lia].
  rewrite Hrk by (try exact Hlen; lia). cbn [bind].
  rewrite Hrv by (try lia; rewrite Hlen; lens; lia). cbn [bind].
  unfold mapassign. rewrite Hh. reflexivity.
Qed.

Lemma X19_unhashable_key_panics_witness :
  exists b1 b2,
    writeValue LittleEndian (z2b 13 :: size_enc LittleEndian 1)
      (VList [VInt32 1]) = Ok b1 /\
    writeValue LittleEndian b1 (VString "v") = Ok b2 /\
    DecodeMessage LittleEndian (b2 ++ [])
    = Panic "runtime error: hash of unhashable type".
Proof.
  exact (X19_unhashable_key_panics LittleEndian (VList [VInt32 1]) (VString "v")
           1 [] eq_refl eq_refl eq_refl eq_refl ltac:(lia)).
Defined.
